(** * Texture level-of-detail helpers (ray cones, ray differentials,
      triangle curvature estimators): a shallow embedding and its properties.

    The shader code is written once, over an interface of scalar floating-point
    operations ([Arith], and [Transc] for the transcendental intrinsics).  Three
    implementations of the interface are given:

    - [xreal]: exact real arithmetic with one invalid value, [None].  An
      operation with no finite real result (division by zero, square root of a
      negative number, acos outside [-1, 1], log2 of a non-positive number)
      yields [None], and [None] then behaves like an IEEE NaN: arithmetic
      absorbs it, every comparison with it is false, max and min return the
      other operand.  Rounding and overflow are abstracted away (so narrowing
      to half precision is exact), and an infinity is not told apart from a
      NaN.  A result [Some a] therefore says that every operation on the way
      was defined and that the exact value is [a].
    - [binary32]: IEEE 754 single precision, as specified by [SpecFloat]
      (24 bits of precision, [emax = 128]), with the narrowing to binary16;
      executable, without the transcendental intrinsics: a statement that
      needs them is made for every implementation of [Transc] that has the
      special values it names.
    - [ereal]: exact real arithmetic with the special values of IEEE 754
      (the infinities, the negative zero and a NaN); no rounding. *)

From Stdlib Require Import ZArith QArith Qreals Reals Lra Lia Bool.
From Stdlib Require Import Floats.SpecFloat.

Set Implicit Arguments.

(** ** The scalar interface *)

Class Arith (T : Type) := {
  half : Type;                 (* 16-bit payload of f32tof16 *)
  lit : Q -> T;                (* a decimal literal of the source *)
  add : T -> T -> T;
  sub : T -> T -> T;
  mul : T -> T -> T;
  div : T -> T -> T;
  neg : T -> T;
  fabs : T -> T;               (* abs *)
  fsqrt : T -> T;              (* sqrt *)
  fsign : T -> T;              (* sign, converted back to float *)
  fmax : T -> T -> T;          (* max *)
  fmin : T -> T -> T;          (* min *)
  ltb : T -> T -> bool;        (* a < b *)
  feqb : T -> T -> bool;       (* a == b *)
  f32tof16 : T -> half;
  f16tof32 : half -> T
}.

Class Transc (T : Type) := {
  fcos : T -> T;
  fsin : T -> T;
  facos : T -> T;
  fasin : T -> T;
  fatan : T -> T;
  flog2 : T -> T
}.

Declare Scope fp_scope.
Delimit Scope fp_scope with fp.
Infix "+" := add : fp_scope.
Infix "-" := sub : fp_scope.
Infix "*" := mul : fp_scope.
Infix "/" := div : fp_scope.
Notation "- x" := (neg x) : fp_scope.
Notation "a <? b" := (ltb a b) : fp_scope.
Notation "a >? b" := (ltb b a) : fp_scope.
Notation "a ==? b" := (feqb a b) (at level 70) : fp_scope.

(** ** Vectors *)

Record float2 (T : Type) := mkFloat2 { x2 : T; y2 : T }.
Record float3 (T : Type) := mkFloat3 { x3 : T; y3 : T; z3 : T }.

Section VectorOps.
Context {T : Type} `{Arith T}.
Local Open Scope fp_scope.

Definition add2 (a b : float2 T) := mkFloat2 (x2 a + x2 b) (y2 a + y2 b).
Definition sub2 (a b : float2 T) := mkFloat2 (x2 a - x2 b) (y2 a - y2 b).
Definition neg2 (a : float2 T) := mkFloat2 (- x2 a) (- y2 a).
(* vector * scalar and scalar * vector *)
Definition scale2 (a : float2 T) (s : T) := mkFloat2 (x2 a * s) (y2 a * s).
Definition lscale2 (s : T) (a : float2 T) := mkFloat2 (s * x2 a) (s * y2 a).
Definition dot2 (a b : float2 T) : T := x2 a * x2 b + y2 a * y2 b.
Definition length2 (a : float2 T) : T := fsqrt (dot2 a a).
Definition normalize2 (a : float2 T) :=
  let l := length2 a in mkFloat2 (x2 a / l) (y2 a / l).

Definition add3 (a b : float3 T) :=
  mkFloat3 (x3 a + x3 b) (y3 a + y3 b) (z3 a + z3 b).
Definition sub3 (a b : float3 T) :=
  mkFloat3 (x3 a - x3 b) (y3 a - y3 b) (z3 a - z3 b).
Definition neg3 (a : float3 T) := mkFloat3 (- x3 a) (- y3 a) (- z3 a).
Definition scale3 (a : float3 T) (s : T) :=
  mkFloat3 (x3 a * s) (y3 a * s) (z3 a * s).
Definition lscale3 (s : T) (a : float3 T) :=
  mkFloat3 (s * x3 a) (s * y3 a) (s * z3 a).
Definition divs3 (a : float3 T) (s : T) :=
  mkFloat3 (x3 a / s) (y3 a / s) (z3 a / s).
Definition dot3 (a b : float3 T) : T :=
  x3 a * x3 b + y3 a * y3 b + z3 a * z3 b.
Definition cross (a b : float3 T) :=
  mkFloat3 (y3 a * z3 b - z3 a * y3 b)
           (z3 a * x3 b - x3 a * z3 b)
           (x3 a * y3 b - y3 a * x3 b).
Definition length3 (a : float3 T) : T := fsqrt (dot3 a a).
(* normalize(v) = v / length(v) *)
Definition normalize3 (a : float3 T) := divs3 a (length3 a).

Definition zero2 : float2 T := mkFloat2 (lit 0) (lit 0).
Definition zero3 : float3 T := mkFloat3 (lit 0) (lit 0) (lit 0).
End VectorOps.

(** ** Exact reals with an invalid value *)

Definition xreal := option R.

Definition xlift1 (f : R -> R) (x : xreal) : xreal :=
  match x with Some a => Some (f a) | None => None end.

Definition xlift2 (f : R -> R -> R) (x y : xreal) : xreal :=
  match x, y with Some a, Some b => Some (f a b) | _, _ => None end.

Definition xdiv (x y : xreal) : xreal :=
  match x, y with
  | Some a, Some b => if Req_dec_T b 0 then None else Some (a / b)%R
  | _, _ => None
  end.

Definition xsqrt (x : xreal) : xreal :=
  match x with
  | Some a => if Rlt_dec a 0 then None else Some (sqrt a)
  | None => None
  end.

Definition Rsign (a : R) : R :=
  if Rlt_dec 0 a then 1%R else if Rlt_dec a 0 then (-1)%R else 0%R.

(* sign(x) = (0 < x) - (x < 0): zero on NaN *)
Definition xsign (x : xreal) : xreal :=
  match x with Some a => Some (Rsign a) | None => Some 0%R end.

Definition xltb (x y : xreal) : bool :=
  match x, y with
  | Some a, Some b => if Rlt_dec a b then true else false
  | _, _ => false
  end.

Definition xeqb (x y : xreal) : bool :=
  match x, y with
  | Some a, Some b => if Req_dec_T a b then true else false
  | _, _ => false
  end.

(* max and min return the other operand when one is NaN *)
Definition xmax (x y : xreal) : xreal :=
  match x, y with
  | Some a, Some b => Some (Rmax a b)
  | None, _ => y
  | _, None => x
  end.

Definition xmin (x y : xreal) : xreal :=
  match x, y with
  | Some a, Some b => Some (Rmin a b)
  | None, _ => y
  | _, None => x
  end.

#[export] Instance xreal_Arith : Arith xreal := {|
  half := xreal;
  lit := fun q => Some (Q2R q);
  add := xlift2 Rplus;
  sub := xlift2 Rminus;
  mul := xlift2 Rmult;
  div := xdiv;
  neg := xlift1 Ropp;
  fabs := xlift1 Rabs;
  fsqrt := xsqrt;
  fsign := xsign;
  fmax := xmax;
  fmin := xmin;
  ltb := xltb;
  feqb := xeqb;
  f32tof16 := fun x => x;
  f16tof32 := fun x => x
|}.

Definition xacos (x : xreal) : xreal :=
  match x with
  | Some a => if Rlt_dec 1 (Rabs a) then None else Some (acos a)
  | None => None
  end.

Definition xasin (x : xreal) : xreal :=
  match x with
  | Some a => if Rlt_dec 1 (Rabs a) then None else Some (asin a)
  | None => None
  end.

Definition Rlog2 (a : R) : R := (ln a / ln 2)%R.

Definition xlog2 (x : xreal) : xreal :=
  match x with
  | Some a => if Rlt_dec 0 a then Some (Rlog2 a) else None
  | None => None
  end.

#[export] Instance xreal_Transc : Transc xreal := {|
  fcos := xlift1 cos;
  fsin := xlift1 sin;
  facos := xacos;
  fasin := xasin;
  fatan := xlift1 atan;
  flog2 := xlog2
|}.

(** ** IEEE 754 single precision *)

Definition binary32 := spec_float.

Definition b32_of_Z (z : Z) : binary32 := binary_normalize 24 128 z 0 false.

Definition b32_lit (q : Q) : binary32 :=
  SFdiv 24 128 (b32_of_Z (Qnum q)) (b32_of_Z (Zpos (Qden q))).

Definition b32_is_nan (x : binary32) : bool :=
  match x with S754_nan => true | _ => false end.

Definition b32_sign (x : binary32) : binary32 :=
  if SFltb (b32_of_Z 0) x then b32_of_Z 1
  else if SFltb x (b32_of_Z 0) then b32_of_Z (-1)
  else b32_of_Z 0.

Definition b32_max (x y : binary32) : binary32 :=
  if b32_is_nan x then y else if b32_is_nan y then x
  else if SFltb x y then y else x.

Definition b32_min (x y : binary32) : binary32 :=
  if b32_is_nan x then y else if b32_is_nan y then x
  else if SFltb y x then y else x.

(* narrowing to and widening from binary16 (11 bits of precision, emax = 16) *)
Definition b32_to_b16 (x : binary32) : spec_float :=
  match x with
  | S754_finite s m e => binary_normalize 11 16 (cond_Zopp s (Zpos m)) e s
  | _ => x
  end.

Definition b16_to_b32 (x : spec_float) : binary32 :=
  match x with
  | S754_finite s m e => binary_normalize 24 128 (cond_Zopp s (Zpos m)) e s
  | _ => x
  end.

#[export] Instance binary32_Arith : Arith binary32 := {|
  half := spec_float;
  lit := b32_lit;
  add := SFadd 24 128;
  sub := SFsub 24 128;
  mul := SFmul 24 128;
  div := SFdiv 24 128;
  neg := SFopp;
  fabs := SFabs;
  fsqrt := SFsqrt 24 128;
  fsign := b32_sign;
  fmax := b32_max;
  fmin := b32_min;
  ltb := SFltb;
  feqb := SFeqb;
  f32tof16 := b32_to_b16;
  f16tof32 := b16_to_b32
|}.

(** ** Exact reals with the IEEE 754 special values *)

(* Exact arithmetic (no rounding, overflow or underflow) on the reals extended
   with the two infinities, the negative zero and a NaN, with the results
   IEEE 754 gives for them: [EFin 0] is +0, a division of a non-zero number by
   a zero is an infinity, 0 / 0, 0 * inf and inf - inf are NaN, log2 of a
   zero is the negative infinity, and every comparison with a NaN is false. *)
Inductive ereal :=
| ENaN
| EInf (negative : bool)
| ENegZero
| EFin (r : R).

(* The sign bit, and the value of a number that is not an infinity or NaN. *)
Definition esignbit (x : ereal) : bool :=
  match x with
  | ENaN => false
  | EInf s => s
  | ENegZero => true
  | EFin r => if Rlt_dec r 0 then true else false
  end.

Definition evalue (x : ereal) : R :=
  match x with EFin r => r | _ => 0%R end.

Definition ezero (s : bool) : ereal := if s then ENegZero else EFin 0.

(* A finite result r; a zero result takes the sign s. *)
Definition efinite_result (r : R) (s : bool) : ereal :=
  if Req_dec_T r 0 then ezero s else EFin r.

Definition eis_zero (x : ereal) : bool :=
  match x with
  | ENegZero => true
  | EFin r => if Req_dec_T r 0 then true else false
  | _ => false
  end.

Definition eadd (x y : ereal) : ereal :=
  match x, y with
  | ENaN, _ | _, ENaN => ENaN
  | EInf sx, EInf sy => if Bool.eqb sx sy then x else ENaN
  | EInf _, _ => x
  | _, EInf _ => y
  | ENegZero, ENegZero => ENegZero
  | ENegZero, EFin b => EFin b
  | EFin a, ENegZero => EFin a
  | EFin a, EFin b => EFin (a + b)
  end.

Definition eneg (x : ereal) : ereal :=
  match x with
  | ENaN => ENaN
  | EInf s => EInf (negb s)
  | ENegZero => EFin 0
  | EFin r => if Req_dec_T r 0 then ENegZero else EFin (- r)
  end.

Definition esub (x y : ereal) : ereal := eadd x (eneg y).

Definition emul (x y : ereal) : ereal :=
  match x, y with
  | ENaN, _ | _, ENaN => ENaN
  | EInf sx, EInf sy => EInf (xorb sx sy)
  | EInf sx, _ => if eis_zero y then ENaN else EInf (xorb sx (esignbit y))
  | _, EInf sy => if eis_zero x then ENaN else EInf (xorb (esignbit x) sy)
  | _, _ =>
      efinite_result (evalue x * evalue y) (xorb (esignbit x) (esignbit y))
  end.

Definition ediv (x y : ereal) : ereal :=
  match x, y with
  | ENaN, _ | _, ENaN => ENaN
  | EInf _, EInf _ => ENaN
  | EInf sx, _ => EInf (xorb sx (esignbit y))
  | _, EInf sy => ezero (xorb (esignbit x) sy)
  | _, _ =>
      if eis_zero y then
        if eis_zero x then ENaN else EInf (xorb (esignbit x) (esignbit y))
      else
        efinite_result (evalue x / evalue y) (xorb (esignbit x) (esignbit y))
  end.

Definition eabs (x : ereal) : ereal :=
  match x with
  | ENaN => ENaN
  | EInf _ => EInf false
  | ENegZero => EFin 0
  | EFin r => EFin (Rabs r)
  end.

Definition esqrt (x : ereal) : ereal :=
  match x with
  | ENaN => ENaN
  | EInf s => if s then ENaN else EInf false
  | ENegZero => ENegZero
  | EFin r => if Rlt_dec r 0 then ENaN else EFin (sqrt r)
  end.

(* sign(x) = (0 < x) - (x < 0): zero on NaN *)
Definition esign (x : ereal) : ereal :=
  match x with
  | ENaN => EFin 0
  | EInf s => if s then EFin (-1) else EFin 1
  | ENegZero => EFin 0
  | EFin r => EFin (Rsign r)
  end.

Definition eltb (x y : ereal) : bool :=
  match x, y with
  | ENaN, _ | _, ENaN => false
  | EInf sx, EInf sy => sx && negb sy
  | EInf sx, _ => sx
  | _, EInf sy => negb sy
  | _, _ => if Rlt_dec (evalue x) (evalue y) then true else false
  end.

Definition eeqb (x y : ereal) : bool :=
  match x, y with
  | ENaN, _ | _, ENaN => false
  | EInf sx, EInf sy => Bool.eqb sx sy
  | EInf _, _ | _, EInf _ => false
  | _, _ => if Req_dec_T (evalue x) (evalue y) then true else false
  end.

(* max and min return the other operand when one is NaN *)
Definition efmax (x y : ereal) : ereal :=
  match x, y with
  | ENaN, _ => y
  | _, ENaN => x
  | _, _ => if eltb x y then y else x
  end.

Definition efmin (x y : ereal) : ereal :=
  match x, y with
  | ENaN, _ => y
  | _, ENaN => x
  | _, _ => if eltb y x then y else x
  end.

#[export] Instance ereal_Arith : Arith ereal | 10 := {|
  half := ereal;
  lit := fun q => EFin (Q2R q);
  add := eadd;
  sub := esub;
  mul := emul;
  div := ediv;
  neg := eneg;
  fabs := eabs;
  fsqrt := esqrt;
  fsign := esign;
  fmax := efmax;
  fmin := efmin;
  ltb := eltb;
  feqb := eeqb;
  f32tof16 := fun x => x;
  f16tof32 := fun x => x
|}.

Definition ecos (x : ereal) : ereal :=
  match x with
  | ENaN | EInf _ => ENaN
  | ENegZero => EFin 1
  | EFin r => EFin (cos r)
  end.

Definition esin (x : ereal) : ereal :=
  match x with
  | ENaN | EInf _ => ENaN
  | ENegZero => ENegZero
  | EFin r => EFin (sin r)
  end.

Definition eacos (x : ereal) : ereal :=
  match x with
  | ENaN | EInf _ => ENaN
  | ENegZero => EFin (acos 0)
  | EFin r => if Rlt_dec 1 (Rabs r) then ENaN else EFin (acos r)
  end.

Definition easin (x : ereal) : ereal :=
  match x with
  | ENaN | EInf _ => ENaN
  | ENegZero => ENegZero
  | EFin r => if Rlt_dec 1 (Rabs r) then ENaN else EFin (asin r)
  end.

Definition eatan (x : ereal) : ereal :=
  match x with
  | ENaN => ENaN
  | EInf s => if s then EFin (- (PI / 2)) else EFin (PI / 2)
  | ENegZero => ENegZero
  | EFin r => EFin (atan r)
  end.

Definition elog2 (x : ereal) : ereal :=
  match x with
  | ENaN => ENaN
  | EInf s => if s then ENaN else EInf false
  | ENegZero => EInf true
  | EFin r =>
      if Req_dec_T r 0 then EInf true
      else if Rlt_dec r 0 then ENaN else EFin (Rlog2 r)
  end.

#[export] Instance ereal_Transc : Transc ereal | 10 := {|
  fcos := ecos;
  fsin := esin;
  facos := eacos;
  fasin := easin;
  fatan := eatan;
  flog2 := elog2
|}.

(** ** Ray cone helpers *)

(* float3 v[3], float2 v[3] *)
Record array3 (A : Type) := mkArray3 { elt0 : A; elt1 : A; elt2 : A }.

(* Modes for calculating spread angle from curvature *)
Inductive SpreadAngleMode :=
| TEXLOD_SPREADANGLE_RTG1
| TEXLOD_SPREADANGLE_ARC_LENGTH_UNOPTIMIZED
| TEXLOD_SPREADANGLE_ARC_LENGTH_OPTIMIZED.

Definition TEXLOD_SPREADANGLE_FROM_CURVATURE_MODE : SpreadAngleMode :=
  TEXLOD_SPREADANGLE_ARC_LENGTH_OPTIMIZED.

Section RayConeHelpers.
Context {T : Type} `{Arith T}.
Local Open Scope fp_scope.

(* USE_RAYCONES_WITH_FP16_IN_RAYPAYLOAD is defined: the cone is stored as two
   halves packed in one uint, the width in the upper 16 bits and the spread
   angle in the lower 16 bits; the record keeps the two 16-bit fields. *)
Record RayCone := mkRayCone { widthFP16 : half; spreadAngleFP16 : half }.

Definition getWidth (c : RayCone) : T := f16tof32 (widthFP16 c).
Definition getSpreadAngle (c : RayCone) : T := f16tof32 (spreadAngleFP16 c).

Definition RayCone_make (width angle : T) : RayCone :=
  mkRayCone (f32tof16 width) (f32tof16 angle).

Definition propagateDistance (c : RayCone) (hitT : T) : RayCone :=
  let angle := getSpreadAngle c in
  let width := getWidth c in
  RayCone_make (angle * hitT + width) angle.

Definition addToSpreadAngle (c : RayCone) (surfaceSpreadAngle : T) : RayCone :=
  let angle := getSpreadAngle c in
  RayCone_make (getWidth c) (angle + surfaceSpreadAngle).

(* The clamp of the denominator shared by the three formulations. *)
Definition clampedDn (rayDir normal : float3 T) : T :=
  let dn := - dot3 rayDir normal in
  if fabs dn <? lit 1.0e-5 then fsign dn * lit 1.0e-5 else dn.

(* computeSpreadAngleFromCurvatureIso as compiled:
   TEXLOD_SPREADANGLE_FROM_CURVATURE_MODE == TEXLOD_SPREADANGLE_ARC_LENGTH_OPTIMIZED *)
Definition computeSpreadAngleFromCurvatureIso
    (curvature rayConeWidth : T) (rayDir normal : float3 T) : T :=
  let dn := clampedDn rayDir normal in
  let deltaPhi := curvature * rayConeWidth / dn in
  let surfaceSpreadAngle := deltaPhi in
  surfaceSpreadAngle.

Definition computeAnisotropicEllipseAxes
    (intersectionPoint faceNormal rayConeDir : float3 T)
    (rayConeRadiusAtIntersection : T)
    (positions : array3 (float3 T)) (txcoords : array3 (float2 T))
    (interpolatedTexCoordsAtIntersection : float2 T)
    : float2 T * float2 T :=
  (* Compute ellipse axes. *)
  let ellipseAxis0 :=
    sub3 rayConeDir (lscale3 (dot3 faceNormal rayConeDir) faceNormal) in
  let rayDirPlaneProjection0 :=
    sub3 ellipseAxis0 (lscale3 (dot3 rayConeDir ellipseAxis0) rayConeDir) in
  let ellipseAxis0 :=
    scale3 ellipseAxis0
      (rayConeRadiusAtIntersection
         / fmax (lit 0.0001) (length3 rayDirPlaneProjection0)) in
  let ellipseAxis1 := cross faceNormal ellipseAxis0 in
  let rayDirPlaneProjection1 :=
    sub3 ellipseAxis1 (lscale3 (dot3 rayConeDir ellipseAxis1) rayConeDir) in
  let ellipseAxis1 :=
    scale3 ellipseAxis1
      (rayConeRadiusAtIntersection
         / fmax (lit 0.0001) (length3 rayDirPlaneProjection1)) in
  (* Compute texture coordinate gradients. *)
  let d := sub3 intersectionPoint (elt0 positions) in
  let edge01 := sub3 (elt1 positions) (elt0 positions) in
  let edge02 := sub3 (elt2 positions) (elt0 positions) in
  let oneOverAreaTriangle := lit 1 / dot3 faceNormal (cross edge01 edge02) in
  let interp (u v : T) :=
    sub2 (add2 (add2 (lscale2 (lit 1 - u - v) (elt0 txcoords))
                     (lscale2 u (elt1 txcoords)))
               (lscale2 v (elt2 txcoords)))
         interpolatedTexCoordsAtIntersection in
  (* Compute barycentrics. *)
  let edgeP := add3 d ellipseAxis0 in
  let u := dot3 faceNormal (cross edgeP edge02) * oneOverAreaTriangle in
  let v := dot3 faceNormal (cross edge01 edgeP) * oneOverAreaTriangle in
  let texGradientX := interp u v in
  let edgeP := add3 d ellipseAxis1 in
  let u := dot3 faceNormal (cross edgeP edge02) * oneOverAreaTriangle in
  let v := dot3 faceNormal (cross edge01 edgeP) * oneOverAreaTriangle in
  let texGradientY := interp u v in
  (texGradientX, texGradientY).

(* refractWithTIR, float3 overload *)
Definition refractWithTIR (rayDir normal : float3 T) (eta : T)
    : bool * float3 T :=
  let NdotD := dot3 normal rayDir in
  let k := lit 1 - eta * eta * (lit 1 - NdotD * NdotD) in
  if k <? lit 0 then (false, mkFloat3 (lit 0) (lit 0) (lit 0))
  else (true, sub3 (scale3 rayDir eta)
                   (scale3 normal (eta * NdotD + fsqrt k))).

(* refractWithTIR, float2 overload *)
Definition refractWithTIR2D (rayDir normal : float2 T) (eta : T)
    : bool * float2 T :=
  let NdotD := dot2 normal rayDir in
  let k := lit 1 - eta * eta * (lit 1 - NdotD * NdotD) in
  if k <? lit 0 then (false, mkFloat2 (lit 0) (lit 0))
  else (true, sub2 (scale2 rayDir eta)
                   (scale2 normal (eta * NdotD + fsqrt k))).

Definition orthogonal (vec : float2 T) : float2 T :=
  mkFloat2 (- y2 vec) (x2 vec).
End RayConeHelpers.

Arguments RayCone T {_}.

Section RayConeTranscendental.
Context {T : Type} `{Arith T} `{Transc T}.
Local Open Scope fp_scope.

Definition computeLOD (c : RayCone T) (triLODConstant : T)
    (rayDir normal : float3 T) (moreDetailOnSlopes : bool) : T :=
  let lambda := triLODConstant in
  let filterWidth := getWidth c in
  let distTerm := fabs filterWidth in
  let normalTerm := fabs (dot3 rayDir normal) in
  let normalTerm := if moreDetailOnSlopes then fsqrt normalTerm else normalTerm in
  let lambda := lambda + flog2 (distTerm / normalTerm) in
  lambda.

(* computeSpreadAngleFromCurvatureIso under each of the three settings of
   TEXLOD_SPREADANGLE_FROM_CURVATURE_MODE *)
Definition computeSpreadAngleFromCurvatureIso_mode (mode : SpreadAngleMode)
    (curvature rayConeWidth : T) (rayDir normal : float3 T) : T :=
  let dn := clampedDn rayDir normal in
  match mode with
  | TEXLOD_SPREADANGLE_RTG1 =>
      let s := fsign curvature in
      let curvatureScaled := curvature * rayConeWidth * lit 0.5 / dn in
      let surfaceSpreadAngle :=
        lit 2 * fatan (fabs curvatureScaled / fsqrt (lit 2)) * s in
      surfaceSpreadAngle
  | TEXLOD_SPREADANGLE_ARC_LENGTH_UNOPTIMIZED =>
      let r := lit 1 / curvature in
      let chord := rayConeWidth / dn in
      let arcLength := fasin (chord / (lit 2 * r)) * (lit 2 * r) in
      let deltaPhi := curvature * arcLength in
      let surfaceSpreadAngle := deltaPhi in
      surfaceSpreadAngle
  | TEXLOD_SPREADANGLE_ARC_LENGTH_OPTIMIZED =>
      let deltaPhi := curvature * rayConeWidth / dn in
      let surfaceSpreadAngle := deltaPhi in
      surfaceSpreadAngle
  end.

Definition rotate2DPlusMinus (vec : float2 T) (angle : T)
    : float2 T * float2 T :=
  let c := fcos angle in
  let s := fsin angle in
  let cx := c * x2 vec in
  let sy := s * y2 vec in
  let sx := s * x2 vec in
  let cy := c * y2 vec in
  (mkFloat2 (cx - sy) (sx + cy), mkFloat2 (cx + sy) (- sx + cy)).

Definition computeRayConeForRefraction (rayCone : RayCone T)
    (rayOrg rayDir hitPoint normal : float3 T) (normalSpreadAngle eta : T)
    (refractedRayDir : float3 T) : RayCone T :=
  let xAxis := normalize3 (sub3 rayDir (scale3 normal (dot3 normal rayDir))) in
  let yAxis := normal in
  let refractedDir2D :=
    mkFloat2 (dot3 refractedRayDir xAxis) (dot3 refractedRayDir yAxis) in
  let incidentDir2D := mkFloat2 (dot3 rayDir xAxis) (dot3 rayDir yAxis) in
  let incidentDirOrtho2D := orthogonal incidentDir2D in
  let widthSign := if getWidth rayCone >? lit 0 then lit 1 else - lit 1 in
  let '(incidentDir2D_u, incidentDir2D_l) :=
    rotate2DPlusMinus incidentDir2D
      (getSpreadAngle rayCone * widthSign * lit 0.5) in
  let tu := scale2 (scale2 incidentDirOrtho2D (getWidth rayCone)) (lit 0.5) in
  let tl := neg2 tu in
  let hitPoint_u_x :=
    x2 tu + x2 incidentDir2D_u * (- y2 tu / y2 incidentDir2D_u) in
  let hitPoint_l_x :=
    x2 tl + x2 incidentDir2D_l * (- y2 tl / y2 incidentDir2D_l) in
  let normalSign := if hitPoint_u_x >? hitPoint_l_x then lit 1 else - lit 1 in
  let normal2D := mkFloat2 (lit 0) (lit 1) in
  let '(normal2D_u, normal2D_l) :=
    rotate2DPlusMinus normal2D (- normalSpreadAngle * normalSign * lit 0.5) in
  (* Refract in 2D. *)
  let refractedDir2D_u :=
    let '(ok, r) := refractWithTIR2D incidentDir2D_u normal2D_u eta in
    if negb ok then
      normalize2 (sub2 incidentDir2D_u
                       (scale2 normal2D_u (dot2 normal2D_u incidentDir2D_u)))
    else r in
  let refractedDir2D_l :=
    let '(ok, r) := refractWithTIR2D incidentDir2D_l normal2D_l eta in
    if negb ok then
      normalize2 (sub2 incidentDir2D_l
                       (scale2 normal2D_l (dot2 normal2D_l incidentDir2D_l)))
    else r in
  let signA :=
    if (x2 refractedDir2D_u * y2 refractedDir2D_l
        - y2 refractedDir2D_u * x2 refractedDir2D_l) * normalSign <? lit 0
    then lit 1 else - lit 1 in
  let spreadAngle := facos (dot2 refractedDir2D_u refractedDir2D_l) * signA in
  (* Now compute the width of the refracted cone. *)
  let refractDirOrtho2D := orthogonal refractedDir2D in
  let width :=
    (- hitPoint_u_x * y2 refractedDir2D_u)
      / dot2 refractDirOrtho2D (orthogonal refractedDir2D_u) in
  let width :=
    width + (hitPoint_l_x * y2 refractedDir2D_l)
              / dot2 refractDirOrtho2D (orthogonal refractedDir2D_l) in
  RayCone_make width spreadAngle.

(* The inout ray cone is returned next to the success flag and the out
   refractedRayDir. *)
Definition refractRayCone (rayCone : RayCone T)
    (rayOrg rayDir hitPoint normal : float3 T) (normalSpreadAngle eta : T)
    : bool * RayCone T * float3 T :=
  let '(ok, refractedRayDir) := refractWithTIR rayDir normal eta in
  if negb ok then (false, rayCone, refractedRayDir)
  else
    (true,
     computeRayConeForRefraction rayCone rayOrg rayDir hitPoint normal
       normalSpreadAngle eta refractedRayDir,
     refractedRayDir).
End RayConeTranscendental.

(** ** Ray differentials helpers *)

Section RayDifferentials.
Context {T : Type} `{Arith T}.
Local Open Scope fp_scope.

Record RayDiff := mkRayDiff {
  dOdx : float3 T; dOdy : float3 T; dDdx : float3 T; dDdy : float3 T }.

Definition RayDiff_make (dOdx dOdy dDdx dDdy : float3 T) : RayDiff :=
  mkRayDiff dOdx dOdy dDdx dDdy.

(* interpolateDifferentials, float3 overload *)
Definition interpolateDifferentials (dBarydx dBarydy : float2 T)
    (vertexValues : array3 (float3 T)) : float3 T * float3 T :=
  let delta1 := sub3 (elt1 vertexValues) (elt0 vertexValues) in
  let delta2 := sub3 (elt2 vertexValues) (elt0 vertexValues) in
  (add3 (lscale3 (x2 dBarydx) delta1) (lscale3 (y2 dBarydx) delta2),
   add3 (lscale3 (x2 dBarydy) delta1) (lscale3 (y2 dBarydy) delta2)).

Definition computeNormalDifferentials (rayDiff : RayDiff)
    (nonNormalizedInterpolatedNormalW : float3 T)
    (dBarydx dBarydy : float2 T) (normals : array3 (float3 T))
    : float3 T * float3 T :=
  let NN := dot3 nonNormalizedInterpolatedNormalW
                 nonNormalizedInterpolatedNormalW in
  let rcpNN := lit 1 / (NN * fsqrt NN) in
  let '(dndx, dndy) := interpolateDifferentials dBarydx dBarydy normals in
  (scale3 (sub3 (scale3 dndx NN)
                (scale3 nonNormalizedInterpolatedNormalW
                        (dot3 nonNormalizedInterpolatedNormalW dndx)))
          rcpNN,
   scale3 (sub3 (scale3 dndy NN)
                (scale3 nonNormalizedInterpolatedNormalW
                        (dot3 nonNormalizedInterpolatedNormalW dndy)))
          rcpNN).

(* computeRayDifferentialRefraction, the overload taking NdotD, NdotDprime
   and mu; the inout rayDiff is returned *)
Definition computeRayDifferentialRefraction (rayDiff : RayDiff)
    (rayDir nonNormalizedInterpolatedNormalW normalizedInterpolatedNormalW
       : float3 T)
    (dBarydx dBarydy : float2 T) (normalsW : array3 (float3 T))
    (eta : T) (refractedDir : float3 T) (NdotD NdotDprime mu : T)
    : RayDiff :=
  let '(dNdx, dNdy) :=
    computeNormalDifferentials rayDiff nonNormalizedInterpolatedNormalW
      dBarydx dBarydy normalsW in
  let dDNdx :=
    dot3 (dDdx rayDiff) normalizedInterpolatedNormalW + dot3 rayDir dNdx in
  let dDNdy :=
    dot3 (dDdy rayDiff) normalizedInterpolatedNormalW + dot3 rayDir dNdy in
  let dMudx := eta * (lit 1 + eta * NdotD / NdotDprime) * dDNdx in
  let dMudy := eta * (lit 1 + eta * NdotD / NdotDprime) * dDNdy in
  let dOdx' := dOdx rayDiff in
  let dOdy' := dOdy rayDiff in
  let dDdx' :=
    sub3 (lscale3 eta (dDdx rayDiff))
         (add3 (lscale3 mu dNdx)
               (lscale3 dMudx normalizedInterpolatedNormalW)) in
  let dDdy' :=
    sub3 (lscale3 eta (dDdy rayDiff))
         (add3 (lscale3 mu dNdy)
               (lscale3 dMudy normalizedInterpolatedNormalW)) in
  RayDiff_make dOdx' dOdy' dDdx' dDdy'.

(* Returns the success flag, the inout rayDiff and the out refractedDir. *)
Definition refractRayDifferential (rayDiff : RayDiff)
    (rayDir nonNormalizedInterpolatedNormalW normalizedInterpolatedNormalW
       : float3 T)
    (dBarydx dBarydy : float2 T) (normalsW : array3 (float3 T)) (eta : T)
    : bool * RayDiff * float3 T :=
  let NdotD := dot3 normalizedInterpolatedNormalW rayDir in
  let k := eta * eta * (lit 1 - NdotD * NdotD) in
  if k >? lit 1 then (false, rayDiff, mkFloat3 (lit 0) (lit 0) (lit 0))
  else
    let NdotDprime := fsqrt (lit 1 - k) in
    let mu := eta * NdotD + NdotDprime in
    let refractedDir :=
      sub3 (lscale3 eta rayDir) (lscale3 mu normalizedInterpolatedNormalW) in
    (true,
     computeRayDifferentialRefraction rayDiff rayDir
       nonNormalizedInterpolatedNormalW normalizedInterpolatedNormalW
       dBarydx dBarydy normalsW eta refractedDir NdotD NdotDprime mu,
     refractedDir).
End RayDifferentials.

Arguments RayDiff T : clear implicits.

(** ** Curvature estimation helpers *)

(* Generic interface for the triangle curvature estimators. *)
Class ITriangleCurvatureEstimator (T E : Type) := {
  eval : E -> float3 T -> float3 T -> float3 T -> T -> T -> T -> T
}.

Section CurvatureEstimators.
Context {T : Type} `{Arith T}.
Local Open Scope fp_scope.

Inductive TriangleCurvature_Average := Build_TriangleCurvature_Average.
Inductive TriangleCurvature_Max := Build_TriangleCurvature_Max.
Record TriangleCurvature_DirClosestDP :=
  { DirClosestDP_rayDir : float3 T }.

Definition TriangleCurvature_Average_eval (self : TriangleCurvature_Average)
    (edge01 edge02 edge12 : float3 T)
    (curvature01 curvature02 curvature12 : T) : T :=
  (curvature01 + curvature02 + curvature12) / lit 3.

Definition TriangleCurvature_Max_eval (self : TriangleCurvature_Max)
    (edge01 edge02 edge12 : float3 T)
    (curvature01 curvature02 curvature12 : T) : T :=
  let minCurvature := fmin curvature01 (fmin curvature02 curvature12) in
  let maxCurvature := fmax curvature01 (fmax curvature02 curvature12) in
  if maxCurvature >? fabs minCurvature then maxCurvature else minCurvature.

Definition TriangleCurvature_DirClosestDP_eval
    (self : TriangleCurvature_DirClosestDP)
    (edge01 edge02 edge12 : float3 T)
    (curvature01 curvature02 curvature12 : T) : T :=
  let rayDir := DirClosestDP_rayDir self in
  let d01 := fabs (dot3 rayDir (normalize3 edge01)) in
  let d02 := fabs (dot3 rayDir (normalize3 edge02)) in
  let d12 := fabs (dot3 rayDir (normalize3 edge12)) in
  if d01 <? d02 then
    if d01 <? d12
    then (curvature02 * d02 + curvature12 * d12) / (d02 + d12)
    else (curvature01 * d01 + curvature02 * d02) / (d01 + d02)
  else
    if d02 <? d12
    then (curvature01 * d01 + curvature12 * d12) / (d01 + d12)
    else (curvature01 * d01 + curvature02 * d02) / (d01 + d02).

Record TriangleCurvature_EllipseVis := {
  EllipseVis_rayDir : float3 T;
  EllipseVis_rayConeWidth : T;
  EllipseVis_rayConeAngle : T
}.

Definition TriangleCurvature_EllipseVis_eval
    (self : TriangleCurvature_EllipseVis)
    (edge01 edge02 edge12 : float3 T)
    (curvature01 curvature02 curvature12 : T) : T :=
  let rayDir := EllipseVis_rayDir self in
  let rayConeWidth := EllipseVis_rayConeWidth self in
  let rayConeAngle := EllipseVis_rayConeAngle self in
  let minCurvature := fmin curvature01 (fmin curvature02 curvature12) in
  let maxCurvature := fmax curvature01 (fmax curvature02 curvature12) in
  (* Compute ellipse fron raydir. *)
  let geoNormal := normalize3 (cross edge01 edge02) in
  let a1 := sub3 rayDir (scale3 geoNormal (dot3 geoNormal rayDir)) in
  let a2 := cross geoNormal a1 in
  (* Correct length of ellipse axes (from paper). *)
  let r := rayConeWidth * lit 0.5 in
  let a1 :=
    scale3 a1 (r / length3 (sub3 a1 (lscale3 (dot3 rayDir a1) rayDir))) in
  let a2 :=
    scale3 a2 (r / length3 (sub3 a2 (lscale3 (dot3 rayDir a2) rayDir))) in
  let l1 := length3 a1 in
  let l2 := length3 a2 in
  (* Find min/max k edges. *)
  let minEdge :=
    if curvature01 ==? minCurvature then edge01
    else if curvature02 ==? minCurvature then edge02
    else edge12 in
  let maxEdge :=
    if curvature01 ==? maxCurvature then edge01
    else if curvature02 ==? maxCurvature then edge02
    else edge12 in
  (* Transform WS triangle edges to tangent space: the xy part of
     mul(float3x3(a1 / l1, a2 / l2, geoNormal), edge). *)
  let row0 := divs3 a1 l1 in
  let row1 := divs3 a2 l2 in
  let edge0TS := mkFloat2 (dot3 row0 minEdge) (dot3 row1 minEdge) in
  let edge1TS := mkFloat2 (dot3 row0 maxEdge) (dot3 row1 maxEdge) in
  (* Normalize edges in TS. *)
  let edge0TS := normalize2 edge0TS in
  let edge1TS := normalize2 edge1TS in
  let ellipseEq := mkFloat2 l1 l2 in
  (* Distance of the intersection of the edge vectors with the ellipse. *)
  let aaE0 :=
    (x2 ellipseEq * y2 ellipseEq)
      / fsqrt (x2 ellipseEq * x2 ellipseEq * y2 edge0TS * y2 edge0TS
               + y2 ellipseEq * y2 ellipseEq * x2 edge0TS * x2 edge0TS) in
  let aaE1 :=
    (x2 ellipseEq * y2 ellipseEq)
      / fsqrt (x2 ellipseEq * x2 ellipseEq * y2 edge1TS * y2 edge1TS
               + y2 ellipseEq * y2 ellipseEq * x2 edge1TS * x2 edge1TS) in
  let maxA := fmax aaE0 aaE1 in
  (* Scale by clipped length and normalize by max. *)
  let k0 := minCurvature * aaE0 / maxA in
  let k1 := maxCurvature * aaE1 / maxA in
  (* Enforce that curvature generating largest spread will be used. *)
  let dn := - dot3 rayDir geoNormal in
  let dn := if fabs dn <? lit 1.0e-5 then fsign dn * lit 1.0e-5 else dn in
  let surfaceSpreadAngle0 := (k0 * rayConeWidth / dn) * lit 2 in
  let surfaceSpreadAngle1 := (k1 * rayConeWidth / dn) * lit 2 in
  if fabs (rayConeAngle + surfaceSpreadAngle0)
       >? fabs (rayConeAngle + surfaceSpreadAngle1)
  then k0 else k1.

Inductive TriangleCurvature_Zero := Build_TriangleCurvature_Zero.

Definition TriangleCurvature_Zero_eval (self : TriangleCurvature_Zero)
    (edge01 edge02 edge12 : float3 T)
    (curvature01 curvature02 curvature12 : T) : T :=
  lit 0.

#[export] Instance Average_estimator
  : ITriangleCurvatureEstimator T TriangleCurvature_Average :=
  {| eval := TriangleCurvature_Average_eval |}.
#[export] Instance Max_estimator
  : ITriangleCurvatureEstimator T TriangleCurvature_Max :=
  {| eval := TriangleCurvature_Max_eval |}.
#[export] Instance DirClosestDP_estimator
  : ITriangleCurvatureEstimator T TriangleCurvature_DirClosestDP :=
  {| eval := TriangleCurvature_DirClosestDP_eval |}.
#[export] Instance EllipseVis_estimator
  : ITriangleCurvatureEstimator T TriangleCurvature_EllipseVis :=
  {| eval := TriangleCurvature_EllipseVis_eval |}.
#[export] Instance Zero_estimator
  : ITriangleCurvatureEstimator T TriangleCurvature_Zero :=
  {| eval := TriangleCurvature_Zero_eval |}.
End CurvatureEstimators.

Arguments TriangleCurvature_DirClosestDP T : clear implicits.
Arguments TriangleCurvature_EllipseVis T : clear implicits.

Section CurvatureDirectional.
Context {T : Type} `{Arith T} `{Transc T}.
Local Open Scope fp_scope.

Record TriangleCurvature_Directional := { Directional_rayDir : float3 T }.

(* The branch selected by the preprocessor: interpolate using the 2 closest
   angles. *)
Definition TriangleCurvature_Directional_eval
    (self : TriangleCurvature_Directional)
    (edge01 edge02 edge12 : float3 T)
    (curvature01 curvature02 curvature12 : T) : T :=
  let usedDir := Directional_rayDir self in
  let a01 := facos (fabs (dot3 usedDir (normalize3 edge01))) in
  let a02 := facos (fabs (dot3 usedDir (normalize3 edge02))) in
  let a12 := facos (fabs (dot3 usedDir (normalize3 edge12))) in
  if a01 >? a02 then
    if a01 >? a12
    then (curvature02 * a12 + curvature12 * a02) / (a02 + a12)
    else (curvature01 * a02 + curvature02 * a01) / (a01 + a02)
  else
    if a02 >? a12
    then (curvature01 * a12 + curvature12 * a01) / (a01 + a12)
    else (curvature01 * a02 + curvature02 * a01) / (a01 + a02).

#[export] Instance Directional_estimator
  : ITriangleCurvatureEstimator T TriangleCurvature_Directional :=
  {| eval := TriangleCurvature_Directional_eval |}.
End CurvatureDirectional.

Arguments TriangleCurvature_Directional T : clear implicits.


(** ** Matrices and vertex records *)

Record float4 (T : Type) := mkFloat4 { x4 : T; y4 : T; z4 : T; w4 : T }.

(* A matrix is given by its rows. *)
Record float3x3 (T : Type) :=
  mkFloat3x3 { m3row0 : float3 T; m3row1 : float3 T; m3row2 : float3 T }.
Record float4x4 (T : Type) :=
  mkFloat4x4 { m4row0 : float4 T; m4row1 : float4 T;
               m4row2 : float4 T; m4row3 : float4 T }.

(* The fields of StaticVertexData and of VertexData (Scene/SceneTypes.hlsli)
   that the helpers read. *)
Record StaticVertexData (T : Type) :=
  mkStaticVertexData { position : float3 T; normal : float3 T; texCrd : float2 T }.
Record VertexData (T : Type) :=
  mkVertexData { faceNormalW : float3 T; normalW : float3 T }.

Section MatrixOps.
Context {T : Type} `{Arith T}.
Local Open Scope fp_scope.

(* a >= b: greater than, or equal; false when an operand is a NaN *)
Definition geb (a b : T) : bool := (a >? b) || (a ==? b).

Definition xyz (v : float4 T) : float3 T := mkFloat3 (x4 v) (y4 v) (z4 v).

(* (float3x3)m: the upper left 3x3 block *)
Definition float3x3_of_float4x4 (m : float4x4 T) : float3x3 T :=
  mkFloat3x3 (xyz (m4row0 m)) (xyz (m4row1 m)) (xyz (m4row2 m)).

(* mul(v, m) with a vector first argument: the row vector v times m *)
Definition mul_v3_m33 (v : float3 T) (m : float3x3 T) : float3 T :=
  mkFloat3
    (x3 v * x3 (m3row0 m) + y3 v * x3 (m3row1 m) + z3 v * x3 (m3row2 m))
    (x3 v * y3 (m3row0 m) + y3 v * y3 (m3row1 m) + z3 v * y3 (m3row2 m))
    (x3 v * z3 (m3row0 m) + y3 v * z3 (m3row1 m) + z3 v * z3 (m3row2 m)).

(* float3 indexed by 0, 1, 2 *)
Definition index3 (v : float3 T) : array3 T := mkArray3 (x3 v) (y3 v) (z3 v).
End MatrixOps.

(** ** The packed FP16 payload of a ray cone *)

(* uint arithmetic: 32 bits, wrapping *)
Definition uint (z : Z) : Z := z mod 2 ^ 32.

(* widthSpreadAngleFP16 = (f32tof16(width) << 16) | f32tof16(angle), on the
   two 16-bit patterns that f32tof16 returns *)
Definition widthSpreadAngleFP16_init (width16 angle16 : Z) : Z :=
  Z.lor (uint (Z.shiftl width16 16)) angle16.

(* The arguments that getWidth and getSpreadAngle give to f16tof32, which
   converts the low half of its argument. *)
Definition getWidth_bits (widthSpreadAngleFP16 : Z) : Z :=
  Z.land (Z.shiftr widthSpreadAngleFP16 16) 65535.
Definition getSpreadAngle_bits (widthSpreadAngleFP16 : Z) : Z :=
  Z.land widthSpreadAngleFP16 65535.

(** ** Ray cone helpers, continued *)

Section RayConeLOD.
Context {T : Type} `{Arith T} `{Transc T}.
Local Open Scope fp_scope.

(* computeLOD, the overload with the texture dimensions *)
Definition computeLOD_textureSize (c : RayCone T) (triLODConstant : T)
    (rayDir normal : float3 T) (textureWidth textureHeight : T)
    (moreDetailOnSlopes : bool) : T :=
  let lambda := triLODConstant in
  let filterWidth := getWidth c in
  let distTerm := fabs filterWidth in
  let normalTerm := fabs (dot3 rayDir normal) in
  let normalTerm := if moreDetailOnSlopes then fsqrt normalTerm else normalTerm in
  let lambda := lambda + lit 0.5 * flog2 (textureWidth * textureHeight) in
  let lambda := lambda + flog2 distTerm in
  let lambda := lambda - flog2 normalTerm in
  lambda.

Definition computeRayConeTriangleLODValue (vertices : array3 (float3 T))
    (txcoords : array3 (float2 T)) (worldMat : float3x3 T) : T :=
  let tx10 := sub2 (elt1 txcoords) (elt0 txcoords) in
  let tx20 := sub2 (elt2 txcoords) (elt0 txcoords) in
  let Ta := fabs (x2 tx10 * y2 tx20 - x2 tx20 * y2 tx10) in
  let edge01 := mul_v3_m33 (sub3 (elt1 vertices) (elt0 vertices)) worldMat in
  let edge02 := mul_v3_m33 (sub3 (elt2 vertices) (elt0 vertices)) worldMat in
  let triangleNormal := cross edge01 edge02 in
  let Pa := length3 triangleNormal in
  lit 0.5 * flog2 (Ta / Pa).

(* computeRayConeTriangleLODValue, the overload taking the vertex records *)
Definition computeRayConeTriangleLODValue_vertexData
    (triangleVertices : array3 (StaticVertexData T)) (worldMat : float3x3 T)
    : T :=
  let txcoords :=
    mkArray3 (texCrd (elt0 triangleVertices)) (texCrd (elt1 triangleVertices))
             (texCrd (elt2 triangleVertices)) in
  let positions :=
    mkArray3 (position (elt0 triangleVertices))
             (position (elt1 triangleVertices))
             (position (elt2 triangleVertices)) in
  computeRayConeTriangleLODValue positions txcoords worldMat.

(* computeScreenSpaceSurfaceSpreadAngle, the overload taking the normal
   differentials *)
Definition computeScreenSpaceSurfaceSpreadAngle
    (rightVector upVector dNdx dNdy : float3 T) : T :=
  let betaX := fatan (length3 dNdx) in
  let betaY := fatan (length3 dNdy) in
  let betaCurvature :=
    fsqrt (betaX * betaX + betaY * betaY)
    * (if geb betaX betaY then fsign (dot3 rightVector dNdx)
       else fsign (dot3 upVector dNdy)) in
  betaCurvature.

(* computeEnvironmentMapLOD for ray cones; [txh] is the height that
   GetDimensions returns, converted to float, and [M_1_PI] the constant of
   Utils/Math/MathConstants.hlsli *)
Definition computeEnvironmentMapLOD (M_1_PI : T) (spreadAngle txh : T) : T :=
  flog2 (fabs spreadAngle * txh * M_1_PI).

(* computeEnvironmentMapLOD for ray differentials *)
Definition computeEnvironmentMapLOD_rayDiff (M_1_PI : T)
    (dDdx dDdy : float3 T) (txh : T) : T :=
  flog2 (length3 (add3 dDdx dDdy) * txh * M_1_PI).
End RayConeLOD.

(** ** Ray differentials helpers, continued *)

Section RayDifferentialsScatter.
Context {T : Type} `{Arith T}.
Local Open Scope fp_scope.

Definition propagate (rayDiff : RayDiff T) (O D : float3 T) (t : T)
    (N : float3 T) : RayDiff T :=
  let dodx := add3 (dOdx rayDiff) (lscale3 t (dDdx rayDiff)) in
  let dody := add3 (dOdy rayDiff) (lscale3 t (dDdy rayDiff)) in
  let rcpDN := lit 1 / dot3 D N in
  let dtdx := - dot3 dodx N * rcpDN in
  let dtdy := - dot3 dody N * rcpDN in
  let dodx := add3 dodx (scale3 D dtdx) in
  let dody := add3 dody (scale3 D dtdy) in
  RayDiff_make dodx dody (dDdx rayDiff) (dDdy rayDiff).

(* Returns the out parameters dDdx and dDdy. *)
Definition computeRayDirectionDifferentials
    (nonNormalizedCameraRaydir cameraRight cameraUp : float3 T)
    (viewportDims : float2 T) : float3 T * float3 T :=
  let dd := dot3 nonNormalizedCameraRaydir nonNormalizedCameraRaydir in
  let divd := lit 2 / (dd * fsqrt dd) in
  let dr := dot3 nonNormalizedCameraRaydir cameraRight in
  let du := dot3 nonNormalizedCameraRaydir cameraUp in
  (divs3 (scale3 (sub3 (lscale3 dd cameraRight)
                       (lscale3 dr nonNormalizedCameraRaydir)) divd)
         (x2 viewportDims),
   divs3 (scale3 (neg3 (sub3 (lscale3 dd cameraUp)
                             (lscale3 du nonNormalizedCameraRaydir))) divd)
         (y2 viewportDims)).

(* Returns the out parameters dBarydx and dBarydy. *)
Definition computeBarycentricDifferentials (rayDiff : RayDiff T)
    (rayDir edge01 edge02 faceNormalW : float3 T) : float2 T * float2 T :=
  let Nu := cross edge02 faceNormalW in
  let Nv := cross edge01 faceNormalW in
  let Lu := divs3 Nu (dot3 Nu edge01) in
  let Lv := divs3 Nv (dot3 Nv edge02) in
  (mkFloat2 (dot3 Lu (dOdx rayDiff)) (dot3 Lv (dOdx rayDiff)),
   mkFloat2 (dot3 Lu (dOdy rayDiff)) (dot3 Lv (dOdy rayDiff))).

(* interpolateDifferentials, float overload *)
Definition interpolateDifferentials_float (dBarydx dBarydy : float2 T)
    (vertexValues : array3 T) : T * T :=
  let delta1 := elt1 vertexValues - elt0 vertexValues in
  let delta2 := elt2 vertexValues - elt0 vertexValues in
  (x2 dBarydx * delta1 + y2 dBarydx * delta2,
   x2 dBarydy * delta1 + y2 dBarydy * delta2).

(* interpolateDifferentials, float2 overload *)
Definition interpolateDifferentials_float2 (dBarydx dBarydy : float2 T)
    (vertexValues : array3 (float2 T)) : float2 T * float2 T :=
  let delta1 := sub2 (elt1 vertexValues) (elt0 vertexValues) in
  let delta2 := sub2 (elt2 vertexValues) (elt0 vertexValues) in
  (add2 (lscale2 (x2 dBarydx) delta1) (lscale2 (y2 dBarydx) delta2),
   add2 (lscale2 (x2 dBarydy) delta1) (lscale2 (y2 dBarydy) delta2)).

(* The inout rayDiff is returned. *)
Definition reflectRayDifferential (rayDiff : RayDiff T)
    (rayDir nonNormalizedInterpolatedNormalW normalizedInterpolatedNormalW
       : float3 T)
    (dBarydx dBarydy : float2 T) (normalsW : array3 (float3 T))
    : RayDiff T :=
  let '(dNdx, dNdy) :=
    computeNormalDifferentials rayDiff nonNormalizedInterpolatedNormalW
      dBarydx dBarydy normalsW in
  let dDNdx :=
    dot3 (dDdx rayDiff) normalizedInterpolatedNormalW + dot3 rayDir dNdx in
  let dDNdy :=
    dot3 (dDdy rayDiff) normalizedInterpolatedNormalW + dot3 rayDir dNdy in
  let DN := dot3 rayDir normalizedInterpolatedNormalW in
  let dOdx' := dOdx rayDiff in
  let dOdy' := dOdy rayDiff in
  let dDdx' :=
    sub3 (dDdx rayDiff)
         (lscale3 (lit 2)
            (add3 (scale3 dNdx DN)
                  (scale3 normalizedInterpolatedNormalW dDNdx))) in
  let dDdy' :=
    sub3 (dDdy rayDiff)
         (lscale3 (lit 2)
            (add3 (scale3 dNdy DN)
                  (scale3 normalizedInterpolatedNormalW dDNdy))) in
  RayDiff_make dOdx' dOdy' dDdx' dDdy'.

(* computeRayDifferentialRefraction, the overload taking only the refracted
   direction; the inout rayDiff is returned *)
Definition computeRayDifferentialRefraction_refractedDir (rayDiff : RayDiff T)
    (rayDir nonNormalizedInterpolatedNormalW normalizedInterpolatedNormalW
       : float3 T)
    (dBarydx dBarydy : float2 T) (normalsW : array3 (float3 T))
    (eta : T) (refractedDir : float3 T) : RayDiff T :=
  let NdotD := dot3 normalizedInterpolatedNormalW rayDir in
  let k := eta * eta * (lit 1 - NdotD * NdotD) in
  let NdotDprime := fsqrt (lit 1 - k) in
  let mu := eta * NdotD + NdotDprime in
  computeRayDifferentialRefraction rayDiff rayDir
    nonNormalizedInterpolatedNormalW normalizedInterpolatedNormalW
    dBarydx dBarydy normalsW eta refractedDir NdotD NdotDprime mu.

(* The out parameters of prepareVerticesForRayDiffs. *)
Record PreparedVertices := mkPreparedVertices {
  pv_edge01 : float3 T;
  pv_edge02 : float3 T;
  pv_normals : array3 (float3 T);
  pv_unnormalizedN : float3 T;
  pv_txcoords : array3 (float2 T)
}.

Definition prepareVerticesForRayDiffs (rayDir : float3 T)
    (vertices : array3 (StaticVertexData T)) (worldMat : float4x4 T)
    (worldInvTransposeMat : float3x3 T) (barycentrics : float3 T)
    : PreparedVertices :=
  (* Transform relevant data to world space. *)
  let edge01 :=
    mul_v3_m33 (sub3 (position (elt1 vertices)) (position (elt0 vertices)))
               (float3x3_of_float4x4 worldMat) in
  let edge02 :=
    mul_v3_m33 (sub3 (position (elt2 vertices)) (position (elt0 vertices)))
               (float3x3_of_float4x4 worldMat) in
  let normals0 := mul_v3_m33 (normal (elt0 vertices)) worldInvTransposeMat in
  let normals1 := mul_v3_m33 (normal (elt1 vertices)) worldInvTransposeMat in
  let normals2 := mul_v3_m33 (normal (elt2 vertices)) worldInvTransposeMat in
  let unnormalizedN := scale3 normals0 (elt0 (index3 barycentrics)) in
  let unnormalizedN :=
    add3 unnormalizedN (scale3 normals1 (elt1 (index3 barycentrics))) in
  let unnormalizedN :=
    add3 unnormalizedN (scale3 normals2 (elt2 (index3 barycentrics))) in
  let txcoords :=
    mkArray3 (texCrd (elt0 vertices)) (texCrd (elt1 vertices))
             (texCrd (elt2 vertices)) in
  if dot3 unnormalizedN rayDir >? lit 0 then
    mkPreparedVertices edge01 edge02
      (mkArray3 (neg3 normals0) (neg3 normals1) (neg3 normals2))
      (neg3 unnormalizedN) txcoords
  else
    mkPreparedVertices edge01 edge02 (mkArray3 normals0 normals1 normals2)
      unnormalizedN txcoords.

(* The out parameters of prepareRayDiffAtHitPoint. *)
Record PreparedRayDiff := mkPreparedRayDiff {
  pr_unnormalizedN : float3 T;
  pr_normals : array3 (float3 T);
  pr_dBarydx : float2 T;
  pr_dBarydy : float2 T;
  pr_dUVdx : float2 T;
  pr_dUVdy : float2 T
}.

Definition prepareRayDiffAtHitPoint (v : VertexData T)
    (triangleVertices : array3 (StaticVertexData T))
    (barycentrics rayDir : float3 T) (worldMat : float4x4 T)
    (worldInvTransposeMat : float3x3 T) (rayDiff : RayDiff T)
    : PreparedRayDiff :=
  let pv :=
    prepareVerticesForRayDiffs rayDir triangleVertices worldMat
      worldInvTransposeMat barycentrics in
  let '(dBarydx, dBarydy) :=
    computeBarycentricDifferentials rayDiff rayDir (pv_edge01 pv)
      (pv_edge02 pv) (faceNormalW v) in
  let '(dUVdx, dUVdy) :=
    interpolateDifferentials_float2 dBarydx dBarydy (pv_txcoords pv) in
  mkPreparedRayDiff (pv_unnormalizedN pv) (pv_normals pv) dBarydx dBarydy
    dUVdx dUVdy.

(* Returns the inout rayDiff and the out parameters dUVdx and dUVdy. *)
Definition refractRayDiffUsingVertexData (v : VertexData T)
    (triangleVertices : array3 (StaticVertexData T))
    (barycentrics rayDir refractedDir : float3 T) (eta : T)
    (worldMat : float4x4 T) (worldInvTransposeMat : float3x3 T)
    (rayDiff : RayDiff T) : RayDiff T * float2 T * float2 T :=
  let pr :=
    prepareRayDiffAtHitPoint v triangleVertices barycentrics rayDir worldMat
      worldInvTransposeMat rayDiff in
  (computeRayDifferentialRefraction_refractedDir rayDiff rayDir
     (pr_unnormalizedN pr) (normalize3 (pr_unnormalizedN pr))
     (pr_dBarydx pr) (pr_dBarydy pr) (pr_normals pr) eta refractedDir,
   pr_dUVdx pr, pr_dUVdy pr).

(* Returns the inout rayDiff and the out parameters dUVdx and dUVdy. *)
Definition reflectRayDiffUsingVertexData (v : VertexData T)
    (triangleVertices : array3 (StaticVertexData T))
    (barycentrics rayDir : float3 T)
    (worldMat : float4x4 T) (worldInvTransposeMat : float3x3 T)
    (rayDiff : RayDiff T) : RayDiff T * float2 T * float2 T :=
  let pr :=
    prepareRayDiffAtHitPoint v triangleVertices barycentrics rayDir worldMat
      worldInvTransposeMat rayDiff in
  (reflectRayDifferential rayDiff rayDir (pr_unnormalizedN pr) (normalW v)
     (pr_dBarydx pr) (pr_dBarydy pr) (pr_normals pr),
   pr_dUVdx pr, pr_dUVdy pr).
End RayDifferentialsScatter.

Arguments PreparedVertices T : clear implicits.
Arguments PreparedRayDiff T : clear implicits.


(** ** Color utilities (ToneMapper/ColorUtils.h) *)

Section ColorUtils.
(* float and double, with the conversions between them *)
Context {F D : Type} {AF : Arith F} {AD : Arith D}.
Variable toDouble : F -> D.
Variable toFloat : D -> F.
Local Open Scope fp_scope.

(* Converts (chromaticities, luminance) to XYZ color. *)
Definition xyYtoXYZ (x y Y : F) : float3 F :=
  mkFloat3 (x * Y / y) Y ((lit 1 - x - y) * Y / y).

(* Transforms color temperature of a blackbody emitter to color in CIE XYZ;
   the default luminance is Y = 1. *)
Definition colorTemperatureToXYZ (T Y : F) : float3 F :=
  if (T <? lit 1667) || (T >? lit 25000) then
    mkFloat3 (lit 0) (lit 0) (lit 0)
  else
    (* We do the computations in double *)
    let t : D := toDouble T in
    let t2 := t * t in
    let t3 := t * t * t in
    let xc :=
      if T <? lit 4000 then
        - lit 0.2661239e9 / t3 - lit 0.2343580e6 / t2 + lit 0.8776956e3 / t
        + lit 0.179910
      else
        - lit 3.0258469e9 / t3 + lit 2.1070379e6 / t2 + lit 0.2226347e3 / t
        + lit 0.240390 in
    let x := xc in
    let xx2 := x * x in
    let xx3 := x * x * x in
    let yc :=
      if T <? lit 2222 then
        - lit 1.1063814 * xx3 - lit 1.34811020 * xx2 + lit 2.18555832 * x
        - lit 0.20219683
      else if T <? lit 4000 then
        - lit 0.9549476 * xx3 - lit 1.37418593 * xx2 + lit 2.09137015 * x
        - lit 0.16748867
      else
        lit 3.0817580 * xx3 - lit 5.87338670 * xx2 + lit 3.75112997 * x
        - lit 0.37001483 in
    (* Return as XYZ color. *)
    xyYtoXYZ (toFloat xc) (toFloat yc) Y.
End ColorUtils.


(** ** Vocabulary of the statements *)

(* Finite scalars and vectors of the exact model. *)
Definition fin (a : R) : xreal := Some a.
Definition fin2 (v : float2 R) : float2 xreal :=
  mkFloat2 (fin (x2 v)) (fin (y2 v)).
Definition fin3 (v : float3 R) : float3 xreal :=
  mkFloat3 (fin (x3 v)) (fin (y3 v)) (fin (z3 v)).

Definition Rdot3 (a b : float3 R) : R :=
  (x3 a * x3 b + y3 a * y3 b + z3 a * z3 b)%R.
Definition Rcross (a b : float3 R) : float3 R :=
  mkFloat3 (y3 a * z3 b - z3 a * y3 b)%R
           (z3 a * x3 b - x3 a * z3 b)%R
           (x3 a * y3 b - y3 a * x3 b)%R.
Definition Rscale2 (s : R) (v : float2 R) : float2 R :=
  mkFloat2 (s * x2 v)%R (s * y2 v)%R.

(* A cone of the exact model with finite width and spread angle. *)
Definition finCone (width angle : R) : RayCone xreal :=
  mkRayCone (T := xreal) (fin width) (fin angle).

(* The value of a finite scalar; 0 stands in for the invalid value and is
   never relied upon where a statement also asserts finiteness. *)
Definition xval (x : xreal) : R :=
  match x with Some a => a | None => 0%R end.

Definition isFinite2 (v : float2 xreal) : Prop := exists a, v = fin2 a.

(* Order on results: both finite and ordered. *)
Definition xle (x y : xreal) : Prop :=
  match x, y with Some a, Some b => (a <= b)%R | _, _ => False end.

(* binary32 vectors with small integer coordinates *)
Definition b32_vec3 (a b c : Z) : float3 binary32 :=
  mkFloat3 (b32_of_Z a) (b32_of_Z b) (b32_of_Z c).
Definition b32_vec2 (a b : Z) : float2 binary32 :=
  mkFloat2 (b32_of_Z a) (b32_of_Z b).

(* Real vectors. *)
Definition Radd3 (a b : float3 R) : float3 R :=
  mkFloat3 (x3 a + x3 b)%R (y3 a + y3 b)%R (z3 a + z3 b)%R.
Definition Rsub3 (a b : float3 R) : float3 R :=
  mkFloat3 (x3 a - x3 b)%R (y3 a - y3 b)%R (z3 a - z3 b)%R.
Definition Rscale3 (a : float3 R) (s : R) : float3 R :=
  mkFloat3 (x3 a * s)%R (y3 a * s)%R (z3 a * s)%R.
Definition Rlscale3 (s : R) (a : float3 R) : float3 R :=
  mkFloat3 (s * x3 a)%R (s * y3 a)%R (s * z3 a)%R.
Definition Rdivs3 (a : float3 R) (s : R) : float3 R :=
  mkFloat3 (x3 a / s)%R (y3 a / s)%R (z3 a / s)%R.
Definition Rlength3 (a : float3 R) : R := sqrt (Rdot3 a a).
Definition Radd2 (a b : float2 R) : float2 R :=
  mkFloat2 (x2 a + x2 b)%R (y2 a + y2 b)%R.
Definition Rsub2 (a b : float2 R) : float2 R :=
  mkFloat2 (x2 a - x2 b)%R (y2 a - y2 b)%R.

(* The intermediate values of computeAnisotropicEllipseAxes on finite inputs:
   the two scaled ellipse axes, the projection whose length scales the second
   axis, the denominator derived from the triangle, and the texture gradient
   obtained from an axis. *)
Definition ellipseAxis0R (faceNormal rayConeDir : float3 R) (radius : R)
    : float3 R :=
  let e0 := Rsub3 rayConeDir (Rlscale3 (Rdot3 faceNormal rayConeDir) faceNormal) in
  let p0 := Rsub3 e0 (Rlscale3 (Rdot3 rayConeDir e0) rayConeDir) in
  Rscale3 e0 (radius / Rmax (1 / 10000) (Rlength3 p0)).

Definition rayDirPlaneProjection1R (faceNormal rayConeDir : float3 R)
    (radius : R) : float3 R :=
  let e1 := Rcross faceNormal (ellipseAxis0R faceNormal rayConeDir radius) in
  Rsub3 e1 (Rlscale3 (Rdot3 rayConeDir e1) rayConeDir).

Definition ellipseAxis1R (faceNormal rayConeDir : float3 R) (radius : R)
    : float3 R :=
  Rscale3 (Rcross faceNormal (ellipseAxis0R faceNormal rayConeDir radius))
    (radius / Rmax (1 / 10000)
                (Rlength3 (rayDirPlaneProjection1R faceNormal rayConeDir radius))).

Definition triangleDenominator (faceNormal : float3 R)
    (positions : array3 (float3 R)) : R :=
  Rdot3 faceNormal
    (Rcross (Rsub3 (elt1 positions) (elt0 positions))
            (Rsub3 (elt2 positions) (elt0 positions))).

(* Texture coordinates interpolated at [point + offset] with the barycentrics
   the function computes. *)
Definition interpolateAt (faceNormal : float3 R) (positions : array3 (float3 R))
    (txcoords : array3 (float2 R)) (point offset : float3 R) : float2 R :=
  let d := Rsub3 point (elt0 positions) in
  let edge01 := Rsub3 (elt1 positions) (elt0 positions) in
  let edge02 := Rsub3 (elt2 positions) (elt0 positions) in
  let oneOverAreaTriangle := (1 / Rdot3 faceNormal (Rcross edge01 edge02))%R in
  let edgeP := Radd3 d offset in
  let u := (Rdot3 faceNormal (Rcross edgeP edge02) * oneOverAreaTriangle)%R in
  let v := (Rdot3 faceNormal (Rcross edge01 edgeP) * oneOverAreaTriangle)%R in
  Radd2 (Radd2 (Rscale2 (1 - u - v) (elt0 txcoords))
               (Rscale2 u (elt1 txcoords)))
        (Rscale2 v (elt2 txcoords)).

Definition zeroR3 : float3 R := mkFloat3 0%R 0%R 0%R.

Definition finArray3 (a : array3 (float3 R)) : array3 (float3 xreal) :=
  mkArray3 (fin3 (elt0 a)) (fin3 (elt1 a)) (fin3 (elt2 a)).
Definition finArray2 (a : array3 (float2 R)) : array3 (float2 xreal) :=
  mkArray3 (fin2 (elt0 a)) (fin2 (elt1 a)) (fin2 (elt2 a)).

Definition nan2 : float2 xreal := mkFloat2 None None.

(* |dot(rayDir, normalize(edge))| on finite vectors *)
Definition edgeCosine (rayDir edge : float3 R) : R :=
  Rabs (Rdot3 rayDir (Rdivs3 edge (Rlength3 edge))).

(* The clamped denominator of computeSpreadAngleFromCurvatureIso on finite
   vectors. *)
Definition clampedDnR (rayDir normal : float3 R) : R :=
  let dn := (- Rdot3 rayDir normal)%R in
  if Rlt_dec (Rabs dn) (1 / 100000) then (Rsign dn * (1 / 100000))%R else dn.

(* The spread angle of a formulation as a real function of the curvature and
   of the cone width. *)
Definition spreadAngleValue (mode : SpreadAngleMode)
    (rayDir normal : float3 R) (curvature rayConeWidth : R) : R :=
  xval (computeSpreadAngleFromCurvatureIso_mode mode (fin curvature)
          (fin rayConeWidth) (fin3 rayDir) (fin3 normal)).

(* A ray differential of the exact model with finite components. *)
Definition finRayDiff (dOdx dOdy dDdx dDdy : float3 R) : RayDiff xreal :=
  mkRayDiff (fin3 dOdx) (fin3 dOdy) (fin3 dDdx) (fin3 dDdy).

(* The bounding directions of the incident cone in the 2D frame of
   computeRayConeForRefraction, for a unit rayDir and a unit normal: the
   incident direction (sqrt(1 - c^2), c), c = dot(normal, rayDir), rotated by
   plus and minus half the spread angle.  A bounding ray reaches the surface
   (the line y = 0) when its y component is negative. *)
Definition boundingDirections (rayDir normal : float3 R) (spreadAngle : R)
    : float2 R * float2 R :=
  let c := Rdot3 normal rayDir in
  let s := sqrt (1 - c * c) in
  let alpha := (spreadAngle / 2)%R in
  (mkFloat2 (cos alpha * s - sin alpha * c)%R (sin alpha * s + cos alpha * c)%R,
   mkFloat2 (cos alpha * s + sin alpha * c)%R (- (sin alpha * s) + cos alpha * c)%R).

(* Real matrices and the row vector times matrix product. *)
Definition finMat3 (m : float3x3 R) : float3x3 xreal :=
  mkFloat3x3 (fin3 (m3row0 m)) (fin3 (m3row1 m)) (fin3 (m3row2 m)).
Definition Rmul_v3_m33 (v : float3 R) (m : float3x3 R) : float3 R :=
  mkFloat3
    (x3 v * x3 (m3row0 m) + y3 v * x3 (m3row1 m) + z3 v * x3 (m3row2 m))%R
    (x3 v * y3 (m3row0 m) + y3 v * y3 (m3row1 m) + z3 v * y3 (m3row2 m))%R
    (x3 v * z3 (m3row0 m) + y3 v * z3 (m3row1 m) + z3 v * z3 (m3row2 m))%R.
Definition Rscale_m33 (s : R) (m : float3x3 R) : float3x3 R :=
  mkFloat3x3 (Rlscale3 s (m3row0 m)) (Rlscale3 s (m3row1 m))
             (Rlscale3 s (m3row2 m)).

(* The two areas of computeRayConeTriangleLODValue on finite inputs: twice
   the area of the triangle in texture space and in world space. *)
Definition texArea2 (txcoords : array3 (float2 R)) : R :=
  let tx10 := Rsub2 (elt1 txcoords) (elt0 txcoords) in
  let tx20 := Rsub2 (elt2 txcoords) (elt0 txcoords) in
  Rabs (x2 tx10 * y2 tx20 - x2 tx20 * y2 tx10).
Definition worldArea2 (vertices : array3 (float3 R)) (worldMat : float3x3 R)
    : R :=
  Rlength3
    (Rcross (Rmul_v3_m33 (Rsub3 (elt1 vertices) (elt0 vertices)) worldMat)
            (Rmul_v3_m33 (Rsub3 (elt2 vertices) (elt0 vertices)) worldMat)).

(* A triangle moved by an offset, with its second and third vertex exchanged,
   and texture coordinates moved by an offset or scaled. *)
Definition translate3 (o : float3 R) (a : array3 (float3 R))
    : array3 (float3 R) :=
  mkArray3 (Radd3 (elt0 a) o) (Radd3 (elt1 a) o) (Radd3 (elt2 a) o).
Definition translate2 (o : float2 R) (a : array3 (float2 R))
    : array3 (float2 R) :=
  mkArray3 (Radd2 (elt0 a) o) (Radd2 (elt1 a) o) (Radd2 (elt2 a) o).
Definition swap12 {A : Type} (a : array3 A) : array3 A :=
  mkArray3 (elt0 a) (elt2 a) (elt1 a).
Definition scaleArray2 (k : R) (a : array3 (float2 R)) : array3 (float2 R) :=
  mkArray3 (Rscale2 k (elt0 a)) (Rscale2 k (elt1 a)) (Rscale2 k (elt2 a)).

Definition Rneg3 (a : float3 R) : float3 R :=
  mkFloat3 (- x3 a)%R (- y3 a)%R (- z3 a)%R.

(* a * u + b * v + c * w *)
Definition combination3 (a b c : R) (u v w : float3 R) : float3 R :=
  Radd3 (Radd3 (Rlscale3 a u) (Rlscale3 b v)) (Rlscale3 c w).

(* An invalid vector. *)
Definition nan3 : float3 xreal := mkFloat3 None None None.

(* The differential of a vertex attribute, of the normalized normal and of
   the reflected direction on finite inputs. *)
Definition interpolatedDeltaR (dBary : float2 R) (values : array3 (float3 R))
    : float3 R :=
  Radd3 (Rlscale3 (x2 dBary) (Rsub3 (elt1 values) (elt0 values)))
        (Rlscale3 (y2 dBary) (Rsub3 (elt2 values) (elt0 values))).
Definition normalDifferentialR (n dn : float3 R) : float3 R :=
  Rscale3 (Rsub3 (Rscale3 dn (Rdot3 n n)) (Rscale3 n (Rdot3 n dn)))
          (1 / (Rdot3 n n * sqrt (Rdot3 n n))).
Definition reflectedDifferentialR (dD rayDir N dN : float3 R) : float3 R :=
  Rsub3 dD
    (Rlscale3 2
       (Radd3 (Rscale3 dN (Rdot3 rayDir N))
              (Rscale3 N (Rdot3 dD N + Rdot3 rayDir dN)))).
Definition negArray3 (a : array3 (float3 R)) : array3 (float3 R) :=
  mkArray3 (Rneg3 (elt0 a)) (Rneg3 (elt1 a)) (Rneg3 (elt2 a)).

(* Finite vertex records and world matrices, and what
   prepareVerticesForRayDiffs computes from them: the world-space edges and
   the interpolated normal before the orientation test. *)
Definition finVertex (v : StaticVertexData R) : StaticVertexData xreal :=
  mkStaticVertexData (fin3 (position v)) (fin3 (normal v)) (fin2 (texCrd v)).
Definition finVertices (a : array3 (StaticVertexData R))
    : array3 (StaticVertexData xreal) :=
  mkArray3 (finVertex (elt0 a)) (finVertex (elt1 a)) (finVertex (elt2 a)).
Definition fin4 (v : float4 R) : float4 xreal :=
  mkFloat4 (fin (x4 v)) (fin (y4 v)) (fin (z4 v)) (fin (w4 v)).
Definition finMat4 (m : float4x4 R) : float4x4 xreal :=
  mkFloat4x4 (fin4 (m4row0 m)) (fin4 (m4row1 m)) (fin4 (m4row2 m))
             (fin4 (m4row3 m)).
Definition Rfloat3x3_of_float4x4 (m : float4x4 R) : float3x3 R :=
  mkFloat3x3
    (mkFloat3 (x4 (m4row0 m)) (y4 (m4row0 m)) (z4 (m4row0 m)))
    (mkFloat3 (x4 (m4row1 m)) (y4 (m4row1 m)) (z4 (m4row1 m)))
    (mkFloat3 (x4 (m4row2 m)) (y4 (m4row2 m)) (z4 (m4row2 m))).
Definition worldEdge01 (vertices : array3 (StaticVertexData R))
    (worldMat : float4x4 R) : float3 R :=
  Rmul_v3_m33 (Rsub3 (position (elt1 vertices)) (position (elt0 vertices)))
              (Rfloat3x3_of_float4x4 worldMat).
Definition worldEdge02 (vertices : array3 (StaticVertexData R))
    (worldMat : float4x4 R) : float3 R :=
  Rmul_v3_m33 (Rsub3 (position (elt2 vertices)) (position (elt0 vertices)))
              (Rfloat3x3_of_float4x4 worldMat).
Definition worldNormals (vertices : array3 (StaticVertexData R))
    (worldInvTransposeMat : float3x3 R) : array3 (float3 R) :=
  mkArray3 (Rmul_v3_m33 (normal (elt0 vertices)) worldInvTransposeMat)
           (Rmul_v3_m33 (normal (elt1 vertices)) worldInvTransposeMat)
           (Rmul_v3_m33 (normal (elt2 vertices)) worldInvTransposeMat).
Definition blend3 (normals : array3 (float3 R)) (barycentrics : float3 R)
    : float3 R :=
  Radd3 (Radd3 (Rscale3 (elt0 normals) (x3 barycentrics))
               (Rscale3 (elt1 normals) (y3 barycentrics)))
        (Rscale3 (elt2 normals) (z3 barycentrics)).
Definition texCoords (vertices : array3 (StaticVertexData R))
    : array3 (float2 R) :=
  mkArray3 (texCrd (elt0 vertices)) (texCrd (elt1 vertices))
           (texCrd (elt2 vertices)).
Definition interpolatedDelta2R (dBary : float2 R) (values : array3 (float2 R))
    : float2 R :=
  Radd2 (Rscale2 (x2 dBary) (Rsub2 (elt1 values) (elt0 values)))
        (Rscale2 (y2 dBary) (Rsub2 (elt2 values) (elt0 values))).

(* The chromaticities that colorTemperatureToXYZ computes for a temperature
   in its supported range. *)
Definition chromaticityX (T : R) : R :=
  if Rlt_dec T 4000 then
    (- Q2R 0.2661239e9 / (T * T * T) - Q2R 0.2343580e6 / (T * T)
     + Q2R 0.8776956e3 / T + Q2R 0.179910)%R
  else
    (- Q2R 3.0258469e9 / (T * T * T) + Q2R 2.1070379e6 / (T * T)
     + Q2R 0.2226347e3 / T + Q2R 0.240390)%R.
Definition chromaticityY (T : R) : R :=
  let x := chromaticityX T in
  if Rlt_dec T 2222 then
    (- Q2R 1.1063814 * (x * x * x) - Q2R 1.34811020 * (x * x)
     + Q2R 2.18555832 * x - Q2R 0.20219683)%R
  else if Rlt_dec T 4000 then
    (- Q2R 0.9549476 * (x * x * x) - Q2R 1.37418593 * (x * x)
     + Q2R 2.09137015 * x - Q2R 0.16748867)%R
  else
    (Q2R 3.0817580 * (x * x * x) - Q2R 5.87338670 * (x * x)
     + Q2R 3.75112997 * x - Q2R 0.37001483)%R.

(* The attribute values g . p + k of an affine attribute at the vertices. *)
Definition affineValues (g : float3 R) (k : R) (p : array3 (float3 R))
    : array3 xreal :=
  mkArray3 (fin (Rdot3 g (elt0 p) + k)) (fin (Rdot3 g (elt1 p) + k))
           (fin (Rdot3 g (elt2 p) + k)).

(* The triangle with its three vertex normals negated. *)
Definition negNormal (v : StaticVertexData R) : StaticVertexData R :=
  mkStaticVertexData (position v) (Rneg3 (normal v)) (texCrd v).
Definition negNormals (a : array3 (StaticVertexData R))
    : array3 (StaticVertexData R) :=
  mkArray3 (negNormal (elt0 a)) (negNormal (elt1 a)) (negNormal (elt2 a)).

(* The surface orientation term of computeLOD on finite vectors. *)
Definition normalTermR (moreDetailOnSlopes : bool) (rayDir normal : float3 R) : R :=
  if moreDetailOnSlopes then sqrt (Rabs (Rdot3 rayDir normal))
  else Rabs (Rdot3 rayDir normal).

(* Vectors and cones of the model with special values. *)
Definition efin3 (v : float3 R) : float3 ereal :=
  mkFloat3 (EFin (x3 v)) (EFin (y3 v)) (EFin (z3 v)).
Definition econe (width angle : ereal) : RayCone ereal :=
  mkRayCone (T := ereal) width angle.

(* The order of IEEE 754: false when an operand is a NaN, the two zeros
   equal. *)
Definition ele (x y : ereal) : Prop :=
  match x, y with
  | ENaN, _ | _, ENaN => False
  | EInf true, _ => True
  | _, EInf false => True
  | EInf false, _ => False
  | _, EInf true => False
  | _, _ => (evalue x <= evalue y)%R
  end.

(* The half-precision patterns, enumerated: a finite binary16 value has a
   mantissa below 2^11 and an exponent from -24 to 5.  [half_widens_exactly h]
   says that widening h to single precision and narrowing it again gives h
   back, and that a finite h widens to a finite non-zero value. *)
Definition sf_eqb (x y : spec_float) : bool :=
  match x, y with
  | S754_zero s, S754_zero s' => Bool.eqb s s'
  | S754_infinity s, S754_infinity s' => Bool.eqb s s'
  | S754_nan, S754_nan => true
  | S754_finite s m e, S754_finite s' m' e' =>
      Bool.eqb s s' && Pos.eqb m m' && Z.eqb e e'
  | _, _ => false
  end.

Definition half_widens_exactly (h : spec_float) : bool :=
  sf_eqb (b32_to_b16 (b16_to_b32 h)) h
  && match h, b16_to_b32 h with
     | S754_finite _ _ _, S754_finite _ _ _ => true
     | S754_finite _ _ _, _ => false
     | _, _ => true
     end.

Fixpoint forall_mantissas (n : nat) (m : positive) (f : positive -> bool)
    : bool :=
  match n with
  | O => true
  | S n' => f m && forall_mantissas n' (Pos.succ m) f
  end.

Fixpoint forall_exponents (n : nat) (e : Z) (f : Z -> bool) : bool :=
  match n with
  | O => true
  | S n' => f e && forall_exponents n' (e + 1)%Z f
  end.

(* The check of the two halves with mantissa m and exponent e, when they are
   valid. *)
Definition halves_checked_at (e : Z) (m : positive) : bool :=
  implb (bounded 11 16 m e)
    (half_widens_exactly (S754_finite false m e)
     && half_widens_exactly (S754_finite true m e)).

Definition halves_checked_at_exponent (e : Z) : bool :=
  forall_mantissas 2047 1%positive (halves_checked_at e).

(* A value that is neither an infinity nor a NaN. *)
Definition b32_is_finite (x : binary32) : bool :=
  match x with S754_zero _ | S754_finite _ _ _ => true | _ => false end.

Definition b32_is_zero (x : binary32) : bool :=
  match x with S754_zero _ => true | _ => false end.

(* An implementation of the intrinsics on binary32 that is defined at the
   arguments the single-precision statements constrain and a NaN elsewhere:
   cos(+-0) = 1, sin(+-0) = +-0, acos(x) = NaN for 1 < x.  It instantiates
   statements that hold for every implementation of the intrinsics. *)
Definition b32_intrinsics_at_zero : Transc binary32 := {|
  fcos := fun x => if b32_is_zero x then b32_of_Z 1 else S754_nan;
  fsin := fun x => if b32_is_zero x then x else S754_nan;
  facos := fun _ => S754_nan;
  fasin := fun x => if b32_is_zero x then x else S754_nan;
  fatan := fun x => if b32_is_zero x then x else S754_nan;
  flog2 := fun _ => S754_nan
|}.

(** * Properties *)

Unset Implicit Arguments.

(** ** Concrete runs of the binary32 model *)

(* A denominator of magnitude 1e-6 is clamped to 1e-5 with its sign. *)
Example clampedDn_binary32_small :
  clampedDn (b32_vec3 1 0 0) (mkFloat3 (lit 0.000001) (lit 1) (lit 0))
  = neg (lit 1.0e-5).
Proof. vm_compute. reflexivity. Qed.

(* Total internal reflection: eta = 2 at grazing incidence. *)
Example refractWithTIR_binary32_tir :
  refractWithTIR (b32_vec3 1 0 0) (b32_vec3 0 1 0) (b32_of_Z 2)
  = (false, b32_vec3 0 0 0).
Proof. vm_compute. reflexivity. Qed.

(* Head-on refraction with eta = 1 leaves the direction unchanged. *)
Example refractWithTIR_binary32_eta1 :
  refractWithTIR (b32_vec3 0 0 (-1)) (b32_vec3 0 0 1) (b32_of_Z 1)
  = (true, b32_vec3 0 0 (-1)).
Proof. vm_compute. reflexivity. Qed.

(* A cone of spread angle 0 keeps its width; a cone of spread angle 1/64
   grows by hitT / 64. *)
Example propagateDistance_binary32 :
  getWidth (propagateDistance (RayCone_make (b32_of_Z 1) (b32_of_Z 0))
              (b32_of_Z 10)) = b32_of_Z 1
  /\ getWidth (propagateDistance (RayCone_make (b32_of_Z 1) (lit 0.015625))
                 (b32_of_Z 64)) = b32_of_Z 2.
Proof. split; vm_compute; reflexivity. Qed.

Example estimators_binary32_zero :
  eval Build_TriangleCurvature_Average
    (b32_vec3 1 0 0) (b32_vec3 0 1 0) (b32_vec3 (-1) 1 0)
    (b32_of_Z 0) (b32_of_Z 0) (b32_of_Z 0) = b32_of_Z 0
  /\ eval Build_TriangleCurvature_Max
       (b32_vec3 1 0 0) (b32_vec3 0 1 0) (b32_vec3 (-1) 1 0)
       (b32_of_Z 0) (b32_of_Z 0) (b32_of_Z 0) = b32_of_Z 0
  /\ eval {| DirClosestDP_rayDir := mkFloat3 (lit 0.6) (lit 0) (lit (-0.8)) |}
       (b32_vec3 1 0 0) (b32_vec3 0 1 0) (b32_vec3 (-1) 1 0)
       (b32_of_Z 0) (b32_of_Z 0) (b32_of_Z 0) = b32_of_Z 0
  /\ eval {| EllipseVis_rayDir := mkFloat3 (lit 0.6) (lit 0) (lit (-0.8));
             EllipseVis_rayConeWidth := lit 0.01;
             EllipseVis_rayConeAngle := lit 0.001 |}
       (b32_vec3 1 0 0) (b32_vec3 0 1 0) (b32_vec3 (-1) 1 0)
       (b32_of_Z 0) (b32_of_Z 0) (b32_of_Z 0) = b32_of_Z 0.
Proof. repeat split; vm_compute; reflexivity. Qed.

(** ** Evaluation rules of the exact model *)

Lemma xdiv_fin (a b : R) : b <> 0%R -> xdiv (Some a) (Some b) = Some (a / b)%R.
Proof.
  intros Hb. unfold xdiv. destruct (Req_dec_T b 0); [contradiction | reflexivity].
Qed.

Lemma xdiv_zero (a : R) : xdiv (Some a) (Some 0%R) = None.
Proof.
  unfold xdiv. destruct (Req_dec_T 0 0); [reflexivity | contradiction].
Qed.

Lemma xsqrt_fin (a : R) : (0 <= a)%R -> xsqrt (Some a) = Some (sqrt a).
Proof.
  intros Ha. unfold xsqrt. destruct (Rlt_dec a 0); [lra | reflexivity].
Qed.

Lemma xltb_true (a b : R) : (a < b)%R -> xltb (Some a) (Some b) = true.
Proof.
  intros Hab. unfold xltb. destruct (Rlt_dec a b); [reflexivity | contradiction].
Qed.

Lemma xltb_false (a b : R) : (b <= a)%R -> xltb (Some a) (Some b) = false.
Proof.
  intros Hab. unfold xltb. destruct (Rlt_dec a b); [lra | reflexivity].
Qed.

Lemma xltb_iff (a b : R) : xltb (Some a) (Some b) = true <-> (a < b)%R.
Proof.
  unfold xltb. destruct (Rlt_dec a b); split; intros; auto; discriminate.
Qed.

Lemma xeqb_refl (a : R) : xeqb (Some a) (Some a) = true.
Proof.
  unfold xeqb. destruct (Req_dec_T a a); [reflexivity | contradiction].
Qed.

Lemma xacos_fin (a : R) : (-1 <= a <= 1)%R -> xacos (Some a) = Some (acos a).
Proof.
  intros Ha. unfold xacos. destruct (Rlt_dec 1 (Rabs a)) as [Hlt | _].
  - exfalso. unfold Rabs in Hlt. destruct (Rcase_abs a); lra.
  - reflexivity.
Qed.

Lemma xasin_fin (a : R) : (-1 <= a <= 1)%R -> xasin (Some a) = Some (asin a).
Proof.
  intros Ha. unfold xasin. destruct (Rlt_dec 1 (Rabs a)) as [Hlt | _].
  - exfalso. unfold Rabs in Hlt. destruct (Rcase_abs a); lra.
  - reflexivity.
Qed.

Lemma xlog2_fin (a : R) : (0 < a)%R -> xlog2 (Some a) = Some (Rlog2 a).
Proof.
  intros Ha. unfold xlog2. destruct (Rlt_dec 0 a); [reflexivity | contradiction].
Qed.

Lemma Rsign_pos (a : R) : (0 < a)%R -> Rsign a = 1%R.
Proof.
  intros Ha. unfold Rsign. destruct (Rlt_dec 0 a); [reflexivity | contradiction].
Qed.

Lemma Rsign_neg (a : R) : (a < 0)%R -> Rsign a = (-1)%R.
Proof.
  intros Ha. unfold Rsign.
  destruct (Rlt_dec 0 a); [lra |]. destruct (Rlt_dec a 0); [reflexivity | lra].
Qed.

Lemma Rsign_zero : Rsign 0 = 0%R.
Proof.
  unfold Rsign. destruct (Rlt_dec 0 0); [lra |]. destruct (Rlt_dec 0 0); [lra | reflexivity].
Qed.

Lemma Q2R_0 : Q2R 0 = 0%R.
Proof. unfold Q2R; simpl; lra. Qed.

Lemma Q2R_1 : Q2R 1 = 1%R.
Proof. unfold Q2R; simpl; lra. Qed.

Lemma Q2R_2 : Q2R 2 = 2%R.
Proof. unfold Q2R; simpl; lra. Qed.

Lemma Q2R_3 : Q2R 3 = 3%R.
Proof. unfold Q2R; simpl; lra. Qed.

Lemma Q2R_half : Q2R 0.5 = (1 / 2)%R.
Proof. unfold Q2R; simpl; lra. Qed.

Lemma Q2R_1em5 : Q2R 1.0e-5 = (1 / 100000)%R.
Proof. unfold Q2R; simpl; lra. Qed.

Lemma Q2R_1em4 : Q2R 0.0001 = (1 / 10000)%R.
Proof. unfold Q2R; simpl; lra. Qed.

(* Unfold the interface at the exact model. *)
Ltac xred :=
  unfold fin3, fin2, finCone, fin in *;
  cbn [add sub mul div neg fabs fsqrt fsign fmax fmin ltb feqb lit
       f32tof16 f16tof32 half xreal_Arith
       fcos fsin facos fasin fatan flog2 xreal_Transc
       xlift1 xlift2 xsign xmax xmin
       x2 y2 x3 y3 z3 elt0 elt1 elt2 fst snd
       widthFP16 spreadAngleFP16] in *.

(** ** Ray cone propagation *)

Section PropagateDistance.
Context {T : Type} `{Arith T}.

(* What propagateDistance stores, for every implementation of the interface:
   the narrowed sum and the narrowed spread angle. *)
Lemma propagateDistance_stored (c : RayCone T) (hitT : T) :
  widthFP16 (propagateDistance c hitT)
    = f32tof16 (add (mul (getSpreadAngle c) hitT) (getWidth c))
  /\ spreadAngleFP16 (propagateDistance c hitT) = f32tof16 (getSpreadAngle c).
Proof. split; reflexivity. Qed.
End PropagateDistance.

(* In exact arithmetic, where the narrowing to half precision is the
   identity: the width of the propagated cone is spreadAngle * hitT + width,
   and a cone of spread angle 0 keeps its width over a finite hitT. *)
Lemma propagateDistance_exact (c : RayCone xreal) (hitT : xreal) :
  getWidth (propagateDistance c hitT)
    = add (mul (getSpreadAngle c) hitT) (getWidth c)
  /\ getSpreadAngle (propagateDistance c hitT) = getSpreadAngle c
  /\ (getSpreadAngle c = fin 0 ->
      forall t : R, getWidth (propagateDistance c (fin t)) = getWidth c).
Proof.
  split; [reflexivity | split; [reflexivity |]].
  intros Hzero t.
  unfold propagateDistance, RayCone_make. rewrite Hzero.
  unfold getWidth at 1. xred.
  destruct (getWidth c) as [w |]; [| reflexivity].
  xred. f_equal. lra.
Qed.

(** ** Ray cone propagation in single precision with the FP16 payload *)

Lemma sf_eqb_eq (x y : spec_float) : sf_eqb x y = true -> x = y.
Proof.
  destruct x as [sx | sx | | sx mx ex], y as [sy | sy | | sy my ey];
    cbn [sf_eqb]; try discriminate; try reflexivity.
  - intros H. apply Bool.eqb_prop in H. subst. reflexivity.
  - intros H. apply Bool.eqb_prop in H. subst. reflexivity.
  - intros H. apply andb_prop in H. destruct H as [H He].
    apply andb_prop in H. destruct H as [Hs Hm].
    apply Bool.eqb_prop in Hs. apply Pos.eqb_eq in Hm. apply Z.eqb_eq in He.
    subst. reflexivity.
Qed.

Lemma forall_mantissas_spec (f : positive -> bool) (n : nat) (m0 m : positive) :
  forall_mantissas n m0 f = true ->
  (Zpos m0 <= Zpos m < Zpos m0 + Z.of_nat n)%Z -> f m = true.
Proof.
  revert m0. induction n as [| n IH]; intros m0 Hall Hm.
  - cbn in Hm. lia.
  - cbn [forall_mantissas] in Hall. apply andb_prop in Hall.
    destruct Hall as [H0 Hrest].
    destruct (Pos.eq_dec m m0) as [-> | Hne]; [exact H0 |].
    apply (IH (Pos.succ m0)); [exact Hrest |]. lia.
Qed.

Lemma forall_exponents_spec (f : Z -> bool) (n : nat) (e0 e : Z) :
  forall_exponents n e0 f = true ->
  (e0 <= e < e0 + Z.of_nat n)%Z -> f e = true.
Proof.
  revert e0. induction n as [| n IH]; intros e0 Hall He.
  - cbn in He. lia.
  - cbn [forall_exponents] in Hall. apply andb_prop in Hall.
    destruct Hall as [H0 Hrest].
    destruct (Z.eq_dec e e0) as [-> | Hne]; [exact H0 |].
    apply (IH (e0 + 1)%Z); [exact Hrest |]. lia.
Qed.

Lemma digits2_pos_bound (m : positive) :
  (Zpos m < 2 ^ Zpos (digits2_pos m))%Z.
Proof.
  induction m as [m IH | m IH |]; cbn [digits2_pos].
  - rewrite Pos2Z.inj_succ, Z.pow_succ_r by lia. lia.
  - rewrite Pos2Z.inj_succ, Z.pow_succ_r by lia. lia.
  - cbn. lia.
Qed.

Lemma bounded_half_range (m : positive) (e : Z) :
  bounded 11 16 m e = true ->
  (1 <= Zpos m < 1 + Z.of_nat 2047)%Z /\ (-24 <= e < -24 + Z.of_nat 30)%Z.
Proof.
  unfold bounded, canonical_mantissa, fexp, emin. intros H.
  apply andb_prop in H. destruct H as [Hc He].
  apply Z.eqb_eq in Hc. apply Z.leb_le in He.
  pose proof (digits2_pos_bound m) as Hd.
  assert (Hdig : (Zpos (digits2_pos m) <= 11)%Z) by lia.
  assert (Hpow : (2 ^ Zpos (digits2_pos m) <= 2 ^ 11)%Z)
    by (apply Z.pow_le_mono_r; lia).
  change (2 ^ 11)%Z with 2048%Z in Hpow.
  change (Z.of_nat 2047) with 2047%Z. change (Z.of_nat 30) with 30%Z.
  lia.
Qed.

Lemma all_halves_widen_exactly :
  forall_exponents 30 (-24)%Z halves_checked_at_exponent = true.
Proof. vm_compute. reflexivity. Qed.

Lemma half_checked (m : positive) (e : Z) :
  (1 <= Zpos m < 1 + Z.of_nat 2047)%Z -> (-24 <= e < -24 + Z.of_nat 30)%Z ->
  halves_checked_at e m = true.
Proof.
  intros Hm He.
  apply (forall_mantissas_spec (halves_checked_at e) 2047 1%positive m);
    [| exact Hm].
  apply (forall_exponents_spec halves_checked_at_exponent 30 (-24)%Z e
           all_halves_widen_exactly He).
Qed.

(* Widening a valid half to single precision and narrowing it again is the
   identity, and a finite half widens to a finite non-zero value. *)
Lemma half_roundtrip (h : spec_float) :
  valid_binary 11 16 h = true -> half_widens_exactly h = true.
Proof.
  destruct h as [s | s | | s m e].
  - intros _. destruct s; reflexivity.
  - intros _. destruct s; reflexivity.
  - intros _. reflexivity.
  - cbn [valid_binary]. intros Hb.
    destruct (bounded_half_range m e Hb) as [Hm He].
    pose proof (half_checked m e Hm He) as Hme.
    unfold halves_checked_at in Hme. rewrite Hb in Hme. cbn [implb] in Hme.
    apply andb_prop in Hme. destruct Hme as [Hpos Hneg].
    destruct s; assumption.
Qed.

Lemma f32tof16_f16tof32 (h : spec_float) :
  valid_binary 11 16 h = true -> b32_to_b16 (b16_to_b32 h) = h.
Proof.
  intros Hv. pose proof (half_roundtrip h Hv) as H.
  unfold half_widens_exactly in H. apply andb_prop in H.
  apply sf_eqb_eq. exact (proj1 H).
Qed.

(* Adding a zero to the widened width leaves it unchanged, unless the width
   is -0. *)
Lemma add_zero_widened (s : bool) (h : spec_float) :
  valid_binary 11 16 h = true -> h <> S754_zero true ->
  SFadd 24 128 (S754_zero s) (b16_to_b32 h) = b16_to_b32 h.
Proof.
  intros Hv Hnz. pose proof (half_roundtrip h Hv) as H.
  unfold half_widens_exactly in H. apply andb_prop in H.
  destruct H as [_ Hfin].
  destruct h as [sh | sh | | sh m e].
  - destruct sh; [contradiction Hnz; reflexivity |]. destruct s; reflexivity.
  - reflexivity.
  - reflexivity.
  - destruct (b16_to_b32 (S754_finite sh m e)); try discriminate.
    reflexivity.
Qed.

(** C8. In binary32 with the cone stored as two halves (the compiled
    configuration), for every cone that holds valid half-precision values
    and every hitT: the stored spread angle is unchanged; the stored width is
    the half-precision rounding of the single-precision value
    spreadAngle * hitT + width; when the spread angle is zero and hitT is
    neither an infinity nor a NaN, the stored width is unchanged (for a width
    other than -0); and when the spread angle is zero and hitT is an infinity
    or a NaN, the stored width is a NaN. *)
Theorem propagateDistance_binary32_spec (c : RayCone binary32)
    (hitT : binary32) :
  valid_binary 11 16 (widthFP16 c) = true ->
  valid_binary 11 16 (spreadAngleFP16 c) = true ->
  spreadAngleFP16 (propagateDistance c hitT) = spreadAngleFP16 c
  /\ widthFP16 (propagateDistance c hitT)
     = f32tof16 (add (mul (getSpreadAngle c) hitT) (getWidth c))
  /\ (b32_is_zero (spreadAngleFP16 c) = true ->
      (b32_is_finite hitT = true -> widthFP16 c <> S754_zero true ->
       widthFP16 (propagateDistance c hitT) = widthFP16 c)
      /\ (b32_is_finite hitT = false ->
          widthFP16 (propagateDistance c hitT) = S754_nan)).
Proof.
  destruct c as [hw ha]. cbn [widthFP16 spreadAngleFP16].
  intros Hw Ha.
  unfold propagateDistance, RayCone_make, getWidth, getSpreadAngle.
  cbn [widthFP16 spreadAngleFP16 f32tof16 f16tof32 binary32_Arith add mul].
  split; [apply f32tof16_f16tof32; exact Ha |].
  split; [reflexivity |].
  intros Hzero. destruct ha as [sa | | |]; try discriminate.
  cbn [b16_to_b32]. split.
  - intros Hfin Hnz.
    assert (Hprod : exists s, SFmul 24 128 (S754_zero sa) hitT = S754_zero s).
    { destruct hitT as [st | st | | st mt et]; try discriminate;
        eexists; reflexivity. }
    destruct Hprod as [s ->].
    rewrite add_zero_widened by assumption.
    apply f32tof16_f16tof32. exact Hw.
  - intros Hinf.
    assert (Hprod : SFmul 24 128 (S754_zero sa) hitT = S754_nan).
    { destruct hitT as [st | st | | st mt et]; try discriminate; reflexivity. }
    rewrite Hprod. reflexivity.
Qed.

Lemma propagateDistance_binary32_spec_witness :
  let c := RayCone_make (b32_of_Z 2) (b32_of_Z 0) in
  spreadAngleFP16 (propagateDistance c (b32_of_Z 10)) = spreadAngleFP16 c
  /\ widthFP16 (propagateDistance c (b32_of_Z 10)) = widthFP16 c.
Proof.
  intros c.
  destruct (propagateDistance_binary32_spec c (b32_of_Z 10))
    as [Hangle [_ Hzero]].
  - vm_compute. reflexivity.
  - vm_compute. reflexivity.
  - split; [exact Hangle |].
    destruct Hzero as [Hkeep _]; [vm_compute; reflexivity |].
    apply Hkeep; [vm_compute; reflexivity |].
    vm_compute. discriminate.
Defined.

(* The width is not spreadAngle * hitT + width in general: the cone
   (0.5, 0.001) propagated over 10 has width 0.509765625, the half nearest to
   the single-precision sum 0.5100040; and with a zero spread angle an
   infinite hitT turns the width 1 into a NaN. *)
Lemma propagateDistance_width_rounded :
  let c := RayCone_make (lit 0.5) (lit 0.001) in
  getWidth (propagateDistance c (b32_of_Z 10))
  <> add (mul (getSpreadAngle c) (b32_of_Z 10)) (getWidth c)
  /\ getWidth (propagateDistance (RayCone_make (b32_of_Z 1) (b32_of_Z 0))
                 (S754_infinity false))
     = S754_nan.
Proof.
  split.
  - vm_compute. discriminate.
  - vm_compute. reflexivity.
Qed.

(** ** Total internal reflection: the failure path *)

Section FailurePath.
Context {T : Type} `{Arith T} `{Transc T}.

Lemma refractWithTIR_false (rayDir normal : float3 T) (eta : T) :
  fst (refractWithTIR rayDir normal eta) = false ->
  snd (refractWithTIR rayDir normal eta) = zero3.
Proof.
  unfold refractWithTIR.
  destruct (ltb _ _); cbn [fst snd]; [reflexivity | discriminate].
Qed.

Lemma refractWithTIR2D_false (rayDir normal : float2 T) (eta : T) :
  fst (refractWithTIR2D rayDir normal eta) = false ->
  snd (refractWithTIR2D rayDir normal eta) = zero2.
Proof.
  unfold refractWithTIR2D.
  destruct (ltb _ _); cbn [fst snd]; [reflexivity | discriminate].
Qed.

Lemma refractRayDifferential_false (rayDiff : RayDiff T)
    (rayDir nnN nN : float3 T) (dBarydx dBarydy : float2 T)
    (normalsW : array3 (float3 T)) (eta : T) :
  let r := refractRayDifferential rayDiff rayDir nnN nN dBarydx dBarydy
             normalsW eta in
  fst (fst r) = false -> snd r = zero3 /\ snd (fst r) = rayDiff.
Proof.
  unfold refractRayDifferential.
  destruct (ltb _ _); cbn [fst snd]; [split; reflexivity | discriminate].
Qed.

Lemma refractRayCone_false (rayCone : RayCone T)
    (rayOrg rayDir hitPoint normal : float3 T) (normalSpreadAngle eta : T) :
  let r := refractRayCone rayCone rayOrg rayDir hitPoint normal
             normalSpreadAngle eta in
  fst (fst r) = false -> snd (fst r) = rayCone /\ snd r = zero3.
Proof.
  unfold refractRayCone.
  pose proof (refractWithTIR_false rayDir normal eta) as Hz.
  destruct (refractWithTIR rayDir normal eta) as [[|] refr]; cbn [fst snd negb] in *.
  - discriminate.
  - intros _. split; [reflexivity | apply Hz; reflexivity].
Qed.

(* The flag of refractRayCone is the flag of the 3D refraction. *)
Lemma refractRayCone_flag (rayCone : RayCone T)
    (rayOrg rayDir hitPoint normal : float3 T) (normalSpreadAngle eta : T) :
  fst (fst (refractRayCone rayCone rayOrg rayDir hitPoint normal
              normalSpreadAngle eta))
  = fst (refractWithTIR rayDir normal eta).
Proof.
  unfold refractRayCone.
  destruct (refractWithTIR rayDir normal eta) as [[|] refr]; reflexivity.
Qed.
End FailurePath.

(** C10. For every implementation of the scalar interface: when
    refractWithTIR (3D or 2D overload) or refractRayDifferential returns false
    the refracted direction written is the zero vector, and when refractRayCone
    returns false the ray cone it returns is the one passed in. *)
Theorem tir_failure_path_defined
    (T : Type) (A : Arith T) (Tr : Transc T)
    (rayDir normal : float3 T) (rayDir2D normal2D : float2 T) (eta : T)
    (rayDiff : RayDiff T) (nnN : float3 T) (dBarydx dBarydy : float2 T)
    (normalsW : array3 (float3 T))
    (rayCone : RayCone T) (rayOrg hitPoint : float3 T) (normalSpreadAngle : T) :
  (fst (refractWithTIR rayDir normal eta) = false ->
   snd (refractWithTIR rayDir normal eta) = zero3)
  /\ (fst (refractWithTIR2D rayDir2D normal2D eta) = false ->
      snd (refractWithTIR2D rayDir2D normal2D eta) = zero2)
  /\ (fst (fst (refractRayDifferential rayDiff rayDir nnN normal dBarydx
                  dBarydy normalsW eta)) = false ->
      snd (refractRayDifferential rayDiff rayDir nnN normal dBarydx dBarydy
             normalsW eta) = zero3)
  /\ (fst (fst (refractRayCone rayCone rayOrg rayDir hitPoint normal
                  normalSpreadAngle eta)) = false ->
      snd (fst (refractRayCone rayCone rayOrg rayDir hitPoint normal
                  normalSpreadAngle eta)) = rayCone).
Proof.
  split; [apply refractWithTIR_false |].
  split; [apply refractWithTIR2D_false |].
  split.
  - intros Hf. now apply refractRayDifferential_false in Hf.
  - intros Hf. now apply refractRayCone_false in Hf.
Qed.

(** ** Total internal reflection: the decision *)

Lemma refractWithTIR_flag_fin (rayDir normal : float3 R) (eta : R) :
  fst (refractWithTIR (fin3 rayDir) (fin3 normal) (fin eta)) = false
  <-> (eta * eta * (1 - Rdot3 normal rayDir * Rdot3 normal rayDir) > 1)%R.
Proof.
  unfold refractWithTIR, dot3, Rdot3. xred.
  rewrite Q2R_0, Q2R_1.
  destruct (xltb _ _) eqn:Hlt; cbn [fst].
  - apply xltb_iff in Hlt. split; [intros _; lra | reflexivity].
  - split; [discriminate |]. intros Hgt.
    rewrite xltb_true in Hlt by lra. discriminate.
Qed.

Lemma refractRayDifferential_flag_fin (rayDiff : RayDiff xreal)
    (rayDir normal : float3 R) (nnN : float3 xreal)
    (dBarydx dBarydy : float2 xreal) (normalsW : array3 (float3 xreal))
    (eta : R) :
  fst (fst (refractRayDifferential rayDiff (fin3 rayDir) nnN (fin3 normal)
              dBarydx dBarydy normalsW (fin eta))) = false
  <-> (eta * eta * (1 - Rdot3 normal rayDir * Rdot3 normal rayDir) > 1)%R.
Proof.
  unfold refractRayDifferential, dot3, Rdot3. xred.
  rewrite Q2R_1.
  destruct (xltb _ _) eqn:Hlt; cbn [fst].
  - apply xltb_iff in Hlt. split; [intros _; lra | reflexivity].
  - split; [discriminate |]. intros Hgt.
    rewrite xltb_true in Hlt by lra. discriminate.
Qed.

(* The two tests agree on every input of the exact model, finite or not. *)
Lemma tir_tests_agree (x : xreal) :
  xltb (sub (lit 1) x) (lit 0) = xltb (lit 1) x.
Proof.
  destruct x as [v |]; [| reflexivity].
  xred. rewrite Q2R_0, Q2R_1. unfold xltb.
  destruct (Rlt_dec (1 - v) 0), (Rlt_dec 1 v); try reflexivity; lra.
Qed.

Lemma refract_flags_agree (rayCone : RayCone xreal) (rayDiff : RayDiff xreal)
    (rayOrg rayDir hitPoint normal nnN : float3 xreal)
    (normalSpreadAngle eta : xreal)
    (dBarydx dBarydy : float2 xreal) (normalsW : array3 (float3 xreal)) :
  fst (fst (refractRayCone rayCone rayOrg rayDir hitPoint normal
              normalSpreadAngle eta))
  = fst (fst (refractRayDifferential rayDiff rayDir nnN normal dBarydx dBarydy
                normalsW eta)).
Proof.
  rewrite refractRayCone_flag.
  unfold refractWithTIR, refractRayDifferential.
  change (@ltb xreal _) with xltb. rewrite tir_tests_agree.
  destruct (xltb _ _); reflexivity.
Qed.

(** C3. In the exact model, for every finite rayDir, normal and eta (unit or
    not), refractRayCone returns false exactly when
    eta^2 * (1 - dot(normal, rayDir)^2) > 1, refractRayDifferential returns
    false under the same condition, and on every common input (finite or not)
    the two functions take the same success/failure decision. *)
Theorem tir_decision_consistent
    (rayCone : RayCone xreal) (rayDiff : RayDiff xreal)
    (rayOrg hitPoint nnN : float3 xreal) (normalSpreadAngle : xreal)
    (dBarydx dBarydy : float2 xreal) (normalsW : array3 (float3 xreal)) :
  (forall (rayDir normal : float3 R) (eta : R),
     (fst (fst (refractRayCone rayCone rayOrg (fin3 rayDir) hitPoint
                  (fin3 normal) normalSpreadAngle (fin eta))) = false
      <-> (eta * eta * (1 - Rdot3 normal rayDir * Rdot3 normal rayDir) > 1)%R)
     /\ (fst (fst (refractRayDifferential rayDiff (fin3 rayDir) nnN
                     (fin3 normal) dBarydx dBarydy normalsW (fin eta))) = false
         <-> (eta * eta * (1 - Rdot3 normal rayDir * Rdot3 normal rayDir) > 1)%R))
  /\ (forall (rayDir normal : float3 xreal) (eta : xreal),
        fst (fst (refractRayCone rayCone rayOrg rayDir hitPoint normal
                    normalSpreadAngle eta))
        = fst (fst (refractRayDifferential rayDiff rayDir nnN normal dBarydx
                      dBarydy normalsW eta))).
Proof.
  split.
  - intros rayDir normal eta. split.
    + rewrite refractRayCone_flag. apply refractWithTIR_flag_fin.
    + apply refractRayDifferential_flag_fin.
  - intros rayDir normal eta. apply refract_flags_agree.
Qed.

Lemma tir_failure_path_defined_witness :
  let d := fin3 (mkFloat3 1 0 0)%R in
  let n := fin3 (mkFloat3 0 1 0)%R in
  let d2 := fin2 (mkFloat2 1 0)%R in
  let n2 := fin2 (mkFloat2 0 1)%R in
  let rd := mkRayDiff d d n n in
  let tri := mkArray3 n n n in
  fst (refractWithTIR d n (fin 2)) = false
  /\ snd (refractWithTIR d n (fin 2)) = zero3
  /\ fst (refractWithTIR2D d2 n2 (fin 2)) = false
  /\ snd (refractWithTIR2D d2 n2 (fin 2)) = zero2
  /\ fst (fst (refractRayDifferential rd d n n d2 d2 tri (fin 2))) = false
  /\ snd (refractRayDifferential rd d n n d2 d2 tri (fin 2)) = zero3
  /\ fst (fst (refractRayCone (finCone 1 0) d d d n (fin 0) (fin 2))) = false
  /\ snd (fst (refractRayCone (finCone 1 0) d d d n (fin 0) (fin 2)))
     = finCone 1 0.
Proof.
  intros d n d2 n2 rd tri.
  assert (H3 : fst (refractWithTIR d n (fin 2)) = false).
  { apply refractWithTIR_flag_fin. unfold Rdot3; cbn [x3 y3 z3]. lra. }
  assert (H2 : fst (refractWithTIR2D d2 n2 (fin 2)) = false).
  { unfold refractWithTIR2D, dot2, d2, n2. xred.
    rewrite Q2R_0, Q2R_1. rewrite xltb_true by lra. reflexivity. }
  assert (Hd : fst (fst (refractRayDifferential rd d n n d2 d2 tri (fin 2)))
               = false).
  { apply refractRayDifferential_flag_fin. unfold Rdot3; cbn [x3 y3 z3]. lra. }
  assert (Hc : fst (fst (refractRayCone (finCone 1 0) d d d n (fin 0) (fin 2)))
               = false).
  { rewrite refractRayCone_flag. exact H3. }
  destruct (@tir_failure_path_defined xreal xreal_Arith xreal_Transc d n d2 n2 (fin 2)
              rd n d2 d2 tri (finCone 1 0) d d (fin 0))
    as (K3 & K2 & Kd & Kc).
  repeat split; auto.
Defined.

(** ** The grazing-angle clamp of computeSpreadAngleFromCurvatureIso *)

(* Away from zero the clamp does what it is meant to do: a denominator of
   magnitude below 1e-5 becomes 1e-5 with the sign of dn. *)
Lemma clampedDn_small (rayDir normal : float3 R) :
  let dn := (- Rdot3 rayDir normal)%R in
  (Rabs dn < 1 / 100000)%R -> dn <> 0%R ->
  clampedDn (fin3 rayDir) (fin3 normal) = fin (Rsign dn * (1 / 100000))
  /\ (Rsign dn * (1 / 100000) <> 0)%R.
Proof.
  intros dn Hsmall Hnz. unfold clampedDn, dot3. xred.
  fold (Rdot3 rayDir normal). fold dn.
  rewrite Q2R_1em5. rewrite xltb_true by exact Hsmall.
  split; [reflexivity |].
  destruct (Rlt_dec 0 dn) as [Hp | Hn].
  - rewrite Rsign_pos by exact Hp. lra.
  - rewrite Rsign_neg by lra. lra.
Qed.

Lemma clampedDn_large (rayDir normal : float3 R) :
  let dn := (- Rdot3 rayDir normal)%R in
  (1 / 100000 <= Rabs dn)%R ->
  clampedDn (fin3 rayDir) (fin3 normal) = fin dn.
Proof.
  intros dn Hlarge. unfold clampedDn, dot3. xred.
  fold (Rdot3 rayDir normal). fold dn.
  rewrite Q2R_1em5. rewrite xltb_false by exact Hlarge. reflexivity.
Qed.

(* At exactly grazing incidence sign(dn) is 0 and the clamp yields 0. *)
Lemma clampedDn_grazing (rayDir normal : float3 R) :
  Rdot3 rayDir normal = 0%R ->
  clampedDn (fin3 rayDir) (fin3 normal) = fin 0.
Proof.
  intros Hdot. unfold clampedDn, dot3. xred.
  fold (Rdot3 rayDir normal). rewrite Hdot, Ropp_0, Rabs_R0, Q2R_1em5.
  rewrite xltb_true by lra. rewrite Rsign_zero. unfold fin. f_equal. lra.
Qed.

(** C2. The clamp of computeSpreadAngleFromCurvatureIso fails at exactly
    grazing incidence.  In binary32, curvature 1, cone width 1,
    rayDir (1,0,0) and normal (0,1,0) give a clamped denominator of +0 and
    the result +infinity; in the exact model, whenever
    dot(rayDir, normal) = 0 the clamped denominator is 0 and the function
    divides by it, for every finite curvature and cone width. *)
Theorem spreadAngle_grazing_divides_by_zero :
  clampedDn (b32_vec3 1 0 0) (b32_vec3 0 1 0) = S754_zero false
  /\ computeSpreadAngleFromCurvatureIso (b32_of_Z 1) (b32_of_Z 1)
       (b32_vec3 1 0 0) (b32_vec3 0 1 0) = S754_infinity false
  /\ forall (curvature rayConeWidth : R) (rayDir normal : float3 R),
       Rdot3 rayDir normal = 0%R ->
       clampedDn (fin3 rayDir) (fin3 normal) = fin 0
       /\ computeSpreadAngleFromCurvatureIso (fin curvature) (fin rayConeWidth)
            (fin3 rayDir) (fin3 normal) = None.
Proof.
  split; [vm_compute; reflexivity |].
  split; [vm_compute; reflexivity |].
  intros curvature rayConeWidth rayDir normal Hdot.
  split; [apply clampedDn_grazing; exact Hdot |].
  unfold computeSpreadAngleFromCurvatureIso.
  rewrite clampedDn_grazing by exact Hdot.
  xred. apply xdiv_zero.
Qed.

Lemma spreadAngle_grazing_divides_by_zero_witness :
  Rdot3 (mkFloat3 1 0 0)%R (mkFloat3 0 1 0)%R = 0%R
  /\ computeSpreadAngleFromCurvatureIso (fin 1) (fin 1)
       (fin3 (mkFloat3 1 0 0)%R) (fin3 (mkFloat3 0 1 0)%R) = None.
Proof.
  assert (Hdot : Rdot3 (mkFloat3 1 0 0)%R (mkFloat3 0 1 0)%R = 0%R).
  { unfold Rdot3; cbn [x3 y3 z3]; lra. }
  split; [exact Hdot |].
  destruct spreadAngle_grazing_divides_by_zero as (_ & _ & Hx).
  apply (Hx 1%R 1%R _ _ Hdot).
Defined.

(** ** Monotonicity of computeLOD *)

Lemma Rlog2_le (a b : R) : (0 < a <= b)%R -> (Rlog2 a <= Rlog2 b)%R.
Proof.
  intros [Ha Hab]. unfold Rlog2.
  assert (H2 : (0 < ln 2)%R).
  { rewrite <- ln_1. apply ln_increasing; lra. }
  apply Rmult_le_compat_r; [left; apply Rinv_0_lt_compat; exact H2 |].
  destruct Hab as [Hlt | ->]; [left; apply ln_increasing; assumption | right; reflexivity].
Qed.

Lemma normalTermR_pos (b : bool) (rayDir normal : float3 R) :
  Rdot3 rayDir normal <> 0%R -> (0 < normalTermR b rayDir normal)%R.
Proof.
  intros Hnz. pose proof (Rabs_pos_lt _ Hnz) as Hpos.
  unfold normalTermR. destruct b; [apply sqrt_lt_R0 |]; exact Hpos.
Qed.

Lemma normalTermR_mono (b : bool) (d1 n1 d2 n2 : float3 R) :
  (Rabs (Rdot3 d2 n2) <= Rabs (Rdot3 d1 n1))%R ->
  (normalTermR b d2 n2 <= normalTermR b d1 n1)%R.
Proof.
  intros Hle. unfold normalTermR. destruct b; [apply sqrt_le_1_alt |]; exact Hle.
Qed.

Lemma computeLOD_fin (w a t : R) (rayDir normal : float3 R) (b : bool) :
  w <> 0%R -> Rdot3 rayDir normal <> 0%R ->
  computeLOD (finCone w a) (fin t) (fin3 rayDir) (fin3 normal) b
  = fin (t + Rlog2 (Rabs w / normalTermR b rayDir normal)).
Proof.
  intros Hw Hdot.
  pose proof (normalTermR_pos b rayDir normal Hdot) as Hnt.
  pose proof (Rabs_pos_lt _ Hw) as Hwpos.
  assert (Hq : (0 < Rabs w / normalTermR b rayDir normal)%R).
  { apply Rdiv_lt_0_compat; assumption. }
  unfold computeLOD, getWidth, dot3. xred. fold (Rdot3 rayDir normal).
  unfold normalTermR in *. destruct b.
  - xred. rewrite xsqrt_fin by apply Rabs_pos.
    rewrite xdiv_fin by lra. rewrite xlog2_fin by exact Hq. reflexivity.
  - rewrite xdiv_fin by lra. rewrite xlog2_fin by exact Hq. reflexivity.
Qed.

(** ** computeLOD on the extended reals *)

Lemma efinite_result_value (r : R) (s : bool) :
  (efinite_result r s = ENegZero /\ r = 0%R) \/ efinite_result r s = EFin r.
Proof.
  unfold efinite_result, ezero.
  destruct (Req_dec_T r 0) as [-> | Hr]; [| right; reflexivity].
  destruct s; [left; split; reflexivity | right; reflexivity].
Qed.

(* A product of numbers that are zeros or finite is one, with the product of
   the values. *)
Lemma emul_value (x y : ereal) :
  (x = ENegZero \/ exists a, x = EFin a) ->
  (y = ENegZero \/ exists b, y = EFin b) ->
  (emul x y = ENegZero /\ (evalue x * evalue y)%R = 0%R)
  \/ emul x y = EFin (evalue x * evalue y).
Proof.
  intros [-> | [a ->]] [-> | [b ->]]; cbn [emul];
    apply efinite_result_value.
Qed.

Lemma eabs_dot3 (a b : float3 R) :
  fabs (dot3 (efin3 a) (efin3 b)) = EFin (Rabs (Rdot3 a b)).
Proof.
  unfold dot3, efin3. cbn [x3 y3 z3 mul add fabs ereal_Arith].
  assert (Hm : forall u v : R,
            (emul (EFin u) (EFin v) = ENegZero /\ 0%R = 0%R /\ (u * v)%R = 0%R)
            \/ emul (EFin u) (EFin v) = EFin (u * v)).
  { intros u v.
    destruct (emul_value (EFin u) (EFin v)) as [[H0 Hz] | H];
      [right; eexists; reflexivity | right; eexists; reflexivity | |].
    - left. cbn [evalue] in Hz. repeat split; assumption.
    - right. exact H. }
  assert (Hsum : forall (p q : ereal) (vp vq : R),
            ((p = ENegZero /\ vp = 0%R) \/ p = EFin vp) ->
            ((q = ENegZero /\ vq = 0%R) \/ q = EFin vq) ->
            (eadd p q = ENegZero /\ (vp + vq)%R = 0%R)
            \/ eadd p q = EFin (vp + vq)).
  { intros p q vp vq [[-> ->] | ->] [[-> ->] | ->]; cbn [eadd].
    - left. split; [reflexivity | ring].
    - right. f_equal. ring.
    - right. f_equal. ring.
    - right. reflexivity. }
  assert (Hx : (emul (EFin (x3 a)) (EFin (x3 b)) = ENegZero
                /\ (x3 a * x3 b)%R = 0%R)
               \/ emul (EFin (x3 a)) (EFin (x3 b)) = EFin (x3 a * x3 b)).
  { destruct (Hm (x3 a) (x3 b)) as [[H [_ Hz]] | H]; [left | right]; auto. }
  assert (Hy : (emul (EFin (y3 a)) (EFin (y3 b)) = ENegZero
                /\ (y3 a * y3 b)%R = 0%R)
               \/ emul (EFin (y3 a)) (EFin (y3 b)) = EFin (y3 a * y3 b)).
  { destruct (Hm (y3 a) (y3 b)) as [[H [_ Hz]] | H]; [left | right]; auto. }
  assert (Hz : (emul (EFin (z3 a)) (EFin (z3 b)) = ENegZero
                /\ (z3 a * z3 b)%R = 0%R)
               \/ emul (EFin (z3 a)) (EFin (z3 b)) = EFin (z3 a * z3 b)).
  { destruct (Hm (z3 a) (z3 b)) as [[H [_ Hz']] | H]; [left | right]; auto. }
  pose proof (Hsum _ _ _ _ Hx Hy) as Hxy.
  pose proof (Hsum _ _ _ _ Hxy Hz) as Hxyz.
  fold (Rdot3 a b) in Hxyz.
  destruct Hxyz as [[-> ->] | ->]; cbn [eabs].
  - rewrite Rabs_R0. reflexivity.
  - reflexivity.
Qed.

Lemma eabs_cases (w : ereal) :
  eabs w = ENaN \/ eabs w = EInf false
  \/ exists a : R, (0 <= a)%R /\ eabs w = EFin a
                   /\ (a = 0%R <-> eis_zero w = true).
Proof.
  destruct w as [| s | | r]; cbn [eabs eis_zero].
  - left. reflexivity.
  - right. left. reflexivity.
  - right. right. exists 0%R. repeat split; auto; lra.
  - right. right. exists (Rabs r). split; [apply Rabs_pos |].
    split; [reflexivity |].
    destruct (Req_dec_T r 0) as [-> | Hr].
    + rewrite Rabs_R0. split; auto.
    + split; [| discriminate]. intros H0. exfalso.
      apply (Rabs_no_R0 r Hr H0).
Qed.

Lemma enormalTerm (b : bool) (rayDir normal : float3 R) :
  (if b then fsqrt (fabs (dot3 (efin3 rayDir) (efin3 normal)))
   else fabs (dot3 (efin3 rayDir) (efin3 normal)))
  = EFin (normalTermR b rayDir normal)
  /\ (0 <= normalTermR b rayDir normal)%R
  /\ (normalTermR b rayDir normal = 0%R <-> Rdot3 rayDir normal = 0%R).
Proof.
  rewrite eabs_dot3. unfold normalTermR.
  pose proof (Rabs_pos (Rdot3 rayDir normal)) as Hpos.
  assert (Habs0 : Rabs (Rdot3 rayDir normal) = 0%R
                  <-> Rdot3 rayDir normal = 0%R).
  { split; [| intros ->; apply Rabs_R0].
    intros H0. destruct (Req_dec (Rdot3 rayDir normal) 0) as [Hz | Hnz];
      [exact Hz | exfalso; apply (Rabs_no_R0 _ Hnz H0)]. }
  destruct b.
  - cbn [fsqrt ereal_Arith esqrt].
    destruct (Rlt_dec (Rabs (Rdot3 rayDir normal)) 0) as [Hneg | _];
      [exfalso; lra |].
    split; [reflexivity |]. split; [apply sqrt_pos |].
    rewrite <- Habs0. split.
    + intros Hs. apply sqrt_eq_0; assumption.
    + intros ->. apply sqrt_0.
  - split; [reflexivity |]. split; [exact Hpos | exact Habs0].
Qed.

(* The level of detail from a finite absolute width a >= 0 and a surface
   orientation term nt >= 0. *)
Lemma elod_finite_width (t a nt : R) :
  (0 <= a)%R -> (0 <= nt)%R ->
  let lambda := eadd (EFin t) (elog2 (ediv (EFin a) (EFin nt))) in
  (nt = 0%R -> a = 0%R -> lambda = ENaN)
  /\ (nt = 0%R -> a <> 0%R -> lambda = EInf false)
  /\ (nt <> 0%R -> a = 0%R -> lambda = EInf true)
  /\ (nt <> 0%R -> a <> 0%R -> lambda = EFin (t + Rlog2 (a / nt))).
Proof.
  intros Ha Hnt lambda. subst lambda. cbn [ediv eis_zero evalue esignbit].
  destruct (Rlt_dec a 0) as [Hlt | _]; [exfalso; lra |].
  destruct (Rlt_dec nt 0) as [Hlt | _]; [exfalso; lra |].
  cbn [xorb].
  destruct (Req_dec_T nt 0) as [Hn0 | Hn0];
    destruct (Req_dec_T a 0) as [Ha0 | Ha0];
    repeat split; intros; try contradiction; try reflexivity.
  - subst a. unfold efinite_result, Rdiv. rewrite Rmult_0_l.
    destruct (Req_dec_T 0 0) as [_ | Hne]; [| contradiction Hne; reflexivity].
    cbn [ezero elog2].
    destruct (Req_dec_T 0 0) as [_ | Hne]; [| contradiction Hne; reflexivity].
    reflexivity.
  - assert (Hq : (0 < a / nt)%R) by (apply Rdiv_lt_0_compat; lra).
    unfold efinite_result.
    destruct (Req_dec_T (a / nt) 0) as [Hq0 | _]; [exfalso; lra |].
    cbn [elog2].
    destruct (Req_dec_T (a / nt) 0) as [Hq0 | _]; [exfalso; lra |].
    destruct (Rlt_dec (a / nt) 0) as [Hq0 | _]; [exfalso; lra |].
    reflexivity.
Qed.

Lemma computeLOD_ereal (c : RayCone ereal) (t : R) (rayDir normal : float3 R)
    (b : bool) :
  computeLOD c (EFin t) (efin3 rayDir) (efin3 normal) b
  = eadd (EFin t)
      (elog2 (ediv (eabs (getWidth c))
                   (EFin (normalTermR b rayDir normal)))).
Proof.
  unfold computeLOD.
  destruct (enormalTerm b rayDir normal) as [-> _]. reflexivity.
Qed.

(** C7. In exact arithmetic with the IEEE 754 special values, for a finite
    triLODConstant, finite rayDir and normal and both settings of
    moreDetailOnSlopes: computeLOD is non-decreasing in the absolute width of
    the cone, for every two cones (zero and infinite widths included), unless
    the narrower cone has width zero while dot(rayDir, normal) = 0; for a
    fixed cone whose width is not a NaN it does not decrease when
    |dot(rayDir, normal)| decreases, unless the width is zero and the smaller
    dot product is 0; and in the excluded case, a zero width with
    dot(rayDir, normal) = 0, the level of detail is a NaN. *)
Theorem computeLOD_monotone_extended (t : R) (b : bool) :
  (forall (c1 c2 : RayCone ereal) (rayDir normal : float3 R),
     ele (fabs (getWidth c1)) (fabs (getWidth c2)) ->
     ~ (eis_zero (getWidth c1) = true /\ Rdot3 rayDir normal = 0%R) ->
     ele (computeLOD c1 (EFin t) (efin3 rayDir) (efin3 normal) b)
         (computeLOD c2 (EFin t) (efin3 rayDir) (efin3 normal) b))
  /\ (forall (c : RayCone ereal) (d1 n1 d2 n2 : float3 R),
        (Rabs (Rdot3 d2 n2) <= Rabs (Rdot3 d1 n1))%R ->
        getWidth c <> ENaN ->
        ~ (eis_zero (getWidth c) = true /\ Rdot3 d2 n2 = 0%R) ->
        ele (computeLOD c (EFin t) (efin3 d1) (efin3 n1) b)
            (computeLOD c (EFin t) (efin3 d2) (efin3 n2) b))
  /\ (forall (c : RayCone ereal) (rayDir normal : float3 R),
        eis_zero (getWidth c) = true -> Rdot3 rayDir normal = 0%R ->
        computeLOD c (EFin t) (efin3 rayDir) (efin3 normal) b = ENaN).
Proof.
  split; [| split].
  - intros c1 c2 rayDir normal Hle Hex.
    rewrite !computeLOD_ereal.
    destruct (enormalTerm b rayDir normal) as [_ [Hnt Hnt0]].
    set (nt := normalTermR b rayDir normal) in *.
    change (fabs (getWidth c1)) with (eabs (getWidth c1)) in Hle.
    change (fabs (getWidth c2)) with (eabs (getWidth c2)) in Hle.
    destruct (eabs_cases (getWidth c1)) as [H1 | [H1 | [a1 [Ha1 [H1 Hz1]]]]];
      rewrite H1 in *.
    + contradiction.
    + destruct (eabs_cases (getWidth c2)) as [H2 | [H2 | [a2 [Ha2 [H2 _]]]]];
        rewrite H2 in *; try contradiction.
      cbn [ediv esignbit xorb elog2 eadd].
      destruct (Rlt_dec nt 0); [exfalso; lra |]. exact I.
    + destruct (elod_finite_width t a1 nt Ha1 Hnt) as [_ [E1 [E2 E3]]].
      cbv zeta in E1, E2, E3.
      destruct (eabs_cases (getWidth c2)) as [H2 | [H2 | [a2 [Ha2 [H2 _]]]]];
        rewrite H2 in *; try contradiction.
      * (* the wider cone has an infinite width *)
        assert (H2inf : eadd (EFin t) (elog2 (ediv (EInf false) (EFin nt)))
                        = EInf false).
        { cbn [ediv esignbit xorb elog2 eadd].
          destruct (Rlt_dec nt 0); [exfalso; lra | reflexivity]. }
        rewrite H2inf.
        destruct (Req_dec nt 0) as [Hn | Hn];
          destruct (Req_dec a1 0) as [Ha | Ha].
        -- exfalso. apply Hex. split; [apply Hz1; exact Ha | apply Hnt0; exact Hn].
        -- rewrite (E1 Hn Ha). exact I.
        -- rewrite (E2 Hn Ha). exact I.
        -- rewrite (E3 Hn Ha). exact I.
      * cbn [ele evalue] in Hle.
        destruct (elod_finite_width t a2 nt Ha2 Hnt) as [_ [F1 [F2 F3]]].
        cbv zeta in F1, F2, F3.
        destruct (Req_dec nt 0) as [Hn | Hn];
          destruct (Req_dec a1 0) as [Ha | Ha].
        -- exfalso. apply Hex. split; [apply Hz1; exact Ha | apply Hnt0; exact Hn].
        -- assert (Ha2' : a2 <> 0%R) by lra.
           rewrite (E1 Hn Ha), (F1 Hn Ha2'). exact I.
        -- rewrite (E2 Hn Ha).
           destruct (Req_dec a2 0) as [Hb | Hb].
           ++ rewrite (F2 Hn Hb). exact I.
           ++ rewrite (F3 Hn Hb). exact I.
        -- assert (Ha2' : a2 <> 0%R) by lra.
           rewrite (E3 Hn Ha), (F3 Hn Ha2'). cbn [ele evalue].
           apply Rplus_le_compat_l, Rlog2_le. split.
           ++ apply Rdiv_lt_0_compat; lra.
           ++ apply Rmult_le_compat_r; [| exact Hle].
              left. apply Rinv_0_lt_compat. lra.
  - intros c d1 n1 d2 n2 Hle Hnan Hex.
    rewrite !computeLOD_ereal.
    destruct (enormalTerm b d1 n1) as [_ [Hnt1 Hz1]].
    destruct (enormalTerm b d2 n2) as [_ [Hnt2 Hz2]].
    pose proof (normalTermR_mono b d1 n1 d2 n2 Hle) as Hmono.
    set (nt1 := normalTermR b d1 n1) in *.
    set (nt2 := normalTermR b d2 n2) in *.
    destruct (eabs_cases (getWidth c)) as [H | [H | [a [Ha [H Hz]]]]];
      rewrite H.
    + exfalso. apply Hnan. destruct (getWidth c); try discriminate.
      reflexivity.
    + cbn [ediv esignbit xorb elog2 eadd].
      destruct (Rlt_dec nt1 0); [exfalso; lra |].
      destruct (Rlt_dec nt2 0); [exfalso; lra |]. exact I.
    + destruct (elod_finite_width t a nt1 Ha Hnt1) as [E0 [E1 [E2 E3]]].
      destruct (elod_finite_width t a nt2 Ha Hnt2) as [F0 [F1 [F2 F3]]].
      cbv zeta in E0, E1, E2, E3, F0, F1, F2, F3.
      destruct (Req_dec a 0) as [Ha0 | Ha0].
      * assert (Hn2 : nt2 <> 0%R).
        { intros Hn. apply Hex.
          split; [apply Hz; exact Ha0 | apply Hz2; exact Hn]. }
        assert (Hn1 : nt1 <> 0%R) by lra.
        rewrite (E2 Hn1 Ha0), (F2 Hn2 Ha0). exact I.
      * destruct (Req_dec nt2 0) as [Hn2 | Hn2].
        -- rewrite (F1 Hn2 Ha0).
           destruct (Req_dec nt1 0) as [Hn1 | Hn1].
           ++ rewrite (E1 Hn1 Ha0). exact I.
           ++ rewrite (E3 Hn1 Ha0). exact I.
        -- assert (Hn1 : nt1 <> 0%R) by lra.
           rewrite (E3 Hn1 Ha0), (F3 Hn2 Ha0). cbn [ele evalue].
           apply Rplus_le_compat_l, Rlog2_le. split.
           ++ apply Rdiv_lt_0_compat; lra.
           ++ apply Rmult_le_compat_l; [lra |].
              apply Rinv_le_contravar; lra.
  - intros c rayDir normal Hzero Hdot.
    rewrite computeLOD_ereal.
    destruct (enormalTerm b rayDir normal) as [_ [Hnt Hnt0]].
    destruct (eabs_cases (getWidth c)) as [H | [H | [a [Ha [H Hz]]]]].
    + destruct (getWidth c); discriminate.
    + destruct (getWidth c); discriminate.
    + rewrite H.
      destruct (elod_finite_width t a (normalTermR b rayDir normal) Ha Hnt)
        as [E0 _].
      apply E0; [apply Hnt0; exact Hdot | apply Hz; exact Hzero].
Qed.

Lemma computeLOD_monotone_extended_witness :
  let d1 := (mkFloat3 0 0 (-1))%R in
  let d2 := (mkFloat3 1 0 0)%R in
  let n := (mkFloat3 0 0 1)%R in
  ele (computeLOD (econe (EFin 0) (EFin 0)) (EFin 0) (efin3 d1) (efin3 n) false)
      (computeLOD (econe (EInf false) (EFin 0)) (EFin 0) (efin3 d1) (efin3 n)
         false)
  /\ ele (computeLOD (econe (EFin (1 / 50)) (EFin 0)) (EFin 0) (efin3 d1)
            (efin3 n) false)
         (computeLOD (econe (EFin (1 / 50)) (EFin 0)) (EFin 0) (efin3 d2)
            (efin3 n) false)
  /\ computeLOD (econe ENegZero (EFin 0)) (EFin 0) (efin3 d2) (efin3 n) false
     = ENaN.
Proof.
  intros d1 d2 n.
  destruct (computeLOD_monotone_extended 0 false) as [Hwidth [Hgrazing Hnan]].
  split; [| split].
  - apply Hwidth.
    + exact I.
    + intros [_ Hdot]. unfold Rdot3, d1, n in Hdot. cbn [x3 y3 z3] in Hdot. lra.
  - apply Hgrazing.
    + unfold Rdot3, d1, d2, n; cbn [x3 y3 z3].
      unfold Rabs. repeat destruct (Rcase_abs _); lra.
    + discriminate.
    + intros [Hz _]. cbn in Hz.
      destruct (Req_dec_T (1 / 50) 0) as [H | _]; [lra | discriminate].
  - apply Hnan.
    + reflexivity.
    + unfold Rdot3, d2, n; cbn [x3 y3 z3]. ring.
Defined.

(* For two cones with |width1| = 0 <= 1 = |width2| and a ray perpendicular to
   the normal, the first level of detail is a NaN and the second is +inf:
   lambda1 <= lambda2 does not hold. *)
Lemma computeLOD_zero_width_grazing_unordered :
  let d := (mkFloat3 1 0 0)%R in
  let n := (mkFloat3 0 0 1)%R in
  let lambda1 :=
    computeLOD (econe (EFin 0) (EFin 0)) (EFin 0) (efin3 d) (efin3 n) false in
  let lambda2 :=
    computeLOD (econe (EFin 1) (EFin 0)) (EFin 0) (efin3 d) (efin3 n) false in
  ele (fabs (EFin 0)) (fabs (EFin 1))
  /\ lambda1 = ENaN /\ lambda2 = EInf false
  /\ (ele lambda1 lambda2 -> False).
Proof.
  intros d n lambda1 lambda2.
  assert (Hnt : normalTermR false d n = 0%R).
  { unfold normalTermR, Rdot3, d, n. cbn [x3 y3 z3].
    replace (1 * 0 + 0 * 0 + 0 * 1)%R with 0%R by ring. apply Rabs_R0. }
  assert (H1 : lambda1 = ENaN).
  { unfold lambda1. rewrite computeLOD_ereal, Hnt.
    cbn [getWidth f16tof32 ereal_Arith econe widthFP16 eabs].
    rewrite Rabs_R0.
    destruct (elod_finite_width 0 0 0) as [E0 _]; try lra.
    apply E0; reflexivity. }
  assert (H2 : lambda2 = EInf false).
  { unfold lambda2. rewrite computeLOD_ereal, Hnt.
    cbn [getWidth f16tof32 ereal_Arith econe widthFP16 eabs].
    rewrite Rabs_R1.
    destruct (elod_finite_width 0 1 0) as [_ [E1 _]]; try lra.
    apply E1; [reflexivity | lra]. }
  split; [| split; [exact H1 | split; [exact H2 |]]].
  - cbn [fabs ereal_Arith eabs ele evalue]. rewrite Rabs_R0, Rabs_R1. lra.
  - rewrite H1. cbn [ele]. intros H. exact H.
Qed.

(** ** Evaluation on finite vectors *)

Lemma lit_fin (q : Q) : lit q = fin (Q2R q).
Proof. reflexivity. Qed.

Lemma add_fin (a b : R) : add (fin a) (fin b) = fin (a + b).
Proof. reflexivity. Qed.

Lemma sub_fin (a b : R) : sub (fin a) (fin b) = fin (a - b).
Proof. reflexivity. Qed.

Lemma mul_fin (a b : R) : mul (fin a) (fin b) = fin (a * b).
Proof. reflexivity. Qed.

Lemma neg_fin (a : R) : neg (fin a) = fin (- a).
Proof. reflexivity. Qed.

Lemma fabs_fin (a : R) : fabs (fin a) = fin (Rabs a).
Proof. reflexivity. Qed.

Lemma fmax_fin (a b : R) : fmax (fin a) (fin b) = fin (Rmax a b).
Proof. reflexivity. Qed.

Lemma fmin_fin (a b : R) : fmin (fin a) (fin b) = fin (Rmin a b).
Proof. reflexivity. Qed.

Lemma fsign_fin (a : R) : fsign (fin a) = fin (Rsign a).
Proof. reflexivity. Qed.

Lemma div_fin (a b : R) : b <> 0%R -> div (fin a) (fin b) = fin (a / b).
Proof. apply xdiv_fin. Qed.

Lemma fsqrt_fin (a : R) : (0 <= a)%R -> fsqrt (fin a) = fin (sqrt a).
Proof. apply xsqrt_fin. Qed.

Lemma add3_fin (a b : float3 R) : add3 (fin3 a) (fin3 b) = fin3 (Radd3 a b).
Proof. reflexivity. Qed.

Lemma sub3_fin (a b : float3 R) : sub3 (fin3 a) (fin3 b) = fin3 (Rsub3 a b).
Proof. reflexivity. Qed.

Lemma scale3_fin (a : float3 R) (s : R) :
  scale3 (fin3 a) (fin s) = fin3 (Rscale3 a s).
Proof. reflexivity. Qed.

Lemma lscale3_fin (s : R) (a : float3 R) :
  lscale3 (fin s) (fin3 a) = fin3 (Rlscale3 s a).
Proof. reflexivity. Qed.

Lemma dot3_fin (a b : float3 R) : dot3 (fin3 a) (fin3 b) = fin (Rdot3 a b).
Proof. reflexivity. Qed.

Lemma cross_fin (a b : float3 R) : cross (fin3 a) (fin3 b) = fin3 (Rcross a b).
Proof. reflexivity. Qed.

Lemma Rdot3_self_nonneg (a : float3 R) : (0 <= Rdot3 a a)%R.
Proof. unfold Rdot3. nra. Qed.

Lemma length3_fin (a : float3 R) : length3 (fin3 a) = fin (Rlength3 a).
Proof.
  unfold length3. rewrite dot3_fin. apply fsqrt_fin, Rdot3_self_nonneg.
Qed.

Lemma divs3_fin (a : float3 R) (s : R) :
  s <> 0%R -> divs3 (fin3 a) (fin s) = fin3 (Rdivs3 a s).
Proof.
  intros Hs. unfold divs3, fin3, Rdivs3; cbn [x3 y3 z3].
  rewrite !div_fin by exact Hs. reflexivity.
Qed.

Lemma add2_fin (a b : float2 R) : add2 (fin2 a) (fin2 b) = fin2 (Radd2 a b).
Proof. reflexivity. Qed.

Lemma sub2_fin (a b : float2 R) : sub2 (fin2 a) (fin2 b) = fin2 (Rsub2 a b).
Proof. reflexivity. Qed.

Lemma lscale2_fin (s : R) (a : float2 R) :
  lscale2 (fin s) (fin2 a) = fin2 (Rscale2 s a).
Proof. reflexivity. Qed.

Lemma floor_pos (len : R) : Rmax (1 / 10000) len <> 0%R.
Proof.
  pose proof (Rmax_l (1 / 10000) len). lra.
Qed.

(** ** computeAnisotropicEllipseAxes *)

(* The two axis scalings are always defined on finite inputs: their
   denominators are floored at 0.0001. *)
Lemma ellipseAxes_guarded_scale (radius len : R) :
  div (fin radius) (fmax (lit 0.0001) (fin len))
  = fin (radius / Rmax (1 / 10000) len)
  /\ (1 / 10000 <= Rmax (1 / 10000) len)%R.
Proof.
  rewrite lit_fin, fmax_fin, Q2R_1em4.
  split; [apply div_fin, floor_pos | apply Rmax_l].
Qed.

Lemma computeAnisotropicEllipseAxes_fin
    (intersectionPoint faceNormal rayConeDir : float3 R) (radius : R)
    (positions : array3 (float3 R)) (txcoords : array3 (float2 R))
    (interpolated : float2 R) :
  triangleDenominator faceNormal positions <> 0%R ->
  computeAnisotropicEllipseAxes (fin3 intersectionPoint) (fin3 faceNormal)
    (fin3 rayConeDir) (fin radius) (finArray3 positions) (finArray2 txcoords)
    (fin2 interpolated)
  = (fin2 (Rsub2 (interpolateAt faceNormal positions txcoords intersectionPoint
                    (ellipseAxis0R faceNormal rayConeDir radius))
                 interpolated),
     fin2 (Rsub2 (interpolateAt faceNormal positions txcoords intersectionPoint
                    (ellipseAxis1R faceNormal rayConeDir radius))
                 interpolated)).
Proof.
  intros Htri. unfold triangleDenominator in Htri.
  unfold computeAnisotropicEllipseAxes, finArray3, finArray2.
  cbn [elt0 elt1 elt2].
  rewrite !dot3_fin, !lscale3_fin, !sub3_fin.
  rewrite !dot3_fin, !lscale3_fin, !sub3_fin, !length3_fin.
  destruct (ellipseAxes_guarded_scale radius
    (Rlength3 (Rsub3 (Rsub3 rayConeDir (Rlscale3 (Rdot3 faceNormal rayConeDir) faceNormal))
       (Rlscale3 (Rdot3 rayConeDir (Rsub3 rayConeDir (Rlscale3 (Rdot3 faceNormal rayConeDir) faceNormal))) rayConeDir))))
    as [-> _].
  rewrite !scale3_fin.
  fold (ellipseAxis0R faceNormal rayConeDir radius).
  rewrite !cross_fin, !dot3_fin, !lscale3_fin, !sub3_fin, !length3_fin.
  fold (rayDirPlaneProjection1R faceNormal rayConeDir radius).
  destruct (ellipseAxes_guarded_scale radius
    (Rlength3 (rayDirPlaneProjection1R faceNormal rayConeDir radius))) as [-> _].
  rewrite !scale3_fin.
  fold (ellipseAxis1R faceNormal rayConeDir radius).
  rewrite !add3_fin, !cross_fin, !dot3_fin.
  rewrite lit_fin, Q2R_1, !div_fin by exact Htri.
  rewrite !mul_fin, !sub_fin, !lscale2_fin, !add2_fin, !sub2_fin.
  reflexivity.
Qed.

(** C1. The max(0.0001, .) floors of computeAnisotropicEllipseAxes guard the
    two axis-scale divisions, not the denominator derived from the triangle.
    In exact arithmetic on finite inputs: when
    dot(faceNormal, cross(edge01, edge02)) is non-zero, whatever the lengths
    of the two projections, the gradients are finite and are the texture
    coordinates interpolated at intersectionPoint + axis minus the
    interpolated ones, with the axes scaled by
    radius / max(0.0001, length of the projection); when it is zero, every
    component of both gradients is invalid.  In binary32 a non-zero
    denominator is not enough: for the triangle with legs 2^-65 the
    denominator is 2^-130, its reciprocal overflows and every component of
    both gradients is a NaN. *)
Theorem ellipseAxes_finite_iff_triangle :
  (forall (intersectionPoint faceNormal rayConeDir : float3 R) (radius : R)
          (positions : array3 (float3 R)) (txcoords : array3 (float2 R))
          (interpolated : float2 R),
     let result :=
       computeAnisotropicEllipseAxes (fin3 intersectionPoint)
         (fin3 faceNormal) (fin3 rayConeDir) (fin radius)
         (finArray3 positions) (finArray2 txcoords) (fin2 interpolated) in
     (triangleDenominator faceNormal positions <> 0%R ->
      result
      = (fin2 (Rsub2 (interpolateAt faceNormal positions txcoords
                        intersectionPoint
                        (ellipseAxis0R faceNormal rayConeDir radius))
                     interpolated),
         fin2 (Rsub2 (interpolateAt faceNormal positions txcoords
                        intersectionPoint
                        (ellipseAxis1R faceNormal rayConeDir radius))
                     interpolated)))
     /\ (triangleDenominator faceNormal positions = 0%R ->
         result = (nan2, nan2)))
  /\ (let leg := S754_finite false 8388608 (-88) in
      let positions :=
        mkArray3 (b32_vec3 0 0 0)
          (mkFloat3 leg (b32_of_Z 0) (b32_of_Z 0))
          (mkFloat3 (b32_of_Z 0) leg (b32_of_Z 0)) in
      dot3 (b32_vec3 0 0 1)
        (cross (sub3 (elt1 positions) (elt0 positions))
               (sub3 (elt2 positions) (elt0 positions)))
      = S754_finite false 524288 (-149)
      /\ computeAnisotropicEllipseAxes (b32_vec3 0 0 0) (b32_vec3 0 0 1)
           (mkFloat3 (lit 0.6) (lit 0) (lit (-0.8))) (lit 0.01) positions
           (mkArray3 (b32_vec2 0 0) (b32_vec2 1 0) (b32_vec2 0 1))
           (b32_vec2 0 0)
         = (mkFloat2 S754_nan S754_nan, mkFloat2 S754_nan S754_nan)).
Proof.
  split.
  - intros intersectionPoint faceNormal rayConeDir radius positions txcoords
      interpolated result.
    split.
    + intros Htri. unfold result.
      apply computeAnisotropicEllipseAxes_fin. exact Htri.
    + intros Htri. unfold result, triangleDenominator in *.
      unfold computeAnisotropicEllipseAxes, finArray3, finArray2.
      cbn [elt0 elt1 elt2].
      rewrite !sub3_fin.
      rewrite (cross_fin (Rsub3 (elt1 positions) (elt0 positions))
                         (Rsub3 (elt2 positions) (elt0 positions))).
      rewrite (dot3_fin faceNormal
                 (Rcross (Rsub3 (elt1 positions) (elt0 positions))
                         (Rsub3 (elt2 positions) (elt0 positions)))).
      rewrite Htri, lit_fin.
      replace (div (fin (Q2R 1)) (fin 0)) with (@None R)
        by (symmetry; apply xdiv_zero).
      unfold nan2, sub2, add2, lscale2. cbn [x2 y2].
      destruct (dot3 _ _), (dot3 _ _), (dot3 _ _), (dot3 _ _); reflexivity.
  - vm_compute. split; reflexivity.
Qed.

Lemma ellipseAxes_finite_iff_triangle_witness :
  let p := mkArray3 (mkFloat3 0 0 0)%R (mkFloat3 1 0 0)%R (mkFloat3 0 1 0)%R in
  let q := mkArray3 (mkFloat3 0 0 0)%R (mkFloat3 1 0 0)%R (mkFloat3 2 0 0)%R in
  let t := mkArray3 (mkFloat2 0 0)%R (mkFloat2 1 0)%R (mkFloat2 0 1)%R in
  let n := (mkFloat3 0 0 1)%R in
  let d := (mkFloat3 (3 / 5) 0 (-4 / 5))%R in
  let o := (mkFloat3 0 0 0)%R in
  computeAnisotropicEllipseAxes (fin3 o) (fin3 n) (fin3 d)
    (fin 1) (finArray3 p) (finArray2 t) (fin2 (mkFloat2 0 0)%R)
  = (fin2 (Rsub2 (interpolateAt n p t o (ellipseAxis0R n d 1))
                 (mkFloat2 0 0)%R),
     fin2 (Rsub2 (interpolateAt n p t o (ellipseAxis1R n d 1))
                 (mkFloat2 0 0)%R))
  /\ computeAnisotropicEllipseAxes (fin3 o) (fin3 n) (fin3 d)
       (fin 1) (finArray3 q) (finArray2 t) (fin2 (mkFloat2 0 0)%R)
     = (nan2, nan2).
Proof.
  intros p q t n d o.
  destruct ellipseAxes_finite_iff_triangle as [Hexact _].
  split.
  - apply (Hexact o n d 1%R p t (mkFloat2 0 0)%R).
    unfold triangleDenominator, Rdot3, Rcross, Rsub3;
      cbn [x3 y3 z3 elt0 elt1 elt2 p n].
    lra.
  - apply (Hexact o n d 1%R q t (mkFloat2 0 0)%R).
    unfold triangleDenominator, Rdot3, Rcross, Rsub3;
      cbn [x3 y3 z3 elt0 elt1 elt2 q n].
    lra.
Defined.

(** C1, counterexample: in binary32, for the zero-area triangle
    (0,0,0), (1,0,0), (2,0,0) the reciprocal 1 / dot(faceNormal,
    cross(edge01, edge02)) is taken of zero and every component of both
    returned gradients is NaN. *)
Lemma ellipseAxes_degenerate_triangle_nan :
  computeAnisotropicEllipseAxes (b32_vec3 0 0 0) (b32_vec3 0 0 1)
    (mkFloat3 (lit 0.6) (lit 0) (lit (-0.8))) (lit 0.01)
    (mkArray3 (b32_vec3 0 0 0) (b32_vec3 1 0 0) (b32_vec3 2 0 0))
    (mkArray3 (b32_vec2 0 0) (b32_vec2 1 0) (b32_vec2 0 1))
    (b32_vec2 0 0)
  = (mkFloat2 S754_nan S754_nan, mkFloat2 S754_nan S754_nan).
Proof. vm_compute. reflexivity. Qed.

(** ** Scaling of the footprint with the cone radius *)




Lemma Rlength3_lscale (s : R) (a : float3 R) :
  (0 <= s)%R -> Rlength3 (Rlscale3 s a) = (s * Rlength3 a)%R.
Proof.
  intros Hs. unfold Rlength3.
  replace (Rdot3 (Rlscale3 s a) (Rlscale3 s a)) with (s * s * Rdot3 a a)%R
    by (unfold Rdot3, Rlscale3; cbn [x3 y3 z3]; ring).
  rewrite sqrt_mult by (try apply Rdot3_self_nonneg; nra).
  rewrite sqrt_square by exact Hs. reflexivity.
Qed.








(** ** Curvature estimators at zero curvature *)

Lemma Average_zero (self : TriangleCurvature_Average)
    (edge01 edge02 edge12 : float3 xreal) :
  eval self edge01 edge02 edge12 (fin 0) (fin 0) (fin 0) = fin 0.
Proof.
  cbn [eval Average_estimator]. unfold TriangleCurvature_Average_eval.
  rewrite !add_fin, lit_fin, Q2R_3, div_fin by lra. unfold fin. f_equal. lra.
Qed.

Lemma Max_zero (self : TriangleCurvature_Max)
    (edge01 edge02 edge12 : float3 xreal) :
  eval self edge01 edge02 edge12 (fin 0) (fin 0) (fin 0) = fin 0.
Proof.
  cbn [eval Max_estimator]. unfold TriangleCurvature_Max_eval.
  rewrite !fmin_fin, !fmax_fin, fabs_fin.
  replace (Rmin 0 (Rmin 0 0)) with 0%R by (unfold Rmin; repeat destruct (Rle_dec _ _); lra).
  replace (Rmax 0 (Rmax 0 0)) with 0%R by (unfold Rmax; repeat destruct (Rle_dec _ _); lra).
  destruct (ltb _ _); reflexivity.
Qed.

Lemma Rlength3_nonzero (e : float3 R) : Rdot3 e e <> 0%R -> Rlength3 e <> 0%R.
Proof.
  intros He Hz. unfold Rlength3 in Hz.
  apply sqrt_eq_0 in Hz; [contradiction | apply Rdot3_self_nonneg].
Qed.

Lemma Rlength3_pos (e : float3 R) : Rdot3 e e <> 0%R -> (0 < Rlength3 e)%R.
Proof.
  intros He. pose proof (Rlength3_nonzero e He).
  pose proof (sqrt_pos (Rdot3 e e)). unfold Rlength3 in *. lra.
Qed.

Lemma normalize3_fin (e : float3 R) :
  Rdot3 e e <> 0%R ->
  normalize3 (fin3 e) = fin3 (Rdivs3 e (Rlength3 e)).
Proof.
  intros He. unfold normalize3. rewrite length3_fin.
  apply divs3_fin, Rlength3_nonzero, He.
Qed.

Lemma Rdot3_divs (d e : float3 R) (l : R) :
  l <> 0%R -> Rdot3 d (Rdivs3 e l) = (Rdot3 d e / l)%R.
Proof.
  intros Hl. unfold Rdot3, Rdivs3; cbn [x3 y3 z3]. field. exact Hl.
Qed.

Lemma edgeCosine_fin (rayDir edge : float3 R) :
  Rdot3 edge edge <> 0%R ->
  fabs (dot3 (fin3 rayDir) (normalize3 (fin3 edge)))
  = fin (edgeCosine rayDir edge).
Proof.
  intros He. rewrite normalize3_fin by exact He.
  rewrite dot3_fin, fabs_fin. reflexivity.
Qed.

Lemma edgeCosine_nonneg (rayDir edge : float3 R) : (0 <= edgeCosine rayDir edge)%R.
Proof. apply Rabs_pos. Qed.

Lemma edgeCosine_zero (rayDir edge : float3 R) :
  Rdot3 edge edge <> 0%R ->
  edgeCosine rayDir edge = 0%R -> Rdot3 rayDir edge = 0%R.
Proof.
  intros He Hz. unfold edgeCosine in Hz.
  rewrite Rdot3_divs in Hz by (apply Rlength3_nonzero, He).
  pose proof (Rlength3_pos edge He) as Hl.
  destruct (Req_dec (Rdot3 rayDir edge) 0) as [H0 | Hn]; [exact H0 |].
  exfalso. apply (Rabs_no_R0 (Rdot3 rayDir edge / Rlength3 edge)); [| exact Hz].
  unfold Rdiv. apply Rmult_integral_contrapositive_currified;
    [exact Hn | apply Rinv_neq_0_compat; lra].
Qed.

Lemma zero_weighted_quotient (a b : R) :
  (a + b)%R <> 0%R ->
  div (add (mul (fin 0) (fin a)) (mul (fin 0) (fin b))) (add (fin a) (fin b))
  = fin 0.
Proof.
  intros Hab. rewrite !mul_fin, !add_fin, div_fin by exact Hab.
  unfold fin. f_equal. field. exact Hab.
Qed.

Lemma ltb_fin_cases (a b : R) :
  (ltb (fin a) (fin b) = true /\ (a < b)%R)
  \/ (ltb (fin a) (fin b) = false /\ (b <= a)%R).
Proof.
  destruct (Rlt_dec a b) as [Hlt | Hge].
  - left. split; [apply xltb_true; exact Hlt | exact Hlt].
  - right. split; [apply xltb_false; lra | lra].
Qed.

Lemma DirClosestDP_zero (rayDir edge01 edge02 edge12 : float3 R) :
  Rdot3 edge01 edge01 <> 0%R -> Rdot3 edge02 edge02 <> 0%R ->
  Rdot3 edge12 edge12 <> 0%R ->
  Rdot3 rayDir edge01 <> 0%R \/ Rdot3 rayDir edge02 <> 0%R
    \/ Rdot3 rayDir edge12 <> 0%R ->
  eval {| DirClosestDP_rayDir := fin3 rayDir |}
    (fin3 edge01) (fin3 edge02) (fin3 edge12) (fin 0) (fin 0) (fin 0)
  = fin 0.
Proof.
  intros H01 H02 H12 Hperp.
  cbn [eval DirClosestDP_estimator].
  unfold TriangleCurvature_DirClosestDP_eval. cbn [DirClosestDP_rayDir].
  rewrite !edgeCosine_fin by assumption.
  pose proof (edgeCosine_nonneg rayDir edge01) as P01.
  pose proof (edgeCosine_nonneg rayDir edge02) as P02.
  pose proof (edgeCosine_nonneg rayDir edge12) as P12.
  pose proof (edgeCosine_zero rayDir edge01 H01) as Z01.
  pose proof (edgeCosine_zero rayDir edge02 H02) as Z02.
  pose proof (edgeCosine_zero rayDir edge12 H12) as Z12.
  set (d01 := edgeCosine rayDir edge01) in *.
  set (d02 := edgeCosine rayDir edge02) in *.
  set (d12 := edgeCosine rayDir edge12) in *.
  destruct (ltb_fin_cases d01 d02) as [[-> L1] | [-> L1]];
    [destruct (ltb_fin_cases d01 d12) as [[-> L2] | [-> L2]]
    | destruct (ltb_fin_cases d02 d12) as [[-> L2] | [-> L2]]];
    apply zero_weighted_quotient; lra.
Qed.

(* Lagrange's identity. *)
Lemma Rcross_norm (a b : float3 R) :
  Rdot3 (Rcross a b) (Rcross a b)
  = (Rdot3 a a * Rdot3 b b - Rdot3 a b * Rdot3 a b)%R.
Proof. unfold Rdot3, Rcross; cbn [x3 y3 z3]. ring. Qed.

Lemma Rdot3_self_zero (a : float3 R) : Rdot3 a a = 0%R -> a = zeroR3.
Proof.
  destruct a as [x y z]. unfold Rdot3, zeroR3; cbn [x3 y3 z3]. intros Hz.
  assert (x = 0%R) by nra. assert (y = 0%R) by nra. assert (z = 0%R) by nra.
  subst. reflexivity.
Qed.

Lemma edgeCosine_eq (rayDir edge : float3 R) :
  Rdot3 edge edge <> 0%R ->
  edgeCosine rayDir edge = (Rabs (Rdot3 rayDir edge) / Rlength3 edge)%R.
Proof.
  intros He. pose proof (Rlength3_pos edge He) as Hl. unfold edgeCosine.
  rewrite Rdot3_divs by lra. unfold Rdiv.
  rewrite Rabs_mult, (Rabs_pos_eq (/ Rlength3 edge)); [reflexivity |].
  left. apply Rinv_0_lt_compat. exact Hl.
Qed.

Lemma Rlength3_sqr (e : float3 R) : (Rlength3 e * Rlength3 e = Rdot3 e e)%R.
Proof. unfold Rlength3. apply sqrt_sqrt, Rdot3_self_nonneg. Qed.

(* Cauchy-Schwarz for a unit ray direction. *)
Lemma edgeCosine_le_1 (rayDir edge : float3 R) :
  Rdot3 rayDir rayDir = 1%R -> Rdot3 edge edge <> 0%R ->
  (edgeCosine rayDir edge <= 1)%R.
Proof.
  intros Hd He. rewrite edgeCosine_eq by exact He.
  pose proof (Rlength3_pos edge He) as Hl.
  pose proof (Rlength3_sqr edge) as Hsq.
  pose proof (Rcross_norm rayDir edge) as Hlag.
  pose proof (Rdot3_self_nonneg (Rcross rayDir edge)) as Hnn.
  rewrite Hd in Hlag.
  apply Rmult_le_reg_r with (r := Rlength3 edge); [exact Hl |].
  unfold Rdiv. rewrite Rmult_assoc, Rinv_l, Rmult_1_r, Rmult_1_l by lra.
  unfold Rabs. destruct (Rcase_abs _); nra.
Qed.

Lemma edgeCosine_lt_1 (rayDir edge : float3 R) :
  Rdot3 rayDir rayDir = 1%R -> Rdot3 edge edge <> 0%R ->
  Rcross rayDir edge <> zeroR3 ->
  (edgeCosine rayDir edge < 1)%R.
Proof.
  intros Hd He Hpar.
  destruct (edgeCosine_le_1 rayDir edge Hd He) as [Hlt | Heq]; [exact Hlt |].
  exfalso. apply Hpar, Rdot3_self_zero.
  rewrite Rcross_norm, Hd.
  rewrite edgeCosine_eq in Heq by exact He.
  pose proof (Rlength3_pos edge He) as Hl.
  pose proof (Rlength3_sqr edge) as Hsq.
  assert (Habs : Rabs (Rdot3 rayDir edge) = Rlength3 edge).
  { apply (Rmult_eq_reg_r (/ Rlength3 edge)).
    - rewrite Rinv_r by lra. exact Heq.
    - apply Rinv_neq_0_compat. lra. }
  assert (Hx : (Rdot3 rayDir edge * Rdot3 rayDir edge
                = Rlength3 edge * Rlength3 edge)%R).
  { rewrite <- Habs. unfold Rabs. destruct (Rcase_abs _); ring. }
  lra.
Qed.

(* acos(|dot(usedDir, normalize(edge))|) on finite vectors *)
Lemma edgeAngle_fin (rayDir edge : float3 R) :
  Rdot3 rayDir rayDir = 1%R -> Rdot3 edge edge <> 0%R ->
  facos (fabs (dot3 (fin3 rayDir) (normalize3 (fin3 edge))))
  = fin (acos (edgeCosine rayDir edge))
  /\ (0 <= acos (edgeCosine rayDir edge))%R
  /\ (Rcross rayDir edge <> zeroR3 -> 0 < acos (edgeCosine rayDir edge))%R.
Proof.
  intros Hd He. rewrite edgeCosine_fin by exact He.
  pose proof (edgeCosine_nonneg rayDir edge) as H0.
  pose proof (edgeCosine_le_1 rayDir edge Hd He) as H1.
  split; [apply xacos_fin; lra |]. split.
  - apply acos_bound.
  - intros Hpar. pose proof (edgeCosine_lt_1 rayDir edge Hd He Hpar).
    apply acos_bound_lt. lra.
Qed.

Lemma zero_weighted_quotient_gen (a b c : R) :
  c <> 0%R ->
  div (add (mul (fin 0) (fin a)) (mul (fin 0) (fin b))) (fin c) = fin 0.
Proof.
  intros Hc. rewrite !mul_fin, !add_fin, div_fin by exact Hc.
  unfold fin. f_equal. field. exact Hc.
Qed.

Lemma Directional_zero (rayDir edge01 edge02 edge12 : float3 R) :
  Rdot3 rayDir rayDir = 1%R ->
  Rdot3 edge01 edge01 <> 0%R -> Rdot3 edge02 edge02 <> 0%R ->
  Rdot3 edge12 edge12 <> 0%R ->
  (Rcross rayDir edge01 <> zeroR3 \/ Rcross rayDir edge02 <> zeroR3) ->
  (Rcross rayDir edge01 <> zeroR3 \/ Rcross rayDir edge12 <> zeroR3) ->
  (Rcross rayDir edge02 <> zeroR3 \/ Rcross rayDir edge12 <> zeroR3) ->
  eval {| Directional_rayDir := fin3 rayDir |}
    (fin3 edge01) (fin3 edge02) (fin3 edge12) (fin 0) (fin 0) (fin 0)
  = fin 0.
Proof.
  intros Hd H01 H02 H12 Hp12 Hp13 Hp23.
  cbn [eval Directional_estimator].
  unfold TriangleCurvature_Directional_eval. cbn [Directional_rayDir].
  destruct (edgeAngle_fin rayDir edge01 Hd H01) as (-> & P01 & Z01).
  destruct (edgeAngle_fin rayDir edge02 Hd H02) as (-> & P02 & Z02).
  destruct (edgeAngle_fin rayDir edge12 Hd H12) as (-> & P12 & Z12).
  set (a01 := acos (edgeCosine rayDir edge01)) in *.
  set (a02 := acos (edgeCosine rayDir edge02)) in *.
  set (a12 := acos (edgeCosine rayDir edge12)) in *.
  assert (Q12 : (0 < a01 \/ 0 < a02)%R) by (destruct Hp12; auto).
  assert (Q13 : (0 < a01 \/ 0 < a12)%R) by (destruct Hp13; auto).
  assert (Q23 : (0 < a02 \/ 0 < a12)%R) by (destruct Hp23; auto).
  rewrite !add_fin.
  destruct (ltb_fin_cases a02 a01) as [[-> L1] | [-> L1]];
    [destruct (ltb_fin_cases a12 a01) as [[-> L2] | [-> L2]]
    | destruct (ltb_fin_cases a12 a02) as [[-> L2] | [-> L2]]];
    apply zero_weighted_quotient_gen; lra.
Qed.

(** ** The ellipse-based estimator at zero curvature *)

Lemma Rmin_000 : Rmin 0 (Rmin 0 0) = 0%R.
Proof. unfold Rmin; repeat destruct (Rle_dec _ _); lra. Qed.

Lemma Rmax_000 : Rmax 0 (Rmax 0 0) = 0%R.
Proof. unfold Rmax; repeat destruct (Rle_dec _ _); lra. Qed.

Lemma feqb_fin_refl (a : R) : feqb (fin a) (fin a) = true.
Proof. apply xeqb_refl. Qed.

Lemma Rdot3_scale_self (a : float3 R) (s : R) :
  Rdot3 (Rscale3 a s) (Rscale3 a s) = (s * s * Rdot3 a a)%R.
Proof. unfold Rdot3, Rscale3; cbn [x3 y3 z3]. ring. Qed.

Lemma Rdot3_comm (a b : float3 R) : Rdot3 a b = Rdot3 b a.
Proof. unfold Rdot3. ring. Qed.

Lemma normalize3_unit (v : float3 R) :
  Rdot3 v v <> 0%R ->
  Rdot3 (Rdivs3 v (Rlength3 v)) (Rdivs3 v (Rlength3 v)) = 1%R.
Proof.
  intros Hv. pose proof (Rlength3_pos v Hv) as Hl.
  pose proof (Rlength3_sqr v) as Hsq.
  replace (Rdot3 (Rdivs3 v (Rlength3 v)) (Rdivs3 v (Rlength3 v)))
    with (Rdot3 v v / (Rlength3 v * Rlength3 v))%R
    by (unfold Rdot3, Rdivs3; cbn [x3 y3 z3]; field; lra).
  rewrite Hsq. field. exact Hv.
Qed.

Ltac fin_simpl :=
  repeat (progress (rewrite ?dot3_fin, ?scale3_fin, ?lscale3_fin, ?sub3_fin,
                      ?add3_fin, ?cross_fin, ?length3_fin, ?mul_fin, ?add_fin,
                      ?sub_fin, ?neg_fin, ?fabs_fin, ?lit_fin, ?fmax_fin,
                      ?fmin_fin, ?fsign_fin)).

(* The tangent frame built from a unit normal n and a unit direction d:
   a1 is the tangential part of d and a2 = n x a1. *)
Lemma tangent_frame (n d : float3 R) :
  Rdot3 n n = 1%R -> Rdot3 d d = 1%R ->
  let c := Rdot3 n d in
  let a1 := Rsub3 d (Rscale3 n c) in
  let a2 := Rcross n a1 in
  Rdot3 a1 a1 = (1 - c * c)%R /\ Rdot3 d a1 = (1 - c * c)%R
  /\ Rdot3 n a1 = 0%R
  /\ Rdot3 a2 a2 = (1 - c * c)%R /\ Rdot3 d a2 = 0%R.
Proof.
  intros Hn Hd c a1 a2.
  assert (Hnd : Rdot3 d n = c) by apply Rdot3_comm.
  assert (H1 : Rdot3 a1 a1 = (1 - c * c)%R).
  { replace (Rdot3 a1 a1)
      with (Rdot3 d d - 2 * c * Rdot3 n d + c * c * Rdot3 n n)%R
      by (unfold a1, Rdot3, Rsub3, Rscale3; cbn [x3 y3 z3]; ring).
    rewrite Hn, Hd. fold c. ring. }
  assert (H2 : Rdot3 d a1 = (1 - c * c)%R).
  { replace (Rdot3 d a1) with (Rdot3 d d - c * Rdot3 d n)%R
      by (unfold a1, Rdot3, Rsub3, Rscale3; cbn [x3 y3 z3]; ring).
    rewrite Hd, Hnd. ring. }
  assert (H3 : Rdot3 n a1 = 0%R).
  { replace (Rdot3 n a1) with (Rdot3 n d - c * Rdot3 n n)%R
      by (unfold a1, Rdot3, Rsub3, Rscale3; cbn [x3 y3 z3]; ring).
    rewrite Hn. fold c. ring. }
  repeat split; try assumption.
  - unfold a2. rewrite Rcross_norm, Hn, H1, H3. ring.
  - unfold a2, a1, Rdot3, Rcross, Rsub3, Rscale3; cbn [x3 y3 z3]. ring.
Qed.

(* The squared length of the part of a orthogonal to the unit vector d. *)
Lemma rejection_norm (d a : float3 R) :
  Rdot3 d d = 1%R ->
  let p := Rsub3 a (Rlscale3 (Rdot3 d a) d) in
  Rdot3 p p = (Rdot3 a a - Rdot3 d a * Rdot3 d a)%R.
Proof.
  intros Hd p.
  replace (Rdot3 p p)
    with (Rdot3 a a - 2 * Rdot3 d a * Rdot3 d a
          + Rdot3 d a * Rdot3 d a * Rdot3 d d)%R
    by (unfold p, Rdot3, Rsub3, Rlscale3; cbn [x3 y3 z3]; ring).
  rewrite Hd. ring.
Qed.

(* The Gram determinant of (n, t, e). *)
Lemma triple_product_sqr (n t e : float3 R) :
  (Rdot3 (Rcross n t) e * Rdot3 (Rcross n t) e
   = Rdot3 n n * (Rdot3 t t * Rdot3 e e - Rdot3 t e * Rdot3 t e)
     - Rdot3 n t * (Rdot3 n t * Rdot3 e e - Rdot3 t e * Rdot3 n e)
     + Rdot3 n e * (Rdot3 n t * Rdot3 t e - Rdot3 t t * Rdot3 n e))%R.
Proof. unfold Rdot3, Rcross; cbn [x3 y3 z3]. ring. Qed.

Lemma normalize2_fin (X Y : R) :
  (X * X + Y * Y)%R <> 0%R ->
  normalize2 (mkFloat2 (fin X) (fin Y))
  = mkFloat2 (fin (X / sqrt (X * X + Y * Y)))
             (fin (Y / sqrt (X * X + Y * Y))).
Proof.
  intros Hnz. unfold normalize2, length2, dot2. cbn [x2 y2].
  rewrite !mul_fin, add_fin, fsqrt_fin by nra.
  assert (Hs : sqrt (X * X + Y * Y) <> 0%R).
  { intros Hz. apply sqrt_eq_0 in Hz; [contradiction | nra]. }
  rewrite !div_fin by exact Hs. reflexivity.
Qed.

Lemma scaled_sqr_nonzero (s x : R) :
  s <> 0%R -> (0 < x)%R -> (s * s * x)%R <> 0%R.
Proof.
  intros Hs Hx. assert (0 < s * s)%R by nra.
  pose proof (Rmult_lt_0_compat _ _ H Hx). lra.
Qed.

(* The radius of the ellipse along a tangent-space direction is defined. *)
Lemma ellipse_radius_defined (l1 l2 X Y : R) :
  (0 < l1)%R -> (0 < l2)%R -> (X * X + Y * Y)%R <> 0%R ->
  let L := sqrt (X * X + Y * Y) in
  (0 < l1 * l1 * (Y / L) * (Y / L) + l2 * l2 * (X / L) * (X / L))%R.
Proof.
  intros H1 H2 Hnz L.
  assert (HL : (0 < L)%R).
  { unfold L. apply sqrt_lt_R0. nra. }
  assert (Hx : (0 <= l2 * l2 * (X / L) * (X / L))%R).
  { replace (l2 * l2 * (X / L) * (X / L))%R
      with ((l2 * (X / L)) * (l2 * (X / L)))%R by ring. nra. }
  assert (Hy : (0 <= l1 * l1 * (Y / L) * (Y / L))%R).
  { replace (l1 * l1 * (Y / L) * (Y / L))%R
      with ((l1 * (Y / L)) * (l1 * (Y / L)))%R by ring. nra. }
  destruct (Req_dec X 0) as [HX | HX].
  - assert (HY : Y <> 0%R) by (intros ->; apply Hnz; rewrite HX; ring).
    assert (Hq : (Y / L)%R <> 0%R).
    { unfold Rdiv. apply Rmult_integral_contrapositive_currified;
        [exact HY | apply Rinv_neq_0_compat; lra]. }
    assert (0 < l1 * l1 * (Y / L) * (Y / L))%R.
    { replace (l1 * l1 * (Y / L) * (Y / L))%R
        with ((l1 * (Y / L)) * (l1 * (Y / L)))%R by ring.
      assert (l1 * (Y / L) <> 0)%R
        by (apply Rmult_integral_contrapositive_currified; lra).
      nra. }
    lra.
  - assert (Hq : (X / L)%R <> 0%R).
    { unfold Rdiv. apply Rmult_integral_contrapositive_currified;
        [exact HX | apply Rinv_neq_0_compat; lra]. }
    assert (0 < l2 * l2 * (X / L) * (X / L))%R.
    { replace (l2 * l2 * (X / L) * (X / L))%R
        with ((l2 * (X / L)) * (l2 * (X / L)))%R by ring.
      assert (l2 * (X / L) <> 0)%R
        by (apply Rmult_integral_contrapositive_currified; lra).
      nra. }
    lra.
Qed.

Lemma Rmax_same (a : R) : Rmax a a = a.
Proof. unfold Rmax. destruct (Rle_dec a a); reflexivity. Qed.

Lemma sum_sqr_zero (x y : R) : (x * x + y * y)%R = 0%R -> x = 0%R /\ y = 0%R.
Proof. intros Hz. split; nra. Qed.

(* The clamp of EllipseVis on a non-zero denominator. *)
Lemma clamp_nonzero (c : R) :
  c <> 0%R ->
  exists dn : R, dn <> 0%R
    /\ (if ltb (fin (Rabs (- c))) (fin (1 / 100000))
        then fin (Rsign (- c) * (1 / 100000))
        else fin (- c)) = fin dn.
Proof.
  intros Hc.
  destruct (ltb_fin_cases (Rabs (- c)) (1 / 100000)) as [[-> Hlt'] | [-> Hge']].
  - eexists; split; [| reflexivity].
    destruct (Rlt_dec 0 (- c)) as [Hp | Hnp].
    + rewrite Rsign_pos by exact Hp. lra.
    + rewrite Rsign_neg by lra. lra.
  - exists (- c)%R. split; [lra | reflexivity].
Qed.

Lemma EllipseVis_zero (rayDir edge01 edge02 edge12 : float3 R)
    (rayConeWidth rayConeAngle : R) :
  Rdot3 rayDir rayDir = 1%R ->
  rayConeWidth <> 0%R ->
  Rdot3 (Rcross edge01 edge02) rayDir <> 0%R ->
  Rcross (Rcross edge01 edge02) rayDir <> zeroR3 ->
  eval {| EllipseVis_rayDir := fin3 rayDir;
          EllipseVis_rayConeWidth := fin rayConeWidth;
          EllipseVis_rayConeAngle := fin rayConeAngle |}
    (fin3 edge01) (fin3 edge02) (fin3 edge12) (fin 0) (fin 0) (fin 0)
  = fin 0.
Proof.
  intros Hd Hw Hgraze Hnormal.
  cbn [eval EllipseVis_estimator].
  unfold TriangleCurvature_EllipseVis_eval.
  cbn [EllipseVis_rayDir EllipseVis_rayConeWidth EllipseVis_rayConeAngle].
  rewrite !fmin_fin, !fmax_fin, Rmin_000, Rmax_000, !feqb_fin_refl.
  rewrite !cross_fin.
  set (N := Rcross edge01 edge02) in *.
  assert (HN : Rdot3 N N <> 0%R).
  { intros Hz. apply Hgraze. rewrite (Rdot3_self_zero N Hz).
    unfold Rdot3, zeroR3; cbn [x3 y3 z3]. ring. }
  rewrite !normalize3_fin by exact HN.
  pose proof (normalize3_unit N HN) as Hn.
  pose proof (Rlength3_pos N HN) as HL.
  pose proof (Rlength3_sqr N) as HLsq.
  assert (Hc : Rdot3 (Rdivs3 N (Rlength3 N)) rayDir
               = (Rdot3 N rayDir / Rlength3 N)%R).
  { rewrite Rdot3_comm, Rdot3_divs by lra. rewrite (Rdot3_comm rayDir). reflexivity. }
  assert (Hne : Rdot3 (Rdivs3 N (Rlength3 N)) edge01 = 0%R).
  { rewrite Rdot3_comm, Rdot3_divs by lra.
    replace (Rdot3 edge01 N) with 0%R
      by (unfold N, Rdot3, Rcross; cbn [x3 y3 z3]; ring).
    unfold Rdiv. ring. }
  assert (He : Rdot3 edge01 edge01 <> 0%R).
  { intros Hz. apply HN. apply Rdot3_self_zero in Hz. unfold N. rewrite Hz.
    unfold Rdot3, Rcross, zeroR3; cbn [x3 y3 z3]. ring. }
  assert (Hlt : (Rdot3 N rayDir * Rdot3 N rayDir < Rdot3 N N)%R).
  { pose proof (Rcross_norm N rayDir) as Hlag. rewrite Hd in Hlag.
    pose proof (Rdot3_self_nonneg (Rcross N rayDir)) as Hnn.
    assert (Rdot3 (Rcross N rayDir) (Rcross N rayDir) <> 0%R).
    { intros Hz. apply Hnormal, Rdot3_self_zero, Hz. }
    lra. }
  set (n := Rdivs3 N (Rlength3 N)) in *.
  destruct (tangent_frame n rayDir Hn Hd) as (Ha1 & Hda1 & Hna1 & Ha2 & Hda2).
  fin_simpl.
  set (c := Rdot3 n rayDir) in *.
  assert (Hc0 : c <> 0%R).
  { rewrite Hc. unfold Rdiv.
    apply Rmult_integral_contrapositive_currified;
      [exact Hgraze | apply Rinv_neq_0_compat; lra]. }
  assert (Hc1 : (0 < 1 - c * c)%R).
  { rewrite Hc.
    replace (Rdot3 N rayDir / Rlength3 N * (Rdot3 N rayDir / Rlength3 N))%R
      with (Rdot3 N rayDir * Rdot3 N rayDir / (Rlength3 N * Rlength3 N))%R
      by (field; lra).
    rewrite HLsq.
    assert (Hq : (Rdot3 N rayDir * Rdot3 N rayDir / Rdot3 N N < 1)%R).
    { pose proof (Rdot3_self_nonneg N).
      apply Rmult_lt_reg_r with (r := Rdot3 N N); [lra |].
      unfold Rdiv. rewrite Rmult_assoc, Rinv_l by exact HN. lra. }
    lra. }
  set (a1 := Rsub3 rayDir (Rscale3 n c)) in *.
  set (a2 := Rcross n a1) in *.
  set (r := (rayConeWidth * Q2R 0.5)%R) in *.
  assert (Hr : r <> 0%R).
  { unfold r. rewrite Q2R_half. lra. }
  pose proof (rejection_norm rayDir a1 Hd) as Hp1.
  pose proof (rejection_norm rayDir a2 Hd) as Hp2.
  cbv zeta in Hp1, Hp2.
  set (p1 := Rsub3 a1 (Rlscale3 (Rdot3 rayDir a1) rayDir)) in *.
  set (p2 := Rsub3 a2 (Rlscale3 (Rdot3 rayDir a2) rayDir)) in *.
  rewrite Ha1, Hda1 in Hp1. rewrite Ha2, Hda2 in Hp2.
  assert (Hcc : (0 < c * c)%R) by nra.
  assert (Hp1nz : Rdot3 p1 p1 <> 0%R).
  { rewrite Hp1. pose proof (Rmult_lt_0_compat _ _ Hc1 Hcc). nra. }
  assert (Hp2nz : Rdot3 p2 p2 <> 0%R) by (rewrite Hp2; lra).
  pose proof (Rlength3_nonzero p1 Hp1nz) as Hl1.
  pose proof (Rlength3_nonzero p2 Hp2nz) as Hl2.
  rewrite !div_fin by assumption.
  fin_simpl.
  set (s1 := (r / Rlength3 p1)%R) in *.
  set (s2 := (r / Rlength3 p2)%R) in *.
  assert (Hs1 : s1 <> 0%R).
  { unfold s1, Rdiv. apply Rmult_integral_contrapositive_currified;
      [exact Hr | apply Rinv_neq_0_compat; exact Hl1]. }
  assert (Hs2 : s2 <> 0%R).
  { unfold s2, Rdiv. apply Rmult_integral_contrapositive_currified;
      [exact Hr | apply Rinv_neq_0_compat; exact Hl2]. }
  assert (Hb1 : Rdot3 (Rscale3 a1 s1) (Rscale3 a1 s1) <> 0%R).
  { rewrite Rdot3_scale_self, Ha1. apply scaled_sqr_nonzero; assumption. }
  assert (Hb2 : Rdot3 (Rscale3 a2 s2) (Rscale3 a2 s2) <> 0%R).
  { rewrite Rdot3_scale_self, Ha2. apply scaled_sqr_nonzero; assumption. }
  pose proof (Rlength3_pos _ Hb1) as Hm1.
  pose proof (Rlength3_pos _ Hb2) as Hm2.
  set (l1 := Rlength3 (Rscale3 a1 s1)) in *.
  set (l2 := Rlength3 (Rscale3 a2 s2)) in *.
  cbn [x2 y2].
  rewrite !divs3_fin by (apply Rgt_not_eq; assumption).
  fin_simpl.
  set (X := Rdot3 (Rdivs3 (Rscale3 a1 s1) l1) edge01) in *.
  set (Y := Rdot3 (Rdivs3 (Rscale3 a2 s2) l2) edge01) in *.
  assert (HX : X = (s1 / l1 * Rdot3 a1 edge01)%R).
  { unfold X, Rdot3, Rdivs3, Rscale3; cbn [x3 y3 z3]. field.
    apply Rgt_not_eq; exact Hm1. }
  assert (HY : Y = (s2 / l2 * Rdot3 a2 edge01)%R).
  { unfold Y, Rdot3, Rdivs3, Rscale3; cbn [x3 y3 z3]. field.
    apply Rgt_not_eq; exact Hm2. }
  assert (Hgram : (Rdot3 a1 edge01 * Rdot3 a1 edge01
                   + Rdot3 a2 edge01 * Rdot3 a2 edge01
                   = (1 - c * c) * Rdot3 edge01 edge01)%R).
  { unfold a2 at 1 2. rewrite triple_product_sqr, Hn, Hna1, Hne, Ha1. ring. }
  assert (HXY : (X * X + Y * Y)%R <> 0%R).
  { intros Hz.
    destruct (sum_sqr_zero X Y Hz) as [HX0 HY0].
    assert (Hk1 : (s1 / l1)%R <> 0%R).
    { unfold Rdiv. apply Rmult_integral_contrapositive_currified;
        [exact Hs1 | apply Rinv_neq_0_compat, Rgt_not_eq; exact Hm1]. }
    assert (Hk2 : (s2 / l2)%R <> 0%R).
    { unfold Rdiv. apply Rmult_integral_contrapositive_currified;
        [exact Hs2 | apply Rinv_neq_0_compat, Rgt_not_eq; exact Hm2]. }
    rewrite HX in HX0. rewrite HY in HY0.
    apply Rmult_integral in HX0. apply Rmult_integral in HY0.
    destruct HX0 as [? | HX0]; [contradiction |].
    destruct HY0 as [? | HY0]; [contradiction |].
    rewrite HX0, HY0 in Hgram.
    symmetry in Hgram. rewrite Rmult_0_l, Rplus_0_l in Hgram.
    apply Rmult_integral in Hgram.
    destruct Hgram as [Hg | Hg]; [| contradiction].
    rewrite Hg in Hc1. exact (Rlt_irrefl 0 Hc1). }
  rewrite normalize2_fin by exact HXY.
  pose proof (ellipse_radius_defined l1 l2 X Y Hm1 Hm2 HXY) as HQ.
  cbv zeta in HQ.
  set (L := sqrt (X * X + Y * Y)) in *.
  cbn [x2 y2]. fin_simpl.
  rewrite !fsqrt_fin by (left; exact HQ).
  set (Q := (l1 * l1 * (Y / L) * (Y / L) + l2 * l2 * (X / L) * (X / L))%R) in *.
  assert (HsQ : (0 < sqrt Q)%R) by (apply sqrt_lt_R0; exact HQ).
  rewrite !div_fin by (apply Rgt_not_eq; exact HsQ).
  fin_simpl. rewrite Rmax_same.
  set (aaE := (l1 * l2 / sqrt Q)%R) in *.
  assert (HaaE : aaE <> 0%R).
  { unfold aaE, Rdiv. apply Rmult_integral_contrapositive_currified;
      [apply Rmult_integral_contrapositive_currified;
         apply Rgt_not_eq; assumption
      | apply Rinv_neq_0_compat, Rgt_not_eq; exact HsQ]. }
  rewrite !div_fin by exact HaaE.
  rewrite (Rdot3_comm rayDir n). fold c.
  rewrite Q2R_1em5.
  destruct (clamp_nonzero c Hc0) as (dn & Hdnnz & ->).
  fin_simpl. rewrite !div_fin by exact Hdnnz. fin_simpl.
  assert (Hk : (0 * aaE / aaE)%R = 0%R) by (field; exact HaaE).
  destruct (ltb _ _); unfold fin; f_equal; exact Hk.
Qed.

(** *** Single precision *)

Lemma b32_mul_nan_r (x : binary32) : mul x S754_nan = S754_nan.
Proof. destruct x; reflexivity. Qed.

Lemma b32_add_nan_r (x : binary32) : add x S754_nan = S754_nan.
Proof. destruct x as [s | s | | s m e]; try destruct s; reflexivity. Qed.

Lemma b32_add_nan_l (x : binary32) : add S754_nan x = S754_nan.
Proof. reflexivity. Qed.

Lemma b32_div_nan_l (x : binary32) : div S754_nan x = S754_nan.
Proof. reflexivity. Qed.

Lemma b32_ltb_nan_r (x : binary32) : ltb x S754_nan = false.
Proof. destruct x as [s | s | | s m e]; try destruct s; reflexivity. Qed.

(* Average and Max in single precision: zero curvatures of either sign give
   a zero, whatever the edges. *)
Lemma Average_Max_zero_binary32 (edge01 edge02 edge12 : float3 binary32)
    (s01 s02 s12 : bool) :
  b32_is_zero (eval Build_TriangleCurvature_Average edge01 edge02 edge12
                 (S754_zero s01) (S754_zero s02) (S754_zero s12)) = true
  /\ b32_is_zero (eval Build_TriangleCurvature_Max edge01 edge02 edge12
                    (S754_zero s01) (S754_zero s02) (S754_zero s12)) = true.
Proof. destruct s01, s02, s12; split; vm_compute; reflexivity. Qed.

(* The ray direction normalize(2,0,3) against the edge (2,0,3): the computed
   |dot| is the successor of 1. *)
Lemma dot_of_normalized_above_one :
  fabs (dot3 (normalize3 (b32_vec3 2 0 3)) (normalize3 (b32_vec3 2 0 3)))
  = S754_finite false 8388609 (-23).
Proof. vm_compute. reflexivity. Qed.

(* Directional in single precision, for any acos that is NaN above 1: once
   the angle to edge01 is NaN, so is the result. *)
Lemma Directional_nan_binary32 (Tr : Transc binary32)
    (rayDir edge01 edge02 edge12 : float3 binary32)
    (curvature01 curvature02 curvature12 : binary32) :
  (forall x : binary32, ltb (b32_of_Z 1) x = true -> facos x = S754_nan) ->
  ltb (b32_of_Z 1) (fabs (dot3 rayDir (normalize3 edge01))) = true ->
  eval {| Directional_rayDir := rayDir |} edge01 edge02 edge12
    curvature01 curvature02 curvature12 = S754_nan.
Proof.
  intros Hacos Hgt.
  cbn [eval Directional_estimator].
  unfold TriangleCurvature_Directional_eval. cbn [Directional_rayDir].
  cbv zeta. rewrite (Hacos _ Hgt).
  rewrite b32_ltb_nan_r.
  rewrite !b32_mul_nan_r, !b32_add_nan_r, !b32_add_nan_l, !b32_div_nan_l.
  match goal with |- context [if ?c then _ else _] => destruct c end;
    reflexivity.
Qed.

(** C6. With curvature01 = curvature02 = curvature12 = 0.  In exact
    arithmetic: TriangleCurvature_Average and TriangleCurvature_Max return
    exactly 0 for arbitrary edge vectors; TriangleCurvature_DirClosestDP
    returns exactly 0 for finite non-zero edges and a finite ray direction
    that is not perpendicular to all three edges; TriangleCurvature_Directional
    returns exactly 0 for finite non-zero edges and a unit ray direction
    parallel to at most one of them; TriangleCurvature_EllipseVis returns
    exactly 0 for a unit ray direction that is neither parallel nor
    perpendicular to the plane of edge01 and edge02 (which must span a plane)
    and a non-zero cone width.  In binary32: Average and Max return a zero
    for arbitrary edge vectors and zero curvatures of either sign; Directional
    does not return 0 on the whole of that domain: for the ray direction
    normalize(2,0,3) along edge01 = (2,0,3) the computed |dot| is above 1 and,
    with an acos that is a NaN above 1, the result is a NaN whatever the two
    other edges. *)
Theorem zero_curvature_estimators :
  (forall (self : TriangleCurvature_Average) (edge01 edge02 edge12 : float3 xreal),
     eval self edge01 edge02 edge12 (fin 0) (fin 0) (fin 0) = fin 0)
  /\ (forall (self : TriangleCurvature_Max) (edge01 edge02 edge12 : float3 xreal),
        eval self edge01 edge02 edge12 (fin 0) (fin 0) (fin 0) = fin 0)
  /\ (forall rayDir edge01 edge02 edge12 : float3 R,
        Rdot3 edge01 edge01 <> 0%R -> Rdot3 edge02 edge02 <> 0%R ->
        Rdot3 edge12 edge12 <> 0%R ->
        Rdot3 rayDir edge01 <> 0%R \/ Rdot3 rayDir edge02 <> 0%R
          \/ Rdot3 rayDir edge12 <> 0%R ->
        eval {| DirClosestDP_rayDir := fin3 rayDir |}
          (fin3 edge01) (fin3 edge02) (fin3 edge12) (fin 0) (fin 0) (fin 0)
        = fin 0)
  /\ (forall rayDir edge01 edge02 edge12 : float3 R,
        Rdot3 rayDir rayDir = 1%R ->
        Rdot3 edge01 edge01 <> 0%R -> Rdot3 edge02 edge02 <> 0%R ->
        Rdot3 edge12 edge12 <> 0%R ->
        (Rcross rayDir edge01 <> zeroR3 \/ Rcross rayDir edge02 <> zeroR3) ->
        (Rcross rayDir edge01 <> zeroR3 \/ Rcross rayDir edge12 <> zeroR3) ->
        (Rcross rayDir edge02 <> zeroR3 \/ Rcross rayDir edge12 <> zeroR3) ->
        eval {| Directional_rayDir := fin3 rayDir |}
          (fin3 edge01) (fin3 edge02) (fin3 edge12) (fin 0) (fin 0) (fin 0)
        = fin 0)
  /\ (forall (rayDir edge01 edge02 edge12 : float3 R)
             (rayConeWidth rayConeAngle : R),
        Rdot3 rayDir rayDir = 1%R ->
        rayConeWidth <> 0%R ->
        Rdot3 (Rcross edge01 edge02) rayDir <> 0%R ->
        Rcross (Rcross edge01 edge02) rayDir <> zeroR3 ->
        eval {| EllipseVis_rayDir := fin3 rayDir;
                EllipseVis_rayConeWidth := fin rayConeWidth;
                EllipseVis_rayConeAngle := fin rayConeAngle |}
          (fin3 edge01) (fin3 edge02) (fin3 edge12) (fin 0) (fin 0) (fin 0)
        = fin 0)
  /\ (forall (edge01 edge02 edge12 : float3 binary32) (s01 s02 s12 : bool),
        b32_is_zero (eval Build_TriangleCurvature_Average edge01 edge02 edge12
                       (S754_zero s01) (S754_zero s02) (S754_zero s12)) = true
        /\ b32_is_zero (eval Build_TriangleCurvature_Max edge01 edge02 edge12
                          (S754_zero s01) (S754_zero s02) (S754_zero s12))
           = true)
  /\ fabs (dot3 (normalize3 (b32_vec3 2 0 3)) (normalize3 (b32_vec3 2 0 3)))
     = S754_finite false 8388609 (-23)
  /\ (forall (Tr : Transc binary32) (edge02 edge12 : float3 binary32),
        (forall x : binary32,
           ltb (b32_of_Z 1) x = true -> facos x = S754_nan) ->
        eval {| Directional_rayDir := normalize3 (b32_vec3 2 0 3) |}
          (b32_vec3 2 0 3) edge02 edge12 (lit 0) (lit 0) (lit 0)
        = S754_nan).
Proof.
  split; [exact Average_zero |].
  split; [exact Max_zero |].
  split; [exact DirClosestDP_zero |].
  split; [exact Directional_zero |].
  split; [exact EllipseVis_zero |].
  split; [exact Average_Max_zero_binary32 |].
  split; [exact dot_of_normalized_above_one |].
  intros Tr edge02 edge12 Hacos.
  apply Directional_nan_binary32; [exact Hacos |].
  rewrite dot_of_normalized_above_one. reflexivity.
Qed.

Lemma zero_curvature_estimators_witness :
  let e01 := (mkFloat3 1 0 0)%R in
  let e02 := (mkFloat3 0 1 0)%R in
  let e12 := (mkFloat3 (-1) 1 0)%R in
  let d := (mkFloat3 (3 / 5) 0 (-4 / 5))%R in
  eval {| DirClosestDP_rayDir := fin3 d |}
    (fin3 e01) (fin3 e02) (fin3 e12) (fin 0) (fin 0) (fin 0) = fin 0
  /\ eval {| Directional_rayDir := fin3 d |}
       (fin3 e01) (fin3 e02) (fin3 e12) (fin 0) (fin 0) (fin 0) = fin 0
  /\ eval {| EllipseVis_rayDir := fin3 d;
             EllipseVis_rayConeWidth := fin (1 / 100);
             EllipseVis_rayConeAngle := fin (1 / 1000) |}
       (fin3 e01) (fin3 e02) (fin3 e12) (fin 0) (fin 0) (fin 0) = fin 0
  /\ @eval binary32 (TriangleCurvature_Directional binary32)
       (@Directional_estimator binary32 _ b32_intrinsics_at_zero)
       {| Directional_rayDir := normalize3 (b32_vec3 2 0 3) |}
       (b32_vec3 2 0 3) (b32_vec3 0 1 0) (b32_vec3 (-2) 1 (-3))
       (lit 0) (lit 0) (lit 0)
     = S754_nan.
Proof.
  intros e01 e02 e12 d.
  destruct zero_curvature_estimators
    as (_ & _ & Hdp & Hdir & Hell & _ & _ & Hnan).
  assert (Hd : Rdot3 d d = 1%R) by (unfold Rdot3, d; cbn [x3 y3 z3]; lra).
  assert (H01 : Rdot3 e01 e01 <> 0%R) by (unfold Rdot3, e01; cbn [x3 y3 z3]; lra).
  assert (H02 : Rdot3 e02 e02 <> 0%R) by (unfold Rdot3, e02; cbn [x3 y3 z3]; lra).
  assert (H12 : Rdot3 e12 e12 <> 0%R) by (unfold Rdot3, e12; cbn [x3 y3 z3]; lra).
  assert (C01 : Rcross d e01 <> zeroR3).
  { intros Hz. apply (f_equal (@y3 R)) in Hz.
    unfold Rcross, zeroR3, d, e01 in Hz; cbn [x3 y3 z3] in Hz. lra. }
  assert (C02 : Rcross d e02 <> zeroR3).
  { intros Hz. apply (f_equal (@x3 R)) in Hz.
    unfold Rcross, zeroR3, d, e02 in Hz; cbn [x3 y3 z3] in Hz. lra. }
  split; [| split; [| split]].
  - apply Hdp; try assumption.
    left. unfold Rdot3, d, e01; cbn [x3 y3 z3]. lra.
  - apply Hdir; auto.
  - apply Hell.
    + exact Hd.
    + lra.
    + unfold Rdot3, Rcross, d, e01, e02; cbn [x3 y3 z3]. lra.
    + intros Hz. apply (f_equal (@y3 R)) in Hz.
      unfold Rcross, zeroR3, d, e01, e02 in Hz; cbn [x3 y3 z3] in Hz. lra.
  - apply (Hnan b32_intrinsics_at_zero). intros x _. reflexivity.
Defined.

(** C6, counterexample: in binary32, for the triangle with edges (1,0,0),
    (0,1,0), (-1,1,0) seen along its normal, rayDir = (0,0,-1), and zero
    curvatures, TriangleCurvature_DirClosestDP and
    TriangleCurvature_EllipseVis return NaN, not 0. *)
Lemma zero_curvature_normal_incidence_nan :
  eval {| DirClosestDP_rayDir := b32_vec3 0 0 (-1) |}
    (b32_vec3 1 0 0) (b32_vec3 0 1 0) (b32_vec3 (-1) 1 0)
    (b32_of_Z 0) (b32_of_Z 0) (b32_of_Z 0) = S754_nan
  /\ eval {| EllipseVis_rayDir := b32_vec3 0 0 (-1);
             EllipseVis_rayConeWidth := lit 0.01;
             EllipseVis_rayConeAngle := lit 0.001 |}
       (b32_vec3 1 0 0) (b32_vec3 0 1 0) (b32_vec3 (-1) 1 0)
       (b32_of_Z 0) (b32_of_Z 0) (b32_of_Z 0) = S754_nan.
Proof. split; vm_compute; reflexivity. Qed.

(** ** The three formulations of the spread angle *)

(* The function as compiled is the optimized arc-length formulation, for every
   implementation of the interface. *)
Lemma compiled_mode_is_optimized (T : Type) (A : Arith T) (Tr : Transc T)
    (curvature rayConeWidth : T) (rayDir normal : float3 T) :
  computeSpreadAngleFromCurvatureIso_mode TEXLOD_SPREADANGLE_FROM_CURVATURE_MODE
    curvature rayConeWidth rayDir normal
  = computeSpreadAngleFromCurvatureIso curvature rayConeWidth rayDir normal.
Proof. reflexivity. Qed.

Lemma clampedDn_fin (rayDir normal : float3 R) :
  clampedDn (fin3 rayDir) (fin3 normal) = fin (clampedDnR rayDir normal).
Proof.
  unfold clampedDn, clampedDnR. fin_simpl. rewrite Q2R_1em5.
  change (ltb (fin ?a) (fin ?b)) with (xltb (Some a) (Some b)). unfold xltb.
  destruct (Rlt_dec _ _); reflexivity.
Qed.

Lemma clampedDnR_nonzero (rayDir normal : float3 R) :
  Rdot3 rayDir normal <> 0%R -> clampedDnR rayDir normal <> 0%R.
Proof.
  intros Hdot. unfold clampedDnR. destruct (Rlt_dec _ _).
  - destruct (Rlt_dec 0 (- Rdot3 rayDir normal)) as [Hp | Hn].
    + rewrite Rsign_pos by exact Hp. lra.
    + rewrite Rsign_neg by lra. lra.
  - lra.
Qed.

Lemma Rabs_le_1_inv (a : R) : (Rabs a <= 1)%R -> (-1 <= a <= 1)%R.
Proof. unfold Rabs. destruct (Rcase_abs a); lra. Qed.

Section Formulations.
Local Open Scope R_scope.
Variables (rayDir normal : float3 R).
Hypothesis Hdot : Rdot3 rayDir normal <> 0%R.

Let D := clampedDnR rayDir normal.

Lemma optimized_fin (c w : R) :
  computeSpreadAngleFromCurvatureIso_mode TEXLOD_SPREADANGLE_ARC_LENGTH_OPTIMIZED
    (fin c) (fin w) (fin3 rayDir) (fin3 normal)
  = fin (c * w / D).
Proof.
  unfold computeSpreadAngleFromCurvatureIso_mode. rewrite clampedDn_fin.
  fin_simpl. apply div_fin, clampedDnR_nonzero, Hdot.
Qed.

Lemma sqrt2_nonzero : sqrt 2 <> 0%R.
Proof. pose proof (sqrt_lt_R0 2). lra. Qed.

Lemma rtg1_fin (c w : R) :
  computeSpreadAngleFromCurvatureIso_mode TEXLOD_SPREADANGLE_RTG1
    (fin c) (fin w) (fin3 rayDir) (fin3 normal)
  = fin (2 * atan (Rabs (c * w * (1 / 2) / D) / sqrt 2) * Rsign c).
Proof.
  unfold computeSpreadAngleFromCurvatureIso_mode. rewrite clampedDn_fin.
  fin_simpl. rewrite Q2R_half, Q2R_2.
  rewrite div_fin by (apply clampedDnR_nonzero, Hdot).
  fin_simpl. rewrite fsqrt_fin by lra.
  rewrite div_fin by apply sqrt2_nonzero.
  reflexivity.
Qed.

Lemma unoptimized_fin (c w : R) :
  c <> 0%R -> (Rabs (w / D / (2 * (1 / c))) <= 1)%R ->
  computeSpreadAngleFromCurvatureIso_mode
    TEXLOD_SPREADANGLE_ARC_LENGTH_UNOPTIMIZED
    (fin c) (fin w) (fin3 rayDir) (fin3 normal)
  = fin (c * (asin (w / D / (2 * (1 / c))) * (2 * (1 / c)))).
Proof.
  intros Hc Hrange.
  unfold computeSpreadAngleFromCurvatureIso_mode. rewrite clampedDn_fin.
  fin_simpl. rewrite Q2R_1, Q2R_2.
  rewrite (div_fin 1 c) by exact Hc.
  rewrite (div_fin w) by (apply clampedDnR_nonzero, Hdot).
  fin_simpl.
  assert (H2r : (2 * (1 / c))%R <> 0%R).
  { unfold Rdiv. rewrite Rmult_1_l.
    apply Rmult_integral_contrapositive_currified;
      [lra | apply Rinv_neq_0_compat; exact Hc]. }
  rewrite div_fin by exact H2r.
  cbn [fasin xreal_Transc].
  rewrite xasin_fin by (apply Rabs_le_1_inv; exact Hrange).
  reflexivity.
Qed.

Lemma unoptimized_zero_curvature (w : R) :
  computeSpreadAngleFromCurvatureIso_mode
    TEXLOD_SPREADANGLE_ARC_LENGTH_UNOPTIMIZED
    (fin 0) (fin w) (fin3 rayDir) (fin3 normal)
  = None.
Proof.
  unfold computeSpreadAngleFromCurvatureIso_mode. rewrite clampedDn_fin.
  rewrite lit_fin.
  replace (div (fin (Q2R 1)) (fin 0)) with (@None R)
    by (symmetry; apply xdiv_zero).
  rewrite (div_fin w) by (apply clampedDnR_nonzero, Hdot).
  reflexivity.
Qed.

Lemma derivable_pt_lim_linear (k x : R) :
  derivable_pt_lim (fun y => k * y)%R x k.
Proof.
  apply (derivable_pt_lim_ext (mult_real_fct k id)); [reflexivity |].
  replace k with (k * 1)%R at 2 by ring.
  apply derivable_pt_lim_scal, derivable_pt_lim_id.
Qed.

(* y |-> a * f (k * y) has derivative a * k at 0 when f has derivative 1 at 0 *)
Lemma derivable_pt_lim_scaled (f : R -> R) (a k : R) :
  derivable_pt_lim f 0 1 ->
  derivable_pt_lim (fun y => a * f (k * y))%R 0 (a * k).
Proof.
  intros Hf.
  apply (derivable_pt_lim_ext (mult_real_fct a (comp f (fun y => k * y)%R)));
    [reflexivity |].
  apply derivable_pt_lim_scal.
  pose proof (derivable_pt_lim_comp (fun y => k * y) f 0 k 1
                (derivable_pt_lim_linear k 0)) as Hcomp.
  rewrite Rmult_0_r, Rmult_1_l in Hcomp. apply Hcomp, Hf.
Qed.

Lemma derivable_pt_lim_atan_0 : derivable_pt_lim atan 0 1.
Proof.
  pose proof (derivable_pt_lim_atan 0) as Hd.
  replace (/ (1 + 0 ^ 2)) with 1 in Hd by (simpl; field). exact Hd.
Qed.

Lemma derivable_pt_lim_asin_0 : derivable_pt_lim asin 0 1.
Proof.
  assert (Hr : (-1 < 0 < 1)%R) by lra.
  pose proof (derive_pt_asin 0 Hr) as Hd.
  apply derive_pt_eq_1 in Hd.
  replace (1 / sqrt (1 - Rsqr 0))%R with 1%R in Hd; [exact Hd |].
  unfold Rsqr. rewrite Rmult_0_l, Rminus_0_r, sqrt_1. field.
Qed.

Lemma optimized_derivative_in_width (c : R) :
  derivable_pt_lim
    (spreadAngleValue TEXLOD_SPREADANGLE_ARC_LENGTH_OPTIMIZED rayDir normal c)
    0 (c / D).
Proof.
  pose proof (clampedDnR_nonzero rayDir normal Hdot) as HD. fold D in HD.
  apply (derivable_pt_lim_ext (fun w => (c / D) * w)%R).
  - intros w. unfold spreadAngleValue. rewrite optimized_fin. cbn [xval fin].
    field. exact HD.
  - apply derivable_pt_lim_linear.
Qed.

Lemma optimized_derivative_in_curvature (w : R) :
  derivable_pt_lim
    (fun c => spreadAngleValue TEXLOD_SPREADANGLE_ARC_LENGTH_OPTIMIZED
                rayDir normal c w)
    0 (w / D).
Proof.
  pose proof (clampedDnR_nonzero rayDir normal Hdot) as HD. fold D in HD.
  apply (derivable_pt_lim_ext (fun c => (w / D) * c)%R).
  - intros c. unfold spreadAngleValue. rewrite optimized_fin. cbn [xval fin].
    field. exact HD.
  - apply derivable_pt_lim_linear.
Qed.

Lemma unoptimized_derivative_in_width (c : R) :
  c <> 0%R ->
  derivable_pt_lim
    (spreadAngleValue TEXLOD_SPREADANGLE_ARC_LENGTH_UNOPTIMIZED rayDir normal c)
    0 (c / D).
Proof.
  intros Hc.
  pose proof (clampedDnR_nonzero rayDir normal Hdot) as HD. fold D in HD.
  set (k := (c / (2 * D))%R).
  assert (Hk : k <> 0%R).
  { unfold k, Rdiv. apply Rmult_integral_contrapositive_currified;
      [exact Hc | apply Rinv_neq_0_compat; lra]. }
  assert (Hkpos : (0 < Rabs k)%R) by (apply Rabs_pos_lt; exact Hk).
  assert (Hu : forall w, (w / D / (2 * (1 / c)))%R = (k * w)%R).
  { intros w. unfold k. field. split; assumption. }
  apply (derivable_pt_lim_locally_ext (fun w => 2 * asin (k * w))%R _ 0
           (- / Rabs k) (/ Rabs k)).
  - pose proof (Rinv_0_lt_compat _ Hkpos). lra.
  - intros w Hw. unfold spreadAngleValue.
    assert (Hrange : (Rabs (w / D / (2 * (1 / c))) <= 1)%R).
    { rewrite Hu, Rabs_mult.
      assert (Habs : (Rabs w < / Rabs k)%R) by (apply Rabs_def1; lra).
      apply Rmult_lt_compat_l with (r := Rabs k) in Habs; [| exact Hkpos].
      rewrite Rinv_r in Habs by lra. lra. }
    rewrite unoptimized_fin by assumption. cbn [xval fin].
    rewrite Hu. field. exact Hc.
  - replace (c / D)%R with (2 * k)%R by (unfold k; field; exact HD).
    apply derivable_pt_lim_scaled, derivable_pt_lim_asin_0.
Qed.

Lemma rtg1_value (c w : R) :
  spreadAngleValue TEXLOD_SPREADANGLE_RTG1 rayDir normal c w
  = (2 * atan (Rabs (w * (1 / 2) / D) / sqrt 2 * c))%R.
Proof.
  unfold spreadAngleValue. rewrite rtg1_fin. cbn [xval fin].
  replace (c * w * (1 / 2) / D)%R with (c * (w * (1 / 2) / D))%R
    by (unfold Rdiv; ring).
  rewrite Rabs_mult.
  destruct (Rlt_dec 0 c) as [Hp | Hnp].
  - rewrite Rsign_pos, (Rabs_pos_eq c) by lra.
    rewrite Rmult_1_r. do 2 f_equal. unfold Rdiv. ring.
  - destruct (Rlt_dec c 0) as [Hn | Hnn].
    + rewrite Rsign_neg, (Rabs_left c) by lra.
      replace (Rabs (w * (1 / 2) / D) / sqrt 2 * c)%R
        with (- (- c * Rabs (w * (1 / 2) / D) / sqrt 2))%R
        by (unfold Rdiv; ring).
      rewrite atan_opp. ring.
    + assert (c = 0%R) by lra. subst c.
      rewrite Rsign_zero, !Rmult_0_r, atan_0. ring.
Qed.

Lemma rtg1_derivative_in_curvature (w : R) :
  derivable_pt_lim
    (fun c => spreadAngleValue TEXLOD_SPREADANGLE_RTG1 rayDir normal c w)
    0 (Rabs (w / D) / sqrt 2).
Proof.
  pose proof (clampedDnR_nonzero rayDir normal Hdot) as HD. fold D in HD.
  apply (derivable_pt_lim_ext
           (fun c => 2 * atan (Rabs (w * (1 / 2) / D) / sqrt 2 * c))%R).
  - intros c. symmetry. apply rtg1_value.
  - replace (Rabs (w / D) / sqrt 2)%R
      with (2 * (Rabs (w * (1 / 2) / D) / sqrt 2))%R.
    + apply derivable_pt_lim_scaled, derivable_pt_lim_atan_0.
    + replace (w * (1 / 2) / D)%R with (/ 2 * (w / D))%R by (field; exact HD).
      rewrite Rabs_mult, (Rabs_pos_eq (/ 2)) by lra.
      field. apply sqrt2_nonzero.
Qed.

End Formulations.

(** C4. For finite rayDir and normal with dn = -dot(rayDir, normal) <> 0 and
    D the clamped denominator: TEXLOD_SPREADANGLE_ARC_LENGTH_OPTIMIZED and
    TEXLOD_SPREADANGLE_RTG1 vanish whenever curvature * rayConeWidth = 0;
    TEXLOD_SPREADANGLE_ARC_LENGTH_UNOPTIMIZED vanishes at rayConeWidth = 0 for
    a non-zero curvature and is invalid at curvature = 0.  The two arc-length
    formulations agree to first order: at every fixed non-zero curvature c
    both have derivative c / D in rayConeWidth at 0.  RTG1 does not: at every
    fixed rayConeWidth w its derivative in the curvature at 0 is
    |w / D| / sqrt 2, where that of the optimized formulation is w / D. *)
Theorem spreadAngle_first_order (rayDir normal : float3 R) :
  Rdot3 rayDir normal <> 0%R ->
  let D := clampedDnR rayDir normal in
  let value := fun mode c w =>
    computeSpreadAngleFromCurvatureIso_mode mode (fin c) (fin w)
      (fin3 rayDir) (fin3 normal) in
  (forall c w : R, (c * w)%R = 0%R ->
     value TEXLOD_SPREADANGLE_ARC_LENGTH_OPTIMIZED c w = fin 0
     /\ value TEXLOD_SPREADANGLE_RTG1 c w = fin 0)
  /\ (forall c : R, c <> 0%R ->
        value TEXLOD_SPREADANGLE_ARC_LENGTH_UNOPTIMIZED c 0%R = fin 0)
  /\ (forall w : R,
        value TEXLOD_SPREADANGLE_ARC_LENGTH_UNOPTIMIZED 0%R w = None)
  /\ (forall c : R, c <> 0%R ->
        derivable_pt_lim
          (spreadAngleValue TEXLOD_SPREADANGLE_ARC_LENGTH_OPTIMIZED
             rayDir normal c) 0%R (c / D)%R
        /\ derivable_pt_lim
             (spreadAngleValue TEXLOD_SPREADANGLE_ARC_LENGTH_UNOPTIMIZED
                rayDir normal c) 0%R (c / D)%R)
  /\ (forall w : R,
        derivable_pt_lim
          (fun c => spreadAngleValue TEXLOD_SPREADANGLE_ARC_LENGTH_OPTIMIZED
                      rayDir normal c w) 0%R (w / D)%R
        /\ derivable_pt_lim
             (fun c => spreadAngleValue TEXLOD_SPREADANGLE_RTG1
                         rayDir normal c w) 0%R (Rabs (w / D) / sqrt 2)%R).
Proof.
  intros Hdot D value.
  pose proof (clampedDnR_nonzero rayDir normal Hdot) as HD. fold D in HD.
  split; [| split; [| split; [| split]]].
  - intros c w Hcw. unfold value. split.
    + rewrite optimized_fin by exact Hdot. fold D. rewrite Hcw.
      unfold fin. f_equal. field. exact HD.
    + rewrite rtg1_fin by exact Hdot. fold D.
      replace (c * w * (1 / 2) / D)%R with 0%R
        by (rewrite Hcw; field; exact HD).
      rewrite Rabs_R0. unfold Rdiv at 1. rewrite Rmult_0_l, atan_0.
      unfold fin. f_equal. ring.
  - intros c Hc. unfold value.
    assert (Hz : (0 / D / (2 * (1 / c)))%R = 0%R) by (field; split; assumption).
    rewrite unoptimized_fin; try assumption.
    + fold D. rewrite Hz, asin_0. unfold fin. f_equal. ring.
    + fold D. rewrite Hz, Rabs_R0. lra.
  - intros w. unfold value. apply unoptimized_zero_curvature, Hdot.
  - intros c Hc. split.
    + apply optimized_derivative_in_width, Hdot.
    + apply unoptimized_derivative_in_width; assumption.
  - intros w. split.
    + apply optimized_derivative_in_curvature, Hdot.
    + apply rtg1_derivative_in_curvature, Hdot.
Qed.

Lemma clampedDnR_head_on :
  clampedDnR (mkFloat3 0 0 (-1))%R (mkFloat3 0 0 1)%R = 1%R.
Proof.
  unfold clampedDnR, Rdot3; cbn [x3 y3 z3].
  replace (- (0 * 0 + 0 * 0 + -1 * 1))%R with 1%R by ring.
  rewrite Rabs_R1. destruct (Rlt_dec 1 (1 / 100000)); [lra | reflexivity].
Qed.

Lemma head_on_dot :
  Rdot3 (mkFloat3 0 0 (-1))%R (mkFloat3 0 0 1)%R <> 0%R.
Proof. unfold Rdot3; cbn [x3 y3 z3]. lra. Qed.

Lemma spreadAngle_first_order_witness :
  let d := (mkFloat3 0 0 (-1))%R in
  let n := (mkFloat3 0 0 1)%R in
  Rdot3 d n <> 0%R
  /\ computeSpreadAngleFromCurvatureIso_mode TEXLOD_SPREADANGLE_RTG1
       (fin 0) (fin 1) (fin3 d) (fin3 n) = fin 0
  /\ computeSpreadAngleFromCurvatureIso_mode
       TEXLOD_SPREADANGLE_ARC_LENGTH_UNOPTIMIZED
       (fin 1) (fin 0) (fin3 d) (fin3 n) = fin 0
  /\ derivable_pt_lim
       (spreadAngleValue TEXLOD_SPREADANGLE_ARC_LENGTH_UNOPTIMIZED d n 1%R)
       0%R (1 / clampedDnR d n)%R.
Proof.
  intros d n.
  destruct (spreadAngle_first_order d n head_on_dot)
    as (Hvanish & Hunopt & _ & Hwidth & _).
  split; [exact head_on_dot |].
  split; [apply (Hvanish 0%R 1%R); ring |].
  split; [apply (Hunopt 1%R); lra |].
  apply (Hwidth 1%R). lra.
Defined.

(** C4, counterexample: for the unit vectors rayDir = (0,0,-1) and
    normal = (0,0,1) (dn = 1) and rayConeWidth = 1, so that the curvature is
    the product curvature * rayConeWidth: the unoptimized arc-length
    formulation is invalid at curvature 0 instead of vanishing, and the
    optimized formulation has first derivative 1 at 0 whereas RTG1 has first
    derivative 1 / sqrt 2, not 1. *)
Lemma spreadAngle_formulations_disagree :
  let d := (mkFloat3 0 0 (-1))%R in
  let n := (mkFloat3 0 0 1)%R in
  Rdot3 d d = 1%R /\ Rdot3 n n = 1%R /\ (- Rdot3 d n)%R = 1%R
  /\ computeSpreadAngleFromCurvatureIso_mode
       TEXLOD_SPREADANGLE_ARC_LENGTH_UNOPTIMIZED
       (fin 0) (fin 1) (fin3 d) (fin3 n) = None
  /\ derivable_pt_lim
       (fun x => spreadAngleValue TEXLOD_SPREADANGLE_ARC_LENGTH_OPTIMIZED
                   d n x 1%R) 0%R 1%R
  /\ derivable_pt_lim
       (fun x => spreadAngleValue TEXLOD_SPREADANGLE_RTG1 d n x 1%R)
       0%R (1 / sqrt 2)%R
  /\ ~ derivable_pt_lim
         (fun x => spreadAngleValue TEXLOD_SPREADANGLE_RTG1 d n x 1%R) 0%R 1%R.
Proof.
  intros d n.
  assert (Hopt : derivable_pt_lim
            (fun x => spreadAngleValue TEXLOD_SPREADANGLE_ARC_LENGTH_OPTIMIZED
                        d n x 1%R) 0%R 1%R).
  { pose proof (optimized_derivative_in_curvature d n head_on_dot 1%R) as Hd.
    unfold d, n in *. rewrite clampedDnR_head_on in Hd.
    replace (1 / 1)%R with 1%R in Hd by field. exact Hd. }
  assert (Hrtg : derivable_pt_lim
            (fun x => spreadAngleValue TEXLOD_SPREADANGLE_RTG1 d n x 1%R)
            0%R (1 / sqrt 2)%R).
  { pose proof (rtg1_derivative_in_curvature d n head_on_dot 1%R) as Hd.
    unfold d, n in *. rewrite clampedDnR_head_on in Hd.
    replace (1 / 1)%R with 1%R in Hd by field.
    rewrite Rabs_R1 in Hd. exact Hd. }
  repeat split; try assumption.
  - unfold Rdot3, d; cbn [x3 y3 z3]. ring.
  - unfold Rdot3, n; cbn [x3 y3 z3]. ring.
  - unfold Rdot3, d, n; cbn [x3 y3 z3]. ring.
  - apply unoptimized_zero_curvature, head_on_dot.
  - intros Hone.
    pose proof (uniqueness_limite _ _ _ _ Hrtg Hone) as Heq.
    assert (Hs : sqrt 2 = 1%R).
    { pose proof sqrt2_nonzero.
      apply (Rmult_eq_compat_r (sqrt 2)) in Heq.
      unfold Rdiv in Heq. rewrite Rmult_assoc, Rinv_l in Heq by assumption.
      lra. }
    pose proof (sqrt_sqrt 2%R) as Hsq. rewrite Hs in Hsq. lra.
Qed.

(** ** Refraction through a non-interface (eta = 1) *)

Lemma sqrt_sqr_neg (c : R) : (c <= 0)%R -> sqrt (c * c) = (- c)%R.
Proof.
  intros Hc. replace (c * c)%R with ((- c) * (- c))%R by ring.
  apply sqrt_square. lra.
Qed.

Lemma fin3_eq (a b : float3 R) :
  x3 a = x3 b -> y3 a = y3 b -> z3 a = z3 b -> fin3 a = fin3 b.
Proof.
  destruct a, b; cbn [x3 y3 z3]. intros -> -> ->. reflexivity.
Qed.

Lemma refractWithTIR_eta1 (rayDir normal : float3 R) :
  (Rdot3 normal rayDir <= 0)%R ->
  refractWithTIR (fin3 rayDir) (fin3 normal) (fin 1) = (true, fin3 rayDir).
Proof.
  intros Hc. unfold refractWithTIR. fin_simpl. rewrite Q2R_1, Q2R_0.
  set (c := Rdot3 normal rayDir) in *.
  replace (1 - 1 * 1 * (1 - c * c))%R with (c * c)%R by ring.
  change (ltb (fin ?a) (fin ?b)) with (xltb (Some a) (Some b)).
  rewrite xltb_false by nra.
  rewrite fsqrt_fin by nra. fin_simpl.
  rewrite sqrt_sqr_neg by exact Hc.
  f_equal. apply fin3_eq; unfold Rsub3, Rscale3; cbn [x3 y3 z3]; ring.
Qed.

Lemma refractWithTIR2D_eta1 (ux uy : R) :
  (uy <= 0)%R ->
  refractWithTIR2D (mkFloat2 (fin ux) (fin uy)) (mkFloat2 (fin 0) (fin 1))
    (fin 1)
  = (true, mkFloat2 (fin ux) (fin uy)).
Proof.
  intros Hu. unfold refractWithTIR2D, dot2, sub2, scale2. cbn [x2 y2].
  fin_simpl. rewrite Q2R_1, Q2R_0.
  replace (1 - 1 * 1 * (1 - (0 * ux + 1 * uy) * (0 * ux + 1 * uy)))%R
    with (uy * uy)%R by ring.
  change (ltb (fin ?a) (fin ?b)) with (xltb (Some a) (Some b)).
  rewrite xltb_false by nra.
  rewrite fsqrt_fin by nra. fin_simpl.
  rewrite sqrt_sqr_neg by exact Hu.
  unfold fin. repeat f_equal; ring.
Qed.


(* Igehy's equations 16 and 18 at eta = 1, where mu = 0 and dMu = 0. *)
Lemma igehy_direction_eta1 (v A N : float3 R) (c B : R) :
  c <> 0%R ->
  Rsub3 (Rlscale3 1 v)
        (Radd3 (Rlscale3 (1 * c + - c) A)
               (Rlscale3 (1 * (1 + 1 * c / - c) * B) N))
  = v.
Proof.
  intros Hc. destruct v as [vx vy vz].
  unfold Rsub3, Radd3, Rlscale3; cbn [x3 y3 z3]. f_equal; field; exact Hc.
Qed.

Lemma igehy_refracted_eta1 (v N : float3 R) (c : R) :
  Rsub3 (Rlscale3 1 v) (Rlscale3 (1 * c + - c) N) = v.
Proof.
  destruct v as [vx vy vz].
  unfold Rsub3, Rlscale3; cbn [x3 y3 z3]. f_equal; ring.
Qed.

Lemma refractRayDifferential_eta1
    (oX oY dX dY : float3 R) (rayDir nnN N : float3 R)
    (dBarydx dBarydy : float2 R) (normalsW : array3 (float3 R)) :
  Rdot3 nnN nnN <> 0%R -> (Rdot3 N rayDir < 0)%R ->
  refractRayDifferential (finRayDiff oX oY dX dY) (fin3 rayDir)
    (fin3 nnN) (fin3 N) (fin2 dBarydx) (fin2 dBarydy) (finArray3 normalsW)
    (fin 1)
  = (true, finRayDiff oX oY dX dY, fin3 rayDir).
Proof.
  intros Hnn Hc.
  unfold refractRayDifferential. fin_simpl. rewrite Q2R_1.
  set (c := Rdot3 N rayDir) in *.
  change (ltb (fin ?a) (fin ?b)) with (xltb (Some a) (Some b)).
  rewrite xltb_false by nra.
  replace (1 - 1 * 1 * (1 - c * c))%R with (c * c)%R by ring.
  rewrite fsqrt_fin by nra. rewrite sqrt_sqr_neg by lra. fin_simpl.
  unfold computeRayDifferentialRefraction, computeNormalDifferentials,
    interpolateDifferentials, finRayDiff, finArray3, RayDiff_make.
  cbn [dOdx dOdy dDdx dDdy elt0 elt1 elt2 x2 y2 fin2].
  fin_simpl. rewrite Q2R_1.
  set (NN := Rdot3 nnN nnN) in *.
  assert (HNN : (0 < NN)%R).
  { pose proof (Rdot3_self_nonneg nnN). fold NN in H. lra. }
  rewrite fsqrt_fin by lra. fin_simpl.
  assert (Hden : (NN * sqrt NN)%R <> 0%R).
  { pose proof (sqrt_lt_R0 NN HNN). nra. }
  rewrite !div_fin by (try exact Hden; lra).
  fin_simpl.
  rewrite !igehy_direction_eta1 by lra.
  rewrite igehy_refracted_eta1. reflexivity.
Qed.

Lemma ltb_fin_true (a b : R) : (a < b)%R -> ltb (fin a) (fin b) = true.
Proof. apply xltb_true. Qed.

Lemma ltb_fin_false (a b : R) : (b <= a)%R -> ltb (fin a) (fin b) = false.
Proof. apply xltb_false. Qed.

Lemma rotate2DPlusMinus_fin (x y a : R) :
  rotate2DPlusMinus (mkFloat2 (fin x) (fin y)) (fin a)
  = (mkFloat2 (fin (cos a * x - sin a * y)) (fin (sin a * x + cos a * y)),
     mkFloat2 (fin (cos a * x + sin a * y)) (fin (- (sin a * x) + cos a * y))).
Proof. reflexivity. Qed.

Lemma rotate_normal_zero (b : R) :
  b = 0%R ->
  rotate2DPlusMinus (mkFloat2 (fin 0) (fin 1)) (fin b)
  = (mkFloat2 (fin 0) (fin 1), mkFloat2 (fin 0) (fin 1)).
Proof.
  intros ->. rewrite rotate2DPlusMinus_fin, cos_0, sin_0.
  unfold fin. repeat f_equal; ring.
Qed.

(* The incident direction in the 2D frame: (sqrt(1 - c^2), c). *)
Lemma incident_frame (rayDir normal : float3 R) :
  Rdot3 rayDir rayDir = 1%R -> Rdot3 normal normal = 1%R ->
  let c := Rdot3 normal rayDir in
  let t := Rsub3 rayDir (Rscale3 normal c) in
  (c * c < 1)%R ->
  Rdot3 rayDir (Rdivs3 t (Rlength3 t)) = sqrt (1 - c * c)
  /\ (0 < sqrt (1 - c * c))%R
  /\ (sqrt (1 - c * c) * sqrt (1 - c * c) + c * c = 1)%R.
Proof.
  intros Hd Hn c t Hc.
  destruct (tangent_frame normal rayDir Hn Hd) as (Ht & Hdt & _ & _ & _).
  fold c in Ht, Hdt. fold t in Ht, Hdt.
  assert (Hpos : (0 < 1 - c * c)%R) by lra.
  pose proof (sqrt_lt_R0 _ Hpos) as Hs.
  pose proof (sqrt_sqrt (1 - c * c)%R (Rlt_le _ _ Hpos)) as Hss.
  split; [| split; [exact Hs | lra]].
  unfold Rlength3. rewrite Ht, Rdot3_divs by lra. rewrite Hdt.
  rewrite <- Hss at 1. field. lra.
Qed.

Lemma refractRayCone_eta1 (width spreadAngle : R)
    (rayOrg hitPoint : float3 xreal) (rayDir normal : float3 R) :
  Rdot3 rayDir rayDir = 1%R -> Rdot3 normal normal = 1%R ->
  (-1 < Rdot3 normal rayDir < 0)%R ->
  (0 < width)%R -> (- PI <= spreadAngle <= PI)%R ->
  (y2 (fst (boundingDirections rayDir normal spreadAngle)) < 0)%R ->
  (y2 (snd (boundingDirections rayDir normal spreadAngle)) < 0)%R ->
  refractRayCone (finCone width spreadAngle) rayOrg (fin3 rayDir) hitPoint
    (fin3 normal) (fin 0) (fin 1)
  = (true, finCone width spreadAngle, fin3 rayDir).
Proof.
  intros Hd Hn Hc Hw Ha Hu Hl.
  unfold refractRayCone. rewrite refractWithTIR_eta1 by lra. cbn [negb].
  f_equal. f_equal.
  unfold computeRayConeForRefraction.
  unfold getWidth, getSpreadAngle, finCone. cbn [widthFP16 spreadAngleFP16 f16tof32 xreal_Arith].
  destruct (tangent_frame normal rayDir Hn Hd) as (Ht & Hdt & _ & _ & _).
  assert (Hcc : (Rdot3 normal rayDir * Rdot3 normal rayDir < 1)%R) by nra.
  destruct (incident_frame rayDir normal Hd Hn Hcc) as (Hix & Hs & Hunit).
  unfold boundingDirections in Hu, Hl. cbn [fst snd x2 y2] in Hu, Hl.
  fin_simpl.
  set (c := Rdot3 normal rayDir) in *.
  set (t := Rsub3 rayDir (Rscale3 normal c)) in *.
  assert (Htnz : Rdot3 t t <> 0%R) by (rewrite Ht; nra).
  rewrite normalize3_fin by exact Htnz.
  fin_simpl.
  rewrite Hix, (Rdot3_comm rayDir normal). fold c.
  set (s := sqrt (1 - c * c)) in *.
  rewrite Q2R_0, Q2R_1, Q2R_half.
  rewrite (ltb_fin_true 0 width) by exact Hw.
  fin_simpl.
  replace (spreadAngle * 1 * (1 / 2))%R with (spreadAngle / 2)%R by field.
  set (alpha := (spreadAngle / 2)%R) in *.
  rewrite rotate2DPlusMinus_fin.
  set (cs := cos alpha) in *. set (sn := sin alpha) in *.
  set (ux := (cs * s - sn * c)%R) in *. set (uy := (sn * s + cs * c)%R) in *.
  set (lx := (cs * s + sn * c)%R) in *. set (ly := (- (sn * s) + cs * c)%R) in *.
  cbv beta iota.
  unfold orthogonal, scale2, neg2. cbn [x2 y2]. fin_simpl.
  rewrite !div_fin by lra. fin_simpl.
  assert (Htrig : (sn * sn + cs * cs = 1)%R).
  { pose proof (sin2_cos2 alpha) as Hsc. unfold Rsqr in Hsc. exact Hsc. }
  assert (Hsum : (ux * ly + lx * uy = 2 * s * c)%R).
  { replace (ux * ly + lx * uy)%R with (2 * s * c * (sn * sn + cs * cs))%R
      by (unfold ux, uy, lx, ly; ring).
    rewrite Htrig. ring. }
  assert (Hprod : (0 < uy * ly)%R) by nra.
  set (hu := (- c * width * (1 / 2) + ux * (- (s * width * (1 / 2)) / uy))%R).
  set (hl := (- (- c * width * (1 / 2))
              + lx * (- - (s * width * (1 / 2)) / ly))%R).
  assert (Hhit : (hl < hu)%R).
  { assert (Hq : (0 < s * s / (uy * ly))%R)
      by (apply Rdiv_lt_0_compat; nra).
    assert (Hdiff : (hu - hl = - c * width * (1 + s * s / (uy * ly)))%R).
    { replace (hu - hl)%R
        with (- c * width - s * width / 2 * ((ux * ly + lx * uy) / (uy * ly)))%R
        by (unfold hu, hl; field; lra).
      rewrite Hsum. field. lra. }
    assert (Hpos : (0 < - c * width * (1 + s * s / (uy * ly)))%R).
    { apply Rmult_lt_0_compat; [nra | lra]. }
    lra. }
  rewrite (ltb_fin_true hl hu) by exact Hhit.
  fin_simpl.
  rewrite rotate_normal_zero by ring.
  cbv beta iota.
  rewrite !refractWithTIR2D_eta1 by lra.
  cbv beta iota. cbn [negb x2 y2]. unfold dot2. cbn [x2 y2]. fin_simpl.
  assert (Hcs : (0 < cs)%R).
  { assert (Hyy : (uy + ly = 2 * cs * c)%R) by (unfold uy, ly; ring).
    destruct (Rle_or_lt cs 0) as [Hle | Hgt]; [exfalso | exact Hgt].
    assert (0 <= cs * c)%R by (clear - Hle Hc; nra). lra. }
  assert (HD1 : (- c * - uy + s * ux = cs)%R).
  { replace (- c * - uy + s * ux)%R with (cs * (s * s + c * c))%R
      by (unfold ux, uy; ring).
    rewrite Hunit. ring. }
  assert (HD2 : (- c * - ly + s * lx = cs)%R).
  { replace (- c * - ly + s * lx)%R with (cs * (s * s + c * c))%R
      by (unfold lx, ly; ring).
    rewrite Hunit. ring. }
  rewrite HD1, HD2. rewrite !div_fin by lra. fin_simpl.
  assert (HW : (- hu * uy / cs + hl * ly / cs = width)%R).
  { replace (- hu * uy)%R with (width / 2 * (- c * - uy + s * ux))%R
      by (unfold hu; field; lra).
    replace (hl * ly)%R with (width / 2 * (- c * - ly + s * lx))%R
      by (unfold hl; field; lra).
    rewrite HD1, HD2. field. lra. }
  rewrite HW.
  assert (Hdouble : spreadAngle = (2 * alpha)%R) by (unfold alpha; field).
  assert (Hdot : (ux * lx + uy * ly = cos spreadAngle)%R).
  { rewrite Hdouble, cos_2a. fold cs sn.
    replace (ux * lx + uy * ly)%R
      with ((cs * cs - sn * sn) * (s * s + c * c))%R
      by (unfold ux, uy, lx, ly; ring).
    rewrite Hunit. ring. }
  assert (Hcross : ((ux * ly - uy * lx) * 1 = - sin spreadAngle)%R).
  { rewrite Hdouble, sin_2a. fold cs sn.
    replace ((ux * ly - uy * lx) * 1)%R
      with (- (2 * sn * cs) * (s * s + c * c))%R
      by (unfold ux, uy, lx, ly; ring).
    rewrite Hunit. ring. }
  rewrite Hdot, Hcross.
  cbn [facos xreal_Transc].
  rewrite xacos_fin by (pose proof (COS_bound spreadAngle); lra).
  assert (Hlt_pi : (spreadAngle < PI)%R).
  { destruct Ha as [_ [Hlt | Heq]]; [exact Hlt | exfalso].
    assert (Hal : alpha = (PI / 2)%R) by (unfold alpha; rewrite Heq; reflexivity).
    unfold uy, cs, sn in Hu. rewrite Hal, sin_PI2, cos_PI2 in Hu. lra. }
  unfold RayCone_make. cbn [f32tof16 xreal_Arith].
  destruct (Rlt_dec 0 spreadAngle) as [Hpos | Hneg].
  - assert (Hsin : (0 < sin spreadAngle)%R) by (apply sin_gt_0; lra).
    rewrite ltb_fin_true by lra. fin_simpl.
    rewrite acos_cos by lra. rewrite Rmult_1_r. reflexivity.
  - assert (Hsin : (0 <= sin (- spreadAngle))%R) by (apply sin_ge_0; lra).
    rewrite sin_neg in Hsin.
    rewrite ltb_fin_false by lra. fin_simpl.
    rewrite <- (cos_neg spreadAngle), acos_cos by lra.
    unfold fin. do 2 f_equal. ring.
Qed.

(** *** Single precision *)

(* Replace the ground single-precision subterms that feed the intrinsics by
   their values. *)
Ltac b32_ground_off cosf sinf acosf a :=
  lazymatch a with
  | context [cosf _] => fail
  | context [sinf _] => fail
  | context [acosf _] => fail
  | _ => idtac
  end.

Ltac b32_eval_arguments cosf sinf acosf :=
  repeat match goal with
  | |- context [@normalize3 binary32 ?A ?a] =>
      let v := eval vm_compute in (@normalize3 binary32 A a) in
      replace (@normalize3 binary32 A a) with v by (vm_compute; reflexivity)
  end;
  repeat match goal with
  | |- context [@dot3 binary32 ?A ?a ?b] =>
      let v := eval vm_compute in (@dot3 binary32 A a b) in
      replace (@dot3 binary32 A a b) with v by (vm_compute; reflexivity)
  end;
  repeat match goal with
  | |- context [@getWidth binary32 ?A ?a] =>
      b32_ground_off cosf sinf acosf a;
      let v := eval vm_compute in (@getWidth binary32 A a) in
      replace (@getWidth binary32 A a) with v by (vm_compute; reflexivity)
  | |- context [@getSpreadAngle binary32 ?A ?a] =>
      b32_ground_off cosf sinf acosf a;
      let v := eval vm_compute in (@getSpreadAngle binary32 A a) in
      replace (@getSpreadAngle binary32 A a) with v
        by (vm_compute; reflexivity)
  end.

Ltac b32_eval_angle cosf sinf acosf f :=
  match goal with
  | |- context [f ?a] =>
      lazymatch a with S754_zero _ => fail | _ => idtac end;
      b32_ground_off cosf sinf acosf a;
      let v := eval vm_compute in a in
      replace a with v by (vm_compute; reflexivity)
  end.

(* refractRayCone at eta = 1 for rayDir = normalize(2,0,-3) and the normal
   (0,0,1): the two refracted bounding directions coincide and their computed
   dot product is the successor of 1, so that the spread angle is the acos of
   a number above 1. *)
Lemma refractRayCone_eta1_nan_angle
    (cosf sinf acosf asinf atanf log2f : binary32 -> binary32) :
  (forall s, cosf (S754_zero s) = b32_of_Z 1) ->
  (forall s, sinf (S754_zero s) = S754_zero s) ->
  (forall x, ltb (b32_of_Z 1) x = true -> acosf x = S754_nan) ->
  let rayDir := normalize3 (b32_vec3 2 0 (-3)) in
  let r := @refractRayCone binary32 _
             {| fcos := cosf; fsin := sinf; facos := acosf;
                fasin := asinf; fatan := atanf; flog2 := log2f |}
             (RayCone_make (b32_of_Z 1) (b32_of_Z 0)) (b32_vec3 0 0 1)
             rayDir (b32_vec3 0 0 0) (b32_vec3 0 0 1) (b32_of_Z 0)
             (b32_of_Z 1) in
  fst (fst r) = true /\ snd r = rayDir
  /\ getSpreadAngle (snd (fst r)) = S754_nan.
Proof.
  intros Hcos Hsin Hacos rayDir r. unfold r, rayDir.
  unfold refractRayCone.
  replace (refractWithTIR (normalize3 (b32_vec3 2 0 (-3))) (b32_vec3 0 0 1)
             (b32_of_Z 1))
    with (true, mkFloat3 (S754_finite false 9306325 (-24)) (S754_zero false)
                  (S754_finite true 13959488 (-24)))
    by (vm_compute; reflexivity).
  cbv beta iota. cbn [negb fst snd].
  split; [reflexivity |]. split; [vm_compute; reflexivity |].
  unfold computeRayConeForRefraction, rotate2DPlusMinus.
  cbv beta zeta iota.
  unfold fcos, fsin, facos. cbv beta iota.
  b32_eval_arguments cosf sinf acosf.
  repeat (repeat first [ b32_eval_angle cosf sinf acosf cosf
                       | b32_eval_angle cosf sinf acosf sinf ];
          progress rewrite ?Hcos, ?Hsin).
  b32_eval_angle cosf sinf acosf acosf.
  rewrite Hacos by (vm_compute; reflexivity).
  vm_compute. reflexivity.
Qed.

(* refractRayDifferential at eta = 1 for rayDir = normalize(3,0,-1): the
   refracted direction and the direction differential differ from the
   incident ones in the last bit of their z components. *)
Lemma refractRayDifferential_eta1_rounded :
  let rayDir := normalize3 (b32_vec3 3 0 (-1)) in
  let normal := b32_vec3 0 0 1 in
  let dD := mkFloat3 (lit 0.1) (lit 0.2) (lit 0.3) in
  let r := refractRayDifferential
             (mkRayDiff (b32_vec3 0 0 0) (b32_vec3 0 0 0) dD dD)
             rayDir normal normal (b32_vec2 0 0) (b32_vec2 0 0)
             (mkArray3 normal normal normal) (b32_of_Z 1) in
  fst (fst r) = true
  /\ z3 rayDir = S754_finite true 10610843 (-25)
  /\ z3 (snd r) = S754_finite true 10610844 (-25)
  /\ z3 dD = S754_finite false 10066330 (-25)
  /\ z3 (dDdx (snd (fst r))) = S754_finite false 10066329 (-25).
Proof. vm_compute. repeat split; reflexivity. Qed.

(** C5. For eta = 1.  In exact arithmetic, for a unit rayDir and a unit
    normal with dot(normal, rayDir) < 0 and finite inputs:
    refractRayDifferential (with a non-zero unnormalized normal) reports
    success, returns rayDir as refracted direction and leaves the ray
    differential unchanged; and when moreover rayDir is not anti-parallel to
    the normal (-1 < dot(normal, rayDir)), normalSpreadAngle = 0, the cone has
    a positive width and a spread angle in [-PI, PI], and both bounding rays
    reach the surface, refractRayCone reports success, returns rayDir as
    refracted direction and returns the cone it was given.  In binary32 the
    equalities hold up to rounding only: for rayDir = normalize(3,0,-1) and
    the normal (0,0,1), refractRayDifferential reports success but the
    refracted direction and the direction differential differ from the
    incident ones in their last bit; and for rayDir = normalize(2,0,-3), the
    cone of width 1 and spread angle 0, and intrinsics with cos(+-0) = 1,
    sin(+-0) = +-0 and acos a NaN above 1, refractRayCone reports success with
    rayDir as refracted direction and a spread angle that is a NaN. *)
Theorem refraction_eta1_is_identity :
  (forall rayDir normal : float3 R,
     Rdot3 rayDir rayDir = 1%R -> Rdot3 normal normal = 1%R ->
     (Rdot3 normal rayDir < 0)%R ->
     (forall (oX oY dX dY nnN : float3 R) (dBarydx dBarydy : float2 R)
             (normalsW : array3 (float3 R)),
        Rdot3 nnN nnN <> 0%R ->
        refractRayDifferential (finRayDiff oX oY dX dY) (fin3 rayDir)
          (fin3 nnN) (fin3 normal) (fin2 dBarydx) (fin2 dBarydy)
          (finArray3 normalsW) (fin 1)
        = (true, finRayDiff oX oY dX dY, fin3 rayDir))
     /\ (forall (width spreadAngle : R) (rayOrg hitPoint : float3 xreal),
           (-1 < Rdot3 normal rayDir)%R ->
           (0 < width)%R -> (- PI <= spreadAngle <= PI)%R ->
           (y2 (fst (boundingDirections rayDir normal spreadAngle)) < 0)%R ->
           (y2 (snd (boundingDirections rayDir normal spreadAngle)) < 0)%R ->
           refractRayCone (finCone width spreadAngle) rayOrg (fin3 rayDir)
             hitPoint (fin3 normal) (fin 0) (fin 1)
           = (true, finCone width spreadAngle, fin3 rayDir)))
  /\ (let rayDir := normalize3 (b32_vec3 3 0 (-1)) in
      let normal := b32_vec3 0 0 1 in
      let dD := mkFloat3 (lit 0.1) (lit 0.2) (lit 0.3) in
      let r := refractRayDifferential
                 (mkRayDiff (b32_vec3 0 0 0) (b32_vec3 0 0 0) dD dD)
                 rayDir normal normal (b32_vec2 0 0) (b32_vec2 0 0)
                 (mkArray3 normal normal normal) (b32_of_Z 1) in
      fst (fst r) = true
      /\ z3 rayDir = S754_finite true 10610843 (-25)
      /\ z3 (snd r) = S754_finite true 10610844 (-25)
      /\ z3 dD = S754_finite false 10066330 (-25)
      /\ z3 (dDdx (snd (fst r))) = S754_finite false 10066329 (-25))
  /\ (forall Tr : Transc binary32,
        (forall s, fcos (S754_zero s) = b32_of_Z 1) ->
        (forall s, fsin (S754_zero s) = S754_zero s) ->
        (forall x : binary32,
           ltb (b32_of_Z 1) x = true -> facos x = S754_nan) ->
        let rayDir := normalize3 (b32_vec3 2 0 (-3)) in
        let r := refractRayCone (RayCone_make (b32_of_Z 1) (b32_of_Z 0))
                   (b32_vec3 0 0 1) rayDir (b32_vec3 0 0 0) (b32_vec3 0 0 1)
                   (b32_of_Z 0) (b32_of_Z 1) in
        fst (fst r) = true /\ snd r = rayDir
        /\ getSpreadAngle (snd (fst r)) = S754_nan).
Proof.
  split; [| split].
  - intros rayDir normal Hd Hn Hc. split.
    + intros oX oY dX dY nnN dBarydx dBarydy normalsW Hnn.
      apply refractRayDifferential_eta1; assumption.
    + intros width spreadAngle rayOrg hitPoint Hc1 Hw Ha Hu Hl.
      apply refractRayCone_eta1; try assumption. lra.
  - exact refractRayDifferential_eta1_rounded.
  - intros [cosf sinf acosf asinf atanf log2f] Hcos Hsin Hacos.
    cbn [fcos fsin facos] in Hcos, Hsin, Hacos.
    exact (refractRayCone_eta1_nan_angle cosf sinf acosf asinf atanf log2f
             Hcos Hsin Hacos).
Qed.

Lemma refraction_eta1_is_identity_witness :
  let d := (mkFloat3 (3 / 5) 0 (-4 / 5))%R in
  let n := (mkFloat3 0 0 1)%R in
  let o := (mkFloat3 0 0 0)%R in
  let b := (mkFloat2 0 0)%R in
  Rdot3 d d = 1%R /\ Rdot3 n n = 1%R /\ (Rdot3 n d < 0)%R
  /\ refractRayDifferential (finRayDiff o o d d) (fin3 d) (fin3 n) (fin3 n)
       (fin2 b) (fin2 b) (finArray3 (mkArray3 n n n)) (fin 1)
     = (true, finRayDiff o o d d, fin3 d)
  /\ refractRayCone (finCone 1 0) (fin3 o) (fin3 d) (fin3 o) (fin3 n)
       (fin 0) (fin 1)
     = (true, finCone 1 0, fin3 d)
  /\ getSpreadAngle
       (snd (fst (@refractRayCone binary32 _ b32_intrinsics_at_zero
                    (RayCone_make (b32_of_Z 1) (b32_of_Z 0))
                    (b32_vec3 0 0 1) (normalize3 (b32_vec3 2 0 (-3)))
                    (b32_vec3 0 0 0) (b32_vec3 0 0 1) (b32_of_Z 0)
                    (b32_of_Z 1))))
     = S754_nan.
Proof.
  intros d n o b.
  assert (Hd : Rdot3 d d = 1%R) by (unfold Rdot3, d; cbn [x3 y3 z3]; lra).
  assert (Hn : Rdot3 n n = 1%R) by (unfold Rdot3, n; cbn [x3 y3 z3]; lra).
  assert (Hcv : Rdot3 n d = (-4 / 5)%R)
    by (unfold Rdot3, d, n; cbn [x3 y3 z3]; lra).
  assert (Hc : (Rdot3 n d < 0)%R) by lra.
  destruct refraction_eta1_is_identity as (Hexact & _ & Hnan).
  destruct (Hexact d n Hd Hn Hc) as [Hdiff Hcone].
  split; [exact Hd |]. split; [exact Hn |]. split; [exact Hc |].
  split; [| split].
  - apply Hdiff. rewrite Hn. lra.
  - assert (Hs : (0 < sqrt (1 - Rdot3 n d * Rdot3 n d))%R).
    { apply sqrt_lt_R0. rewrite Hcv. lra. }
    assert (Hzero : (0 / 2)%R = 0%R) by field.
    apply Hcone.
    + lra.
    + lra.
    + pose proof PI_RGT_0. lra.
    + unfold boundingDirections. cbn [fst x2 y2].
      rewrite Hzero, sin_0, cos_0. lra.
    + unfold boundingDirections. cbn [snd x2 y2].
      rewrite Hzero, sin_0, cos_0. lra.
  - apply (Hnan b32_intrinsics_at_zero).
    + intros s. reflexivity.
    + intros s. reflexivity.
    + intros x _. reflexivity.
Defined.

Lemma normalize3_zero_length (v : float3 R) :
  Rdot3 v v = 0%R -> normalize3 (fin3 v) = mkFloat3 None None None.
Proof.
  intros Hv. unfold normalize3. rewrite length3_fin.
  unfold Rlength3. rewrite Hv, sqrt_0.
  unfold divs3, fin3. cbn [x3 y3 z3].
  change (div (fin ?a) (fin 0)) with (xdiv (Some a) (Some 0%R)).
  rewrite !xdiv_zero. reflexivity.
Qed.

Lemma dot3_nan_r (a : float3 R) :
  dot3 (fin3 a) (mkFloat3 None None None) = None.
Proof. reflexivity. Qed.

Lemma rotate2DPlusMinus_nan_x (y a : R) :
  rotate2DPlusMinus (mkFloat2 None (fin y)) (fin a)
  = (mkFloat2 None None, mkFloat2 None None).
Proof. reflexivity. Qed.

Lemma refractWithTIR2D_nan (a b e : R) :
  refractWithTIR2D (mkFloat2 None None) (mkFloat2 (fin a) (fin b)) (fin e)
  = (true, mkFloat2 None None).
Proof. reflexivity. Qed.

(** C5, counterexample: in the exact model, at normal incidence,
    rayDir = (0,0,-1) and normal = (0,0,1), with eta = 1,
    normalSpreadAngle = 0 and the cone of width 1 and spread angle 0,
    refractRayCone reports success but normalizes the zero vector to build
    its 2D frame: the width and the spread angle of the returned cone are
    invalid, not those of the input cone. *)
Lemma refractRayCone_normal_incidence_invalid :
  let d := (mkFloat3 0 0 (-1))%R in
  let n := (mkFloat3 0 0 1)%R in
  let r := refractRayCone (finCone 1 0) (fin3 d) (fin3 d) (fin3 d) (fin3 n)
             (fin 0) (fin 1) in
  Rdot3 d d = 1%R /\ Rdot3 n n = 1%R /\ (Rdot3 n d < 0)%R
  /\ fst (fst r) = true /\ snd r = fin3 d
  /\ getWidth (snd (fst r)) = None /\ getSpreadAngle (snd (fst r)) = None.
Proof.
  intros d n r.
  assert (Hc : Rdot3 n d = (-1)%R)
    by (unfold Rdot3, d, n; cbn [x3 y3 z3]; ring).
  split; [unfold Rdot3, d; cbn [x3 y3 z3]; ring |].
  split; [unfold Rdot3, n; cbn [x3 y3 z3]; ring |].
  split; [lra |].
  unfold r, refractRayCone. rewrite refractWithTIR_eta1 by lra.
  cbn [negb fst snd]. split; [reflexivity |]. split; [reflexivity |].
  unfold computeRayConeForRefraction, getWidth, getSpreadAngle, finCone.
  cbn [widthFP16 spreadAngleFP16 f16tof32 xreal_Arith].
  fin_simpl. rewrite Hc.
  rewrite normalize3_zero_length
    by (unfold Rdot3, Rsub3, Rscale3, d, n; cbn [x3 y3 z3]; ring).
  rewrite Q2R_0, Q2R_1, Q2R_half.
  rewrite (ltb_fin_true 0 1) by lra.
  fin_simpl.
  rewrite !dot3_nan_r, rotate2DPlusMinus_nan_x.
  cbv beta iota.
  unfold orthogonal, scale2, neg2.
  cbn [x2 y2 mul add div neg ltb xreal_Arith xlift1 xlift2 xdiv xltb fin].
  change (Some ?a) with (fin a). fin_simpl.
  rewrite rotate2DPlusMinus_fin. cbv beta iota.
  rewrite !refractWithTIR2D_nan. cbv beta iota.
  unfold RayCone_make, dot2.
  cbn [negb x2 y2 mul add div neg facos xreal_Arith xreal_Transc xacos
       xlift1 xlift2 xdiv f32tof16 widthFP16 spreadAngleFP16].
  split; reflexivity.
Qed.

(** * Further properties of the ray cone helpers *)

(** X1. In the exact model, propagating a ray cone over a distance t1 and then
    over a distance t2 gives the width and the spread angle of propagating it
    once over t1 + t2 (invalid values included). *)
Theorem propagateDistance_additive (c : RayCone xreal) (t1 t2 : xreal) :
  getWidth (propagateDistance (propagateDistance c t1) t2)
    = getWidth (propagateDistance c (add t1 t2))
  /\ getSpreadAngle (propagateDistance (propagateDistance c t1) t2)
     = getSpreadAngle (propagateDistance c (add t1 t2)).
Proof.
  destruct c as [w a]. split; [| reflexivity].
  unfold propagateDistance, RayCone_make, getWidth, getSpreadAngle. xred.
  destruct a, t1, t2, w; xred; try reflexivity. f_equal. ring.
Qed.

(** X2. In the exact model, addToSpreadAngle keeps the width; adding s1 and
    then s2 gives the spread angle of adding s1 + s2; and an angle s added
    before a propagation over t widens the propagated cone by s * t. *)
Theorem addToSpreadAngle_accumulates (c : RayCone xreal) (s1 s2 t : xreal) :
  getWidth (addToSpreadAngle c s1) = getWidth c
  /\ getSpreadAngle (addToSpreadAngle (addToSpreadAngle c s1) s2)
     = getSpreadAngle (addToSpreadAngle c (add s1 s2))
  /\ getWidth (propagateDistance (addToSpreadAngle c s1) t)
     = add (getWidth (propagateDistance c t)) (mul s1 t).
Proof.
  destruct c as [w a]. split; [reflexivity |].
  unfold propagateDistance, addToSpreadAngle, RayCone_make, getWidth,
    getSpreadAngle. xred.
  split.
  - destruct a, s1, s2; xred; try reflexivity. f_equal. ring.
  - destruct a, s1, t, w; xred; try reflexivity. f_equal. ring.
Qed.

Lemma Rlog2_div (a b : R) :
  (0 < a)%R -> (0 < b)%R -> Rlog2 (a / b) = (Rlog2 a - Rlog2 b)%R.
Proof.
  intros Ha Hb. unfold Rlog2, Rdiv.
  rewrite ln_mult by (try apply Rinv_0_lt_compat; assumption).
  rewrite ln_Rinv by assumption.
  assert (H2 : (0 < ln 2)%R) by (rewrite <- ln_1; apply ln_increasing; lra).
  field. lra.
Qed.

Lemma Rlog2_mult (a b : R) :
  (0 < a)%R -> (0 < b)%R -> Rlog2 (a * b) = (Rlog2 a + Rlog2 b)%R.
Proof.
  intros Ha Hb. unfold Rlog2. rewrite ln_mult by assumption.
  assert (H2 : (0 < ln 2)%R) by (rewrite <- ln_1; apply ln_increasing; lra).
  field. lra.
Qed.

Lemma Rlog2_2 : Rlog2 2 = 1%R.
Proof.
  unfold Rlog2.
  assert (H2 : (0 < ln 2)%R) by (rewrite <- ln_1; apply ln_increasing; lra).
  field. lra.
Qed.

(** X3. In the exact model, for a cone of non-zero width, a normal that is not
    perpendicular to the ray and a texture with textureWidth * textureHeight
    > 0, the computeLOD overload that takes the texture dimensions returns
    the value of the overload without them plus log2(textureWidth *
    textureHeight) / 2. *)
Theorem computeLOD_textureSize_offset (w a t tw th : R)
    (rayDir normal : float3 R) (b : bool) :
  w <> 0%R -> Rdot3 rayDir normal <> 0%R -> (0 < tw * th)%R ->
  computeLOD_textureSize (finCone w a) (fin t) (fin3 rayDir) (fin3 normal)
    (fin tw) (fin th) b
  = add (computeLOD (finCone w a) (fin t) (fin3 rayDir) (fin3 normal) b)
        (fin (Rlog2 (tw * th) / 2)).
Proof.
  intros Hw Hdot Htex.
  rewrite computeLOD_fin by assumption.
  pose proof (normalTermR_pos b rayDir normal Hdot) as Hnt.
  pose proof (Rabs_pos_lt _ Hw) as Hwpos.
  rewrite Rlog2_div by assumption.
  unfold computeLOD_textureSize, getWidth, dot3. xred.
  fold (Rdot3 rayDir normal).
  rewrite xlog2_fin by exact Htex. rewrite xlog2_fin by exact Hwpos.
  unfold normalTermR in *. destruct b.
  - xred. rewrite xsqrt_fin by apply Rabs_pos. rewrite xlog2_fin by exact Hnt.
    xred. f_equal. unfold Q2R; simpl. lra.
  - rewrite xlog2_fin by exact Hnt. xred. f_equal. unfold Q2R; simpl. lra.
Qed.

Lemma computeLOD_textureSize_offset_witness :
  computeLOD_textureSize (finCone 1 0) (fin 0) (fin3 (mkFloat3 0 0 (-1))%R)
    (fin3 (mkFloat3 0 0 1)%R) (fin 2) (fin 2) false
  = add (computeLOD (finCone 1 0) (fin 0) (fin3 (mkFloat3 0 0 (-1))%R)
           (fin3 (mkFloat3 0 0 1)%R) false)
        (fin (Rlog2 (2 * 2) / 2)).
Proof.
  apply computeLOD_textureSize_offset.
  - lra.
  - unfold Rdot3; cbn [x3 y3 z3]; lra.
  - lra.
Defined.

(** X4. The packed payload keeps both halves: for 16-bit patterns width16 and
    angle16, the uint built by the initializer fits in 32 bits, getWidth
    converts width16 and getSpreadAngle converts angle16. *)
Theorem widthSpreadAngleFP16_roundtrip (width16 angle16 : Z) :
  (0 <= width16 < 2 ^ 16)%Z -> (0 <= angle16 < 2 ^ 16)%Z ->
  (0 <= widthSpreadAngleFP16_init width16 angle16 < 2 ^ 32)%Z
  /\ getWidth_bits (widthSpreadAngleFP16_init width16 angle16) = width16
  /\ getSpreadAngle_bits (widthSpreadAngleFP16_init width16 angle16) = angle16.
Proof.
  intros Hw Ha.
  assert (Hu : uint (Z.shiftl width16 16) = (width16 * 2 ^ 16)%Z).
  { unfold uint. rewrite Z.shiftl_mul_pow2 by lia. apply Z.mod_small. lia. }
  assert (Hinit : widthSpreadAngleFP16_init width16 angle16
                  = (width16 * 2 ^ 16 + angle16)%Z).
  { unfold widthSpreadAngleFP16_init. rewrite Hu.
    assert (Hland : Z.land (width16 * 2 ^ 16) angle16 = 0%Z).
    { apply Z.bits_inj'; intros n Hn. rewrite Z.land_spec, Z.bits_0.
      destruct (Z.lt_ge_cases n 16) as [Hlt | Hge].
      - rewrite Z.mul_pow2_bits_low by lia. reflexivity.
      - destruct (Z.eq_dec angle16 0) as [-> | Hnz].
        + rewrite Z.bits_0. apply andb_false_r.
        + rewrite (Z.bits_above_log2 angle16 n), andb_false_r;
            [reflexivity | lia |].
          apply Z.lt_le_trans with 16%Z; [| exact Hge].
          apply Z.log2_lt_pow2; lia. }
    rewrite <- (Z.lxor_lor _ _ Hland), <- (Z.add_nocarry_lxor _ _ Hland).
    reflexivity. }
  rewrite Hinit. unfold getWidth_bits, getSpreadAngle_bits.
  change 65535%Z with (Z.ones 16). rewrite !Z.land_ones by lia.
  rewrite Z.shiftr_div_pow2 by lia.
  replace ((width16 * 2 ^ 16 + angle16) / 2 ^ 16)%Z with width16
    by (apply Z.div_unique with angle16; lia).
  repeat split; try lia.
  - apply Z.mod_small; lia.
  - rewrite Z.add_comm, Z.mod_add by lia. apply Z.mod_small; lia.
Qed.

Lemma widthSpreadAngleFP16_roundtrip_witness :
  getWidth_bits (widthSpreadAngleFP16_init 15360 11878) = 15360%Z
  /\ getSpreadAngle_bits (widthSpreadAngleFP16_init 15360 11878) = 11878%Z.
Proof.
  apply (widthSpreadAngleFP16_roundtrip 15360 11878); lia.
Defined.

(** ** The triangle LOD value *)

Lemma mul_v3_m33_fin (v : float3 R) (m : float3x3 R) :
  mul_v3_m33 (fin3 v) (finMat3 m) = fin3 (Rmul_v3_m33 v m).
Proof. reflexivity. Qed.

Lemma computeRayConeTriangleLODValue_fin (vertices : array3 (float3 R))
    (txcoords : array3 (float2 R)) (worldMat : float3x3 R) :
  computeRayConeTriangleLODValue (finArray3 vertices) (finArray2 txcoords)
    (finMat3 worldMat)
  = mul (lit 0.5)
        (flog2 (div (fin (texArea2 txcoords))
                    (fin (worldArea2 vertices worldMat)))).
Proof.
  unfold computeRayConeTriangleLODValue, finArray3, finArray2.
  cbn [elt0 elt1 elt2].
  rewrite !sub3_fin, !mul_v3_m33_fin, cross_fin, length3_fin.
  reflexivity.
Qed.

Lemma float3_eq (a b : float3 R) :
  x3 a = x3 b -> y3 a = y3 b -> z3 a = z3 b -> a = b.
Proof.
  destruct a as [a1 a2 a3], b as [b1 b2 b3]. cbn [x3 y3 z3].
  intros -> -> ->. reflexivity.
Qed.

Lemma Rdot3_neg_neg (a : float3 R) :
  Rdot3 (Rlscale3 (-1) a) (Rlscale3 (-1) a) = Rdot3 a a.
Proof. unfold Rdot3, Rlscale3; cbn [x3 y3 z3]. ring. Qed.

(** X5. In the exact model, the triangle LOD value does not change when the
    triangle is moved by an offset, when the texture coordinates are moved by
    an offset, or when the second and third vertex are exchanged (positions
    and texture coordinates together). *)
Theorem computeRayConeTriangleLODValue_invariant
    (vertices : array3 (float3 R)) (txcoords : array3 (float2 R))
    (worldMat : float3x3 R) (o : float3 R) (u : float2 R) :
  computeRayConeTriangleLODValue (finArray3 (translate3 o vertices))
    (finArray2 (translate2 u txcoords)) (finMat3 worldMat)
  = computeRayConeTriangleLODValue (finArray3 vertices) (finArray2 txcoords)
      (finMat3 worldMat)
  /\ computeRayConeTriangleLODValue (finArray3 (swap12 vertices))
       (finArray2 (swap12 txcoords)) (finMat3 worldMat)
     = computeRayConeTriangleLODValue (finArray3 vertices)
         (finArray2 txcoords) (finMat3 worldMat).
Proof.
  rewrite !computeRayConeTriangleLODValue_fin.
  split.
  - replace (texArea2 (translate2 u txcoords)) with (texArea2 txcoords).
    replace (worldArea2 (translate3 o vertices) worldMat)
      with (worldArea2 vertices worldMat).
    + reflexivity.
    + unfold worldArea2, translate3. cbn [elt0 elt1 elt2].
      do 3 f_equal; apply float3_eq;
        unfold Rsub3, Radd3; cbn [x3 y3 z3]; ring.
    + unfold texArea2, translate2, Rsub2, Radd2. cbn [elt0 elt1 elt2 x2 y2].
      f_equal. ring.
  - replace (texArea2 (swap12 txcoords)) with (texArea2 txcoords).
    replace (worldArea2 (swap12 vertices) worldMat)
      with (worldArea2 vertices worldMat).
    + reflexivity.
    + unfold worldArea2, swap12, Rlength3. cbn [elt0 elt1 elt2]. f_equal.
      unfold Rdot3, Rcross. cbn [x3 y3 z3]. ring.
    + unfold texArea2, swap12, Rsub2. cbn [elt0 elt1 elt2 x2 y2].
      rewrite <- Rabs_Ropp. f_equal. ring.
Qed.

Lemma texArea2_scale (k : R) (txcoords : array3 (float2 R)) :
  texArea2 (scaleArray2 k txcoords) = (k * k * texArea2 txcoords)%R.
Proof.
  unfold texArea2, scaleArray2, Rsub2, Rscale2. cbn [elt0 elt1 elt2 x2 y2].
  rewrite <- (Rabs_right (k * k)) by nra. rewrite <- Rabs_mult.
  f_equal. ring.
Qed.

Lemma worldArea2_scale (s : R) (vertices : array3 (float3 R))
    (worldMat : float3x3 R) :
  worldArea2 vertices (Rscale_m33 s worldMat)
  = (s * s * worldArea2 vertices worldMat)%R.
Proof.
  unfold worldArea2.
  rewrite <- Rlength3_lscale by nra. f_equal.
  apply float3_eq;
    unfold Rlscale3, Rcross, Rmul_v3_m33, Rscale_m33, Rlscale3;
    cbn [x3 y3 z3 m3row0 m3row1 m3row2]; ring.
Qed.

(** X6. In the exact model, for a triangle of non-zero area in texture space
    and in world space, the triangle LOD value is log2(Ta / Pa) / 2, with Ta
    and Pa twice these areas; scaling the texture coordinates by k > 0 adds
    log2 k to it, and scaling the world matrix by s > 0 subtracts log2 s. *)
Theorem computeRayConeTriangleLODValue_scaling
    (vertices : array3 (float3 R)) (txcoords : array3 (float2 R))
    (worldMat : float3x3 R) (k s : R) :
  texArea2 txcoords <> 0%R -> worldArea2 vertices worldMat <> 0%R ->
  (0 < k)%R -> (0 < s)%R ->
  let value :=
    (Rlog2 (texArea2 txcoords / worldArea2 vertices worldMat) / 2)%R in
  computeRayConeTriangleLODValue (finArray3 vertices) (finArray2 txcoords)
    (finMat3 worldMat) = fin value
  /\ computeRayConeTriangleLODValue (finArray3 vertices)
       (finArray2 (scaleArray2 k txcoords)) (finMat3 worldMat)
     = fin (value + Rlog2 k)
  /\ computeRayConeTriangleLODValue (finArray3 vertices) (finArray2 txcoords)
       (finMat3 (Rscale_m33 s worldMat))
     = fin (value - Rlog2 s).
Proof.
  intros HTa HPa Hk Hs value. subst value.
  assert (HTa' : (0 < texArea2 txcoords)%R).
  { pose proof (Rabs_pos (texArea2 txcoords)) as Hp. unfold texArea2 in *.
    rewrite Rabs_Rabsolu in Hp. lra. }
  assert (HPa' : (0 < worldArea2 vertices worldMat)%R).
  { assert (0 <= worldArea2 vertices worldMat)%R by apply sqrt_pos. lra. }
  assert (Hkk : (0 < k * k)%R) by nra.
  assert (Hss : (0 < s * s)%R) by nra.
  rewrite !computeRayConeTriangleLODValue_fin.
  rewrite texArea2_scale, worldArea2_scale.
  assert (Hq : (0 < texArea2 txcoords / worldArea2 vertices worldMat)%R)
    by (apply Rdiv_lt_0_compat; assumption).
  assert (HkTa : (0 < k * k * texArea2 txcoords)%R)
    by (apply Rmult_lt_0_compat; assumption).
  assert (HsPa : (0 < s * s * worldArea2 vertices worldMat)%R)
    by (apply Rmult_lt_0_compat; assumption).
  rewrite !lit_fin, Q2R_half.
  repeat split.
  - rewrite div_fin by lra. unfold fin. xred.
    rewrite xlog2_fin by exact Hq. xred. f_equal. lra.
  - rewrite div_fin by lra. unfold fin. xred.
    rewrite xlog2_fin by (apply Rdiv_lt_0_compat; assumption).
    xred. f_equal.
    rewrite !Rlog2_div, !Rlog2_mult by assumption. lra.
  - rewrite div_fin by lra. unfold fin. xred.
    rewrite xlog2_fin by (apply Rdiv_lt_0_compat; assumption).
    xred. f_equal.
    rewrite !Rlog2_div, !Rlog2_mult by assumption. lra.
Qed.

Lemma computeRayConeTriangleLODValue_scaling_witness :
  let v := mkArray3 (mkFloat3 0 0 0)%R (mkFloat3 1 0 0)%R (mkFloat3 0 1 0)%R in
  let t := mkArray3 (mkFloat2 0 0)%R (mkFloat2 1 0)%R (mkFloat2 0 1)%R in
  let m := mkFloat3x3 (mkFloat3 1 0 0)%R (mkFloat3 0 1 0)%R (mkFloat3 0 0 1)%R in
  computeRayConeTriangleLODValue (finArray3 v) (finArray2 (scaleArray2 2 t))
    (finMat3 m)
  = fin (Rlog2 (texArea2 t / worldArea2 v m) / 2 + Rlog2 2).
Proof.
  intros v t m.
  assert (Ht : texArea2 t = 1%R).
  { unfold texArea2, t, Rsub2. cbn [elt0 elt1 elt2 x2 y2].
    replace ((1 - 0) * (1 - 0) - (0 - 0) * (0 - 0))%R with 1%R by ring.
    apply Rabs_R1. }
  assert (Hv : worldArea2 v m = 1%R).
  { unfold worldArea2, Rlength3, Rdot3, Rcross, Rmul_v3_m33, Rsub3, v, m.
    cbn [elt0 elt1 elt2 x3 y3 z3 m3row0 m3row1 m3row2].
    transitivity (sqrt 1); [f_equal; ring | apply sqrt_1]. }
  apply (computeRayConeTriangleLODValue_scaling v t m 2 1).
  - rewrite Ht. lra.
  - rewrite Hv. lra.
  - lra.
  - lra.
Defined.

(** ** Screen-space spread angle and environment map LOD *)

Lemma Rsign_sqr_le_1 (a : R) : (Rsign a * Rsign a <= 1)%R.
Proof.
  unfold Rsign. destruct (Rlt_dec 0 a); [lra |].
  destruct (Rlt_dec a 0); lra.
Qed.

Lemma atan_length_bounds (v : float3 R) :
  (0 <= atan (Rlength3 v) < PI / 2)%R.
Proof.
  split; [| apply atan_bound].
  assert (Hl : (0 <= Rlength3 v)%R) by apply sqrt_pos.
  rewrite <- atan_0. destruct Hl as [Hl | <-]; [| lra].
  left. apply atan_increasing. exact Hl.
Qed.

(** X7. In the exact model, for all finite arguments the spread angle that
    computeScreenSpaceSurfaceSpreadAngle derives from the normal
    differentials is finite, its square is below pi^2 / 2, and it is 0 when
    both normal differentials are zero. *)
Theorem computeScreenSpaceSurfaceSpreadAngle_bounded
    (rightVector upVector dNdx dNdy : float3 R) :
  exists beta : R,
    computeScreenSpaceSurfaceSpreadAngle (fin3 rightVector) (fin3 upVector)
      (fin3 dNdx) (fin3 dNdy) = fin beta
    /\ (beta * beta < PI * PI / 2)%R
    /\ (dNdx = zeroR3 -> dNdy = zeroR3 -> beta = 0%R).
Proof.
  pose proof (atan_length_bounds dNdx) as [Hx0 Hx1].
  pose proof (atan_length_bounds dNdy) as [Hy0 Hy1].
  set (bx := atan (Rlength3 dNdx)) in *.
  set (by_ := atan (Rlength3 dNdy)) in *.
  assert (Hsum : (0 <= bx * bx + by_ * by_)%R) by nra.
  assert (Hbound : (bx * bx + by_ * by_ < PI * PI / 2)%R) by nra.
  assert (Hform : forall sigma : R,
            (sigma * sigma <= 1)%R ->
            (sqrt (bx * bx + by_ * by_) * sigma
             * (sqrt (bx * bx + by_ * by_) * sigma) < PI * PI / 2)%R).
  { intros sigma Hs.
    replace (sqrt (bx * bx + by_ * by_) * sigma
             * (sqrt (bx * bx + by_ * by_) * sigma))%R
      with (sqrt (bx * bx + by_ * by_) * sqrt (bx * bx + by_ * by_)
            * (sigma * sigma))%R by ring.
    rewrite sqrt_sqrt by exact Hsum. nra. }
  assert (Hflat : dNdx = zeroR3 -> dNdy = zeroR3 ->
            forall sigma : R, (sqrt (bx * bx + by_ * by_) * sigma)%R = 0%R).
  { intros -> -> sigma. subst bx by_.
    replace (Rlength3 zeroR3) with 0%R.
    - rewrite atan_0. replace (0 * 0 + 0 * 0)%R with 0%R by ring.
      rewrite sqrt_0. ring.
    - unfold Rlength3, Rdot3, zeroR3. cbn [x3 y3 z3].
      replace (0 * 0 + 0 * 0 + 0 * 0)%R with 0%R by ring.
      symmetry. apply sqrt_0. }
  unfold computeScreenSpaceSurfaceSpreadAngle.
  rewrite !length3_fin, !dot3_fin.
  change (fatan (fin (Rlength3 dNdx))) with (fin bx).
  change (fatan (fin (Rlength3 dNdy))) with (fin by_).
  rewrite !mul_fin, add_fin, fsqrt_fin by exact Hsum.
  destruct (geb (fin bx) (fin by_)); rewrite fsign_fin, mul_fin;
    eexists; (split; [reflexivity |]); split;
    try (apply Hform, Rsign_sqr_le_1);
    intros Hx Hy; apply Hflat; assumption.
Qed.

(** X8. In the exact model, for a positive constant M_1_PI and a positive map
    height, the environment map LOD of a ray cone does not depend on the sign
    of the spread angle, grows by 1 when the map height doubles and agrees
    with the ray differential overload when length(dDdx + dDdy) equals the
    magnitude of the spread angle; for a spread angle of 0 it is invalid. *)
Theorem computeEnvironmentMapLOD_scaling (M_1_PI txh : R) :
  (0 < M_1_PI)%R -> (0 < txh)%R ->
  (forall spreadAngle : R,
     spreadAngle <> 0%R ->
     computeEnvironmentMapLOD (fin M_1_PI) (fin (- spreadAngle)) (fin txh)
     = computeEnvironmentMapLOD (fin M_1_PI) (fin spreadAngle) (fin txh)
     /\ computeEnvironmentMapLOD (fin M_1_PI) (fin spreadAngle) (fin (2 * txh))
        = add (computeEnvironmentMapLOD (fin M_1_PI) (fin spreadAngle) (fin txh))
              (fin 1)
     /\ (exists lambda : R,
           computeEnvironmentMapLOD (fin M_1_PI) (fin spreadAngle) (fin txh)
           = fin lambda)
     /\ forall dDdx dDdy : float3 R,
          Rlength3 (Radd3 dDdx dDdy) = Rabs spreadAngle ->
          computeEnvironmentMapLOD_rayDiff (fin M_1_PI) (fin3 dDdx) (fin3 dDdy)
            (fin txh)
          = computeEnvironmentMapLOD (fin M_1_PI) (fin spreadAngle) (fin txh))
  /\ computeEnvironmentMapLOD (fin M_1_PI) (fin 0) (fin txh) = None.
Proof.
  intros Hpi Hh. split.
  - intros a Ha.
    pose proof (Rabs_pos_lt _ Ha) as Hapos.
    assert (Harg : (0 < Rabs a * txh * M_1_PI)%R).
    { apply Rmult_lt_0_compat; [apply Rmult_lt_0_compat |]; assumption. }
    unfold computeEnvironmentMapLOD, computeEnvironmentMapLOD_rayDiff.
    repeat split.
    + rewrite !fabs_fin, Rabs_Ropp. reflexivity.
    + rewrite !fabs_fin, !mul_fin. unfold fin. xred.
      replace (Rabs a * (2 * txh) * M_1_PI)%R
        with (2 * (Rabs a * txh * M_1_PI))%R by ring.
      rewrite (xlog2_fin (2 * _)) by lra.
      rewrite xlog2_fin by exact Harg. xred. f_equal.
      rewrite Rlog2_mult by lra. rewrite Rlog2_2. ring.
    + rewrite !fabs_fin, !mul_fin. unfold fin. xred.
      rewrite xlog2_fin by exact Harg. eexists. reflexivity.
    + intros oX oY Hlen.
      rewrite add3_fin, length3_fin, Hlen, fabs_fin. reflexivity.
  - unfold computeEnvironmentMapLOD. rewrite fabs_fin, !mul_fin, Rabs_R0.
    unfold fin. xred. unfold xlog2.
    destruct (Rlt_dec 0 (0 * txh * M_1_PI)) as [Hlt | _]; [| reflexivity].
    exfalso. lra.
Qed.

Lemma computeEnvironmentMapLOD_scaling_witness :
  computeEnvironmentMapLOD (fin (1 / 3)) (fin (3 / 1024)) (fin (2 * 512))
  = add (computeEnvironmentMapLOD (fin (1 / 3)) (fin (3 / 1024)) (fin 512))
        (fin 1).
Proof.
  assert (Hpi : (0 < 1 / 3)%R) by lra.
  assert (Hh : (0 < 512)%R) by lra.
  destruct (computeEnvironmentMapLOD_scaling (1 / 3) 512 Hpi Hh) as [H _].
  assert (Ha : (3 / 1024)%R <> 0%R) by lra.
  destruct (H (3 / 1024)%R Ha) as [_ [Hdouble _]].
  exact Hdouble.
Defined.

(** * Further properties of the ray differential helpers *)

Lemma neg3_fin (a : float3 R) : neg3 (fin3 a) = fin3 (Rneg3 a).
Proof. reflexivity. Qed.

Lemma Rdot3_divs_l (e d : float3 R) (l : R) :
  l <> 0%R -> Rdot3 (Rdivs3 e l) d = (Rdot3 e d / l)%R.
Proof. intros Hl. unfold Rdot3, Rdivs3; cbn [x3 y3 z3]. field. exact Hl. Qed.

(** X9. In the exact model, when dot(D, N) <> 0, propagate returns finite
    differentials: each origin differential is dOd* + t * dDd* moved along D
    onto the plane through the origin with normal N (its dot product with N
    is 0), and the direction differentials are unchanged. *)
Theorem propagate_tangent_plane (O : float3 xreal)
    (oX oY dX dY D N : float3 R) (t : R) :
  Rdot3 D N <> 0%R ->
  exists sx sy : R,
    let oX' := Radd3 (Radd3 oX (Rlscale3 t dX)) (Rscale3 D sx) in
    let oY' := Radd3 (Radd3 oY (Rlscale3 t dY)) (Rscale3 D sy) in
    propagate (finRayDiff oX oY dX dY) O (fin3 D) (fin t) (fin3 N)
    = finRayDiff oX' oY' dX dY
    /\ Rdot3 oX' N = 0%R /\ Rdot3 oY' N = 0%R.
Proof.
  intros HDN.
  exists (- Rdot3 (Radd3 oX (Rlscale3 t dX)) N * (1 / Rdot3 D N))%R,
         (- Rdot3 (Radd3 oY (Rlscale3 t dY)) N * (1 / Rdot3 D N))%R.
  cbv zeta. split; [| split].
  - unfold propagate, finRayDiff, RayDiff_make. cbn [dOdx dOdy dDdx dDdy].
    rewrite !lscale3_fin, !add3_fin, !dot3_fin, lit_fin, Q2R_1.
    rewrite div_fin by exact HDN.
    rewrite !neg_fin, !mul_fin, !scale3_fin, !add3_fin. reflexivity.
  - unfold Rdot3, Radd3, Rscale3, Rlscale3 in *. cbn [x3 y3 z3] in *.
    field. exact HDN.
  - unfold Rdot3, Radd3, Rscale3, Rlscale3 in *. cbn [x3 y3 z3] in *.
    field. exact HDN.
Qed.

Lemma propagate_tangent_plane_witness :
  exists sx sy : R,
    let oX' :=
      Radd3 (Radd3 (mkFloat3 1 0 0)%R (Rlscale3 2 (mkFloat3 0 1 0)%R))
            (Rscale3 (mkFloat3 (3 / 5) 0 (-4 / 5))%R sx) in
    let oY' :=
      Radd3 (Radd3 (mkFloat3 0 1 1)%R (Rlscale3 2 (mkFloat3 0 0 0)%R))
            (Rscale3 (mkFloat3 (3 / 5) 0 (-4 / 5))%R sy) in
    propagate (finRayDiff (mkFloat3 1 0 0)%R (mkFloat3 0 1 1)%R
                 (mkFloat3 0 1 0)%R (mkFloat3 0 0 0)%R)
      (fin3 zeroR3) (fin3 (mkFloat3 (3 / 5) 0 (-4 / 5))%R) (fin 2)
      (fin3 (mkFloat3 0 0 1)%R)
    = finRayDiff oX' oY' (mkFloat3 0 1 0)%R (mkFloat3 0 0 0)%R
    /\ Rdot3 oX' (mkFloat3 0 0 1)%R = 0%R
    /\ Rdot3 oY' (mkFloat3 0 0 1)%R = 0%R.
Proof.
  apply (propagate_tangent_plane (fin3 zeroR3)).
  unfold Rdot3; cbn [x3 y3 z3]; lra.
Defined.

(** X10. In the exact model, when the ray direction is parallel to the
    surface (dot(D, N) = 0), both origin differentials returned by propagate
    are invalid in every component, whatever the ray differential; the
    direction differentials are still the input ones. *)
Theorem propagate_grazing_invalid (rayDiff : RayDiff xreal)
    (O : float3 xreal) (D N : float3 R) (t : xreal) :
  Rdot3 D N = 0%R ->
  dOdx (propagate rayDiff O (fin3 D) t (fin3 N)) = nan3
  /\ dOdy (propagate rayDiff O (fin3 D) t (fin3 N)) = nan3
  /\ dDdx (propagate rayDiff O (fin3 D) t (fin3 N)) = dDdx rayDiff
  /\ dDdy (propagate rayDiff O (fin3 D) t (fin3 N)) = dDdy rayDiff.
Proof.
  intros HDN.
  assert (Hrcp : div (lit 1) (dot3 (fin3 D) (fin3 N)) = None).
  { rewrite dot3_fin, HDN. apply xdiv_zero. }
  assert (Hdt : forall a : xreal, mul a (None : xreal) = None)
    by (intros [a |]; reflexivity).
  assert (Hadd : forall (v : float3 xreal),
            add3 v (scale3 (fin3 D) (None : xreal)) = nan3).
  { intros [[a |] [b |] [c |]]; reflexivity. }
  unfold propagate, RayDiff_make. cbn [dOdx dOdy dDdx dDdy].
  rewrite Hrcp, !Hdt, !Hadd. repeat split.
Qed.

Lemma propagate_grazing_invalid_witness :
  dOdx (propagate (finRayDiff zeroR3 zeroR3 zeroR3 zeroR3) (fin3 zeroR3)
          (fin3 (mkFloat3 1 0 0)%R) (fin 1) (fin3 (mkFloat3 0 0 1)%R))
  = nan3.
Proof.
  apply (propagate_grazing_invalid (finRayDiff zeroR3 zeroR3 zeroR3 zeroR3)).
  unfold Rdot3; cbn [x3 y3 z3]; lra.
Defined.

(** X11. In the exact model, for a non-zero camera ray direction and non-zero
    viewport dimensions, the two direction differentials of
    computeRayDirectionDifferentials are finite and perpendicular to the
    camera ray direction. *)
Theorem computeRayDirectionDifferentials_orthogonal
    (d cameraRight cameraUp : float3 R) (viewportDims : float2 R) :
  Rdot3 d d <> 0%R -> x2 viewportDims <> 0%R -> y2 viewportDims <> 0%R ->
  exists gx gy : float3 R,
    computeRayDirectionDifferentials (fin3 d) (fin3 cameraRight)
      (fin3 cameraUp) (fin2 viewportDims) = (fin3 gx, fin3 gy)
    /\ Rdot3 gx d = 0%R /\ Rdot3 gy d = 0%R.
Proof.
  intros Hd Hvx Hvy.
  pose proof (Rlength3_pos d Hd) as Hlen. unfold Rlength3 in Hlen.
  assert (Hdd : (0 < Rdot3 d d)%R).
  { pose proof (Rdot3_self_nonneg d). lra. }
  assert (Hden : (Rdot3 d d * sqrt (Rdot3 d d))%R <> 0%R)
    by (apply Rgt_not_eq, Rmult_lt_0_compat; assumption).
  unfold computeRayDirectionDifferentials.
  rewrite !dot3_fin, fsqrt_fin by lra.
  rewrite mul_fin, lit_fin, Q2R_2, div_fin by exact Hden.
  rewrite !lscale3_fin, !sub3_fin, neg3_fin, !scale3_fin.
  unfold fin2. cbn [x2 y2].
  rewrite !divs3_fin by assumption.
  eexists. eexists. split; [reflexivity |].
  set (q := (2 / (Rdot3 d d * sqrt (Rdot3 d d)))%R).
  split.
  - unfold Rdot3, Rdivs3, Rscale3, Rsub3, Rlscale3, Rneg3. cbn [x3 y3 z3].
    field. exact Hvx.
  - unfold Rdot3, Rdivs3, Rscale3, Rsub3, Rlscale3, Rneg3. cbn [x3 y3 z3].
    field. exact Hvy.
Qed.

Lemma computeRayDirectionDifferentials_orthogonal_witness :
  exists gx gy : float3 R,
    computeRayDirectionDifferentials (fin3 (mkFloat3 1 2 2)%R)
      (fin3 (mkFloat3 1 0 0)%R) (fin3 (mkFloat3 0 1 0)%R)
      (fin2 (mkFloat2 1920 1080)%R) = (fin3 gx, fin3 gy)
    /\ Rdot3 gx (mkFloat3 1 2 2)%R = 0%R
    /\ Rdot3 gy (mkFloat3 1 2 2)%R = 0%R.
Proof.
  apply computeRayDirectionDifferentials_orthogonal.
  - unfold Rdot3; cbn [x3 y3 z3]; lra.
  - cbn [x2]; lra.
  - cbn [y2]; lra.
Defined.

Lemma barycentric_plane_equation (e01 e02 n : float3 R) (a b c : R) :
  Rdot3 n (Rcross e01 e02) <> 0%R ->
  Rdot3 (Rdivs3 (Rcross e02 n) (Rdot3 (Rcross e02 n) e01))
        (combination3 a b c e01 e02 n) = a
  /\ Rdot3 (Rdivs3 (Rcross e01 n) (Rdot3 (Rcross e01 n) e02))
           (combination3 a b c e01 e02 n) = b.
Proof.
  intros Htau.
  assert (Hu : Rdot3 (Rcross e02 n) e01 = Rdot3 n (Rcross e01 e02))
    by (unfold Rdot3, Rcross; cbn [x3 y3 z3]; ring).
  assert (Hv : Rdot3 (Rcross e01 n) e02 = (- Rdot3 n (Rcross e01 e02))%R)
    by (unfold Rdot3, Rcross; cbn [x3 y3 z3]; ring).
  split.
  - rewrite Rdot3_divs_l by (rewrite Hu; exact Htau).
    replace (Rdot3 (Rcross e02 n) (combination3 a b c e01 e02 n))
      with (a * Rdot3 (Rcross e02 n) e01)%R
      by (unfold combination3, Rdot3, Rcross, Radd3, Rlscale3;
          cbn [x3 y3 z3]; ring).
    field. rewrite Hu; exact Htau.
  - rewrite Rdot3_divs_l by (rewrite Hv; lra).
    replace (Rdot3 (Rcross e01 n) (combination3 a b c e01 e02 n))
      with (b * Rdot3 (Rcross e01 n) e02)%R
      by (unfold combination3, Rdot3, Rcross, Radd3, Rlscale3;
          cbn [x3 y3 z3]; ring).
    field. rewrite Hv; lra.
Qed.

Lemma computeBarycentricDifferentials_fin (rayDir : float3 xreal)
    (e01 e02 n oX oY dX dY : float3 R) :
  Rdot3 n (Rcross e01 e02) <> 0%R ->
  let Lu := Rdivs3 (Rcross e02 n) (Rdot3 (Rcross e02 n) e01) in
  let Lv := Rdivs3 (Rcross e01 n) (Rdot3 (Rcross e01 n) e02) in
  computeBarycentricDifferentials (finRayDiff oX oY dX dY) rayDir (fin3 e01)
    (fin3 e02) (fin3 n)
  = (fin2 (mkFloat2 (Rdot3 Lu oX) (Rdot3 Lv oX)),
     fin2 (mkFloat2 (Rdot3 Lu oY) (Rdot3 Lv oY))).
Proof.
  intros Htau Lu Lv.
  assert (Hu : Rdot3 (Rcross e02 n) e01 <> 0%R).
  { replace (Rdot3 (Rcross e02 n) e01) with (Rdot3 n (Rcross e01 e02))
      by (unfold Rdot3, Rcross; cbn [x3 y3 z3]; ring).
    exact Htau. }
  assert (Hv : Rdot3 (Rcross e01 n) e02 <> 0%R).
  { replace (Rdot3 (Rcross e01 n) e02) with (- Rdot3 n (Rcross e01 e02))%R
      by (unfold Rdot3, Rcross; cbn [x3 y3 z3]; ring).
    lra. }
  unfold computeBarycentricDifferentials, finRayDiff.
  cbn [dOdx dOdy dDdx dDdy].
  rewrite !cross_fin, !dot3_fin, !divs3_fin by assumption.
  rewrite !dot3_fin. reflexivity.
Qed.

(** X12. In the exact model, for a triangle whose edges and face normal are
    linearly independent (dot(faceNormalW, cross(edge01, edge02)) <> 0), the
    barycentric differentials of an origin differential a * edge01 + b *
    edge02 + c * faceNormalW are (a, b): the coefficients of the two edges are
    recovered and the component along the face normal is ignored. *)
Theorem computeBarycentricDifferentials_roundtrip (rayDir : float3 xreal)
    (e01 e02 n dX dY : float3 R) (ax bx cx ay by_ cy : R) :
  Rdot3 n (Rcross e01 e02) <> 0%R ->
  computeBarycentricDifferentials
    (finRayDiff (combination3 ax bx cx e01 e02 n)
                (combination3 ay by_ cy e01 e02 n) dX dY)
    rayDir (fin3 e01) (fin3 e02) (fin3 n)
  = (fin2 (mkFloat2 ax bx), fin2 (mkFloat2 ay by_)).
Proof.
  intros Htau.
  rewrite computeBarycentricDifferentials_fin by exact Htau. cbv zeta.
  destruct (barycentric_plane_equation e01 e02 n ax bx cx Htau) as [-> ->].
  destruct (barycentric_plane_equation e01 e02 n ay by_ cy Htau) as [-> ->].
  reflexivity.
Qed.

Lemma computeBarycentricDifferentials_roundtrip_witness :
  let e01 := (mkFloat3 1 0 0)%R in
  let e02 := (mkFloat3 0 1 0)%R in
  let n := (mkFloat3 0 0 1)%R in
  computeBarycentricDifferentials
    (finRayDiff (combination3 2 3 5 e01 e02 n) (combination3 7 1 0 e01 e02 n)
                zeroR3 zeroR3)
    (fin3 zeroR3) (fin3 e01) (fin3 e02) (fin3 n)
  = (fin2 (mkFloat2 2 3)%R, fin2 (mkFloat2 7 1)%R).
Proof.
  intros e01 e02 n.
  apply (computeBarycentricDifferentials_roundtrip (fin3 zeroR3)).
  unfold Rdot3, Rcross, e01, e02, n; cbn [x3 y3 z3]; lra.
Defined.

(** ** Normal differentials and reflection *)

Lemma normal_rcp_defined (n : float3 R) :
  Rdot3 n n <> 0%R -> (Rdot3 n n * sqrt (Rdot3 n n))%R <> 0%R.
Proof.
  intros Hn. pose proof (Rlength3_pos n Hn) as Hlen. unfold Rlength3 in Hlen.
  pose proof (Rdot3_self_nonneg n).
  apply Rgt_not_eq, Rmult_lt_0_compat; lra.
Qed.

Lemma computeNormalDifferentials_fin (rayDiff : RayDiff xreal) (n : float3 R)
    (dBarydx dBarydy : float2 R) (normals : array3 (float3 R)) :
  Rdot3 n n <> 0%R ->
  computeNormalDifferentials rayDiff (fin3 n) (fin2 dBarydx) (fin2 dBarydy)
    (finArray3 normals)
  = (fin3 (normalDifferentialR n (interpolatedDeltaR dBarydx normals)),
     fin3 (normalDifferentialR n (interpolatedDeltaR dBarydy normals))).
Proof.
  intros Hn. pose proof (normal_rcp_defined n Hn) as Hden.
  pose proof (Rdot3_self_nonneg n) as Hnn.
  unfold computeNormalDifferentials, interpolateDifferentials, finArray3.
  cbn [elt0 elt1 elt2 x2 y2 fin2].
  fin_simpl. rewrite fsqrt_fin by exact Hnn. fin_simpl.
  rewrite Q2R_1, div_fin by exact Hden. fin_simpl. reflexivity.
Qed.

(** X13. In the exact model, for a non-zero interpolated normal, the two
    normal differentials of computeNormalDifferentials are finite and
    perpendicular to the interpolated normal, and they are zero when the three
    vertex normals are equal. *)
Theorem computeNormalDifferentials_orthogonal (rayDiff : RayDiff xreal)
    (n : float3 R) (dBarydx dBarydy : float2 R)
    (normals : array3 (float3 R)) :
  Rdot3 n n <> 0%R ->
  exists gx gy : float3 R,
    computeNormalDifferentials rayDiff (fin3 n) (fin2 dBarydx) (fin2 dBarydy)
      (finArray3 normals) = (fin3 gx, fin3 gy)
    /\ Rdot3 n gx = 0%R /\ Rdot3 n gy = 0%R
    /\ (elt1 normals = elt0 normals -> elt2 normals = elt0 normals ->
        gx = zeroR3 /\ gy = zeroR3).
Proof.
  intros Hn. pose proof (normal_rcp_defined n Hn) as Hden.
  eexists. eexists. split; [apply computeNormalDifferentials_fin; exact Hn |].
  assert (Horth : forall dn, Rdot3 n (normalDifferentialR n dn) = 0%R).
  { intros dn. unfold normalDifferentialR.
    set (r := (1 / (Rdot3 n n * sqrt (Rdot3 n n)))%R).
    unfold Rdot3, Rscale3, Rsub3. cbn [x3 y3 z3]. ring. }
  split; [apply Horth | split; [apply Horth |]].
  intros H1 H2.
  assert (Hzero : forall b, interpolatedDeltaR b normals = zeroR3).
  { intros b. unfold interpolatedDeltaR. rewrite H1, H2.
    apply float3_eq; unfold Radd3, Rlscale3, Rsub3, zeroR3; cbn [x3 y3 z3];
      ring. }
  rewrite !Hzero.
  unfold normalDifferentialR.
  set (r := (1 / (Rdot3 n n * sqrt (Rdot3 n n)))%R).
  split; apply float3_eq; unfold Rdot3, Rscale3, Rsub3, zeroR3;
    cbn [x3 y3 z3]; ring.
Qed.

Lemma computeNormalDifferentials_orthogonal_witness :
  exists gx gy : float3 R,
    computeNormalDifferentials (finRayDiff zeroR3 zeroR3 zeroR3 zeroR3)
      (fin3 (mkFloat3 0 0 2)%R) (fin2 (mkFloat2 1 0)%R)
      (fin2 (mkFloat2 0 1)%R)
      (finArray3 (mkArray3 (mkFloat3 0 0 1)%R (mkFloat3 1 0 1)%R
                           (mkFloat3 0 1 1)%R))
    = (fin3 gx, fin3 gy)
    /\ Rdot3 (mkFloat3 0 0 2)%R gx = 0%R
    /\ Rdot3 (mkFloat3 0 0 2)%R gy = 0%R.
Proof.
  destruct (computeNormalDifferentials_orthogonal
              (finRayDiff zeroR3 zeroR3 zeroR3 zeroR3) (mkFloat3 0 0 2)%R
              (mkFloat2 1 0)%R (mkFloat2 0 1)%R
              (mkArray3 (mkFloat3 0 0 1)%R (mkFloat3 1 0 1)%R
                        (mkFloat3 0 1 1)%R))
    as [gx [gy [Heq [Hx [Hy _]]]]].
  - unfold Rdot3; cbn [x3 y3 z3]; lra.
  - exists gx, gy. repeat split; assumption.
Defined.

Lemma reflectRayDifferential_fin (oX oY dX dY rayDir nnN N : float3 R)
    (dBarydx dBarydy : float2 R) (normalsW : array3 (float3 R)) :
  Rdot3 nnN nnN <> 0%R ->
  reflectRayDifferential (finRayDiff oX oY dX dY) (fin3 rayDir) (fin3 nnN)
    (fin3 N) (fin2 dBarydx) (fin2 dBarydy) (finArray3 normalsW)
  = finRayDiff oX oY
      (reflectedDifferentialR dX rayDir N
         (normalDifferentialR nnN (interpolatedDeltaR dBarydx normalsW)))
      (reflectedDifferentialR dY rayDir N
         (normalDifferentialR nnN (interpolatedDeltaR dBarydy normalsW))).
Proof.
  intros Hn. unfold reflectRayDifferential.
  rewrite computeNormalDifferentials_fin by exact Hn.
  unfold finRayDiff, RayDiff_make. cbn [dOdx dOdy dDdx dDdy].
  fin_simpl. rewrite Q2R_2. reflexivity.
Qed.

Lemma mirror_length (v N : float3 R) :
  Rdot3 N N = 1%R ->
  let v' := Rsub3 v (Rlscale3 (2 * Rdot3 v N) N) in
  Rdot3 v' v' = Rdot3 v v /\ Rsub3 v' (Rlscale3 (2 * Rdot3 v' N) N) = v.
Proof.
  intros HN v'.
  assert (Hsq : Rdot3 v' v'
                = (Rdot3 v v
                   + 4 * Rdot3 v N * Rdot3 v N * (Rdot3 N N - 1))%R).
  { unfold v', Rdot3, Rsub3, Rlscale3. cbn [x3 y3 z3]. ring. }
  assert (Hdot : Rdot3 v' N = (Rdot3 v N * (1 - 2 * Rdot3 N N))%R).
  { unfold v', Rdot3, Rsub3, Rlscale3. cbn [x3 y3 z3]. ring. }
  split.
  - rewrite Hsq, HN. ring.
  - rewrite Hdot, HN. unfold v'. set (c := Rdot3 v N).
    apply float3_eq; unfold Rsub3, Rlscale3; cbn [x3 y3 z3]; ring.
Qed.

Lemma reflectedDifferentialR_flat (dD rayDir nnN N : float3 R) :
  Rdot3 nnN nnN <> 0%R ->
  reflectedDifferentialR dD rayDir N (normalDifferentialR nnN zeroR3)
  = Rsub3 dD (Rlscale3 (2 * Rdot3 dD N) N).
Proof.
  intros Hn. pose proof (normal_rcp_defined nnN Hn) as Hden.
  replace (normalDifferentialR nnN zeroR3) with zeroR3.
  - apply float3_eq;
      unfold reflectedDifferentialR, Rdot3, Rsub3, Rlscale3, Radd3, Rscale3,
        zeroR3; cbn [x3 y3 z3]; ring.
  - unfold normalDifferentialR.
    set (r := (1 / (Rdot3 nnN nnN * sqrt (Rdot3 nnN nnN)))%R).
    apply float3_eq; unfold Rdot3, Rscale3, Rsub3, zeroR3;
      cbn [x3 y3 z3]; ring.
Qed.

Lemma interpolatedDeltaR_flat (b : float2 R) (nv : float3 R) :
  interpolatedDeltaR b (mkArray3 nv nv nv) = zeroR3.
Proof.
  apply float3_eq;
    unfold interpolatedDeltaR, Radd3, Rlscale3, Rsub3, zeroR3;
    cbn [elt0 elt1 elt2 x3 y3 z3]; ring.
Qed.

(** X14. In the exact model, on a triangle whose three vertex normals are
    equal, with a non-zero interpolated normal and a unit shading normal N,
    reflectRayDifferential keeps the origin differentials and mirrors each
    direction differential in the plane of N (dDd* - 2 dot(dDd*, N) N): its
    length is preserved, and reflecting the result again gives back the input
    ray differential. *)
Theorem reflectRayDifferential_flat_mirror
    (oX oY dX dY rayDir nnN N nv : float3 R) (dBarydx dBarydy : float2 R) :
  Rdot3 nnN nnN <> 0%R -> Rdot3 N N = 1%R ->
  let reflect (rayDiff : RayDiff xreal) :=
    reflectRayDifferential rayDiff (fin3 rayDir) (fin3 nnN) (fin3 N)
      (fin2 dBarydx) (fin2 dBarydy) (finArray3 (mkArray3 nv nv nv)) in
  let dX' := Rsub3 dX (Rlscale3 (2 * Rdot3 dX N) N) in
  let dY' := Rsub3 dY (Rlscale3 (2 * Rdot3 dY N) N) in
  reflect (finRayDiff oX oY dX dY) = finRayDiff oX oY dX' dY'
  /\ Rdot3 dX' dX' = Rdot3 dX dX /\ Rdot3 dY' dY' = Rdot3 dY dY
  /\ reflect (reflect (finRayDiff oX oY dX dY)) = finRayDiff oX oY dX dY.
Proof.
  intros Hn HN reflect dX' dY'.
  assert (Hstep : forall a b : float3 R,
            reflect (finRayDiff oX oY a b)
            = finRayDiff oX oY (Rsub3 a (Rlscale3 (2 * Rdot3 a N) N))
                (Rsub3 b (Rlscale3 (2 * Rdot3 b N) N))).
  { intros a b. unfold reflect.
    rewrite reflectRayDifferential_fin by exact Hn.
    rewrite !interpolatedDeltaR_flat, !reflectedDifferentialR_flat by exact Hn.
    reflexivity. }
  destruct (mirror_length dX N HN) as [HlenX HbackX].
  destruct (mirror_length dY N HN) as [HlenY HbackY].
  split; [apply Hstep |]. split; [exact HlenX |]. split; [exact HlenY |].
  rewrite Hstep. fold dX' dY'. rewrite Hstep. unfold dX', dY'.
  rewrite HbackX, HbackY. reflexivity.
Qed.

Lemma reflectRayDifferential_flat_mirror_witness :
  let N := (mkFloat3 0 0 1)%R in
  let dX := (mkFloat3 1 2 3)%R in
  let dY := (mkFloat3 0 1 (-1))%R in
  reflectRayDifferential (finRayDiff zeroR3 zeroR3 dX dY)
    (fin3 (mkFloat3 0 0 (-1))%R) (fin3 (mkFloat3 0 0 2)%R) (fin3 N)
    (fin2 (mkFloat2 1 0)%R) (fin2 (mkFloat2 0 1)%R)
    (finArray3 (mkArray3 N N N))
  = finRayDiff zeroR3 zeroR3 (Rsub3 dX (Rlscale3 (2 * Rdot3 dX N) N))
      (Rsub3 dY (Rlscale3 (2 * Rdot3 dY N) N)).
Proof.
  intros N dX dY.
  apply (reflectRayDifferential_flat_mirror zeroR3 zeroR3 dX dY
           (mkFloat3 0 0 (-1))%R (mkFloat3 0 0 2)%R N N
           (mkFloat2 1 0)%R (mkFloat2 0 1)%R).
  - unfold Rdot3; cbn [x3 y3 z3]; lra.
  - unfold Rdot3, N; cbn [x3 y3 z3]; lra.
Defined.

Lemma Rdot3_neg3_self (a : float3 R) : Rdot3 (Rneg3 a) (Rneg3 a) = Rdot3 a a.
Proof. unfold Rdot3, Rneg3; cbn [x3 y3 z3]. ring. Qed.

Lemma interpolatedDeltaR_neg (b : float2 R) (values : array3 (float3 R)) :
  interpolatedDeltaR b (negArray3 values)
  = Rneg3 (interpolatedDeltaR b values).
Proof.
  apply float3_eq;
    unfold interpolatedDeltaR, negArray3, Rneg3, Radd3, Rlscale3, Rsub3;
    cbn [elt0 elt1 elt2 x3 y3 z3]; ring.
Qed.

Lemma normalDifferentialR_neg (n dn : float3 R) :
  normalDifferentialR (Rneg3 n) (Rneg3 dn) = Rneg3 (normalDifferentialR n dn).
Proof.
  unfold normalDifferentialR. rewrite Rdot3_neg3_self.
  set (r := (1 / (Rdot3 n n * sqrt (Rdot3 n n)))%R).
  apply float3_eq; unfold Rdot3, Rneg3, Rscale3, Rsub3; cbn [x3 y3 z3]; ring.
Qed.

Lemma reflectedDifferentialR_neg (dD rayDir N dN : float3 R) :
  reflectedDifferentialR dD rayDir (Rneg3 N) (Rneg3 dN)
  = reflectedDifferentialR dD rayDir N dN.
Proof.
  apply float3_eq;
    unfold reflectedDifferentialR, Rdot3, Rneg3, Rsub3, Rlscale3, Radd3,
      Rscale3; cbn [x3 y3 z3]; ring.
Qed.

(** X15. In the exact model, for a non-zero interpolated normal,
    reflectRayDifferential returns the same ray differential when the
    interpolated normal, the shading normal and the three vertex normals are
    all negated: the orientation of the normals does not matter for
    reflection. *)
Theorem reflectRayDifferential_normal_flip
    (oX oY dX dY rayDir nnN N : float3 R) (dBarydx dBarydy : float2 R)
    (normalsW : array3 (float3 R)) :
  Rdot3 nnN nnN <> 0%R ->
  reflectRayDifferential (finRayDiff oX oY dX dY) (fin3 rayDir)
    (fin3 (Rneg3 nnN)) (fin3 (Rneg3 N)) (fin2 dBarydx) (fin2 dBarydy)
    (finArray3 (negArray3 normalsW))
  = reflectRayDifferential (finRayDiff oX oY dX dY) (fin3 rayDir)
      (fin3 nnN) (fin3 N) (fin2 dBarydx) (fin2 dBarydy) (finArray3 normalsW).
Proof.
  intros Hn.
  rewrite !reflectRayDifferential_fin
    by (try rewrite Rdot3_neg3_self; exact Hn).
  rewrite !interpolatedDeltaR_neg, !normalDifferentialR_neg,
    !reflectedDifferentialR_neg.
  reflexivity.
Qed.

Lemma reflectRayDifferential_normal_flip_witness :
  let nnN := (mkFloat3 0 1 2)%R in
  let N := (mkFloat3 0 (3 / 5) (4 / 5))%R in
  let ns := mkArray3 (mkFloat3 0 0 1)%R (mkFloat3 1 0 1)%R (mkFloat3 0 1 1)%R in
  let rd := finRayDiff (mkFloat3 1 0 0)%R (mkFloat3 0 1 0)%R
              (mkFloat3 1 2 3)%R (mkFloat3 0 1 (-1))%R in
  reflectRayDifferential rd (fin3 (mkFloat3 0 0 (-1))%R)
    (fin3 (Rneg3 nnN)) (fin3 (Rneg3 N)) (fin2 (mkFloat2 1 0)%R)
    (fin2 (mkFloat2 0 1)%R) (finArray3 (negArray3 ns))
  = reflectRayDifferential rd (fin3 (mkFloat3 0 0 (-1))%R)
      (fin3 nnN) (fin3 N) (fin2 (mkFloat2 1 0)%R) (fin2 (mkFloat2 0 1)%R)
      (finArray3 ns).
Proof.
  intros nnN N ns rd.
  apply reflectRayDifferential_normal_flip.
  unfold Rdot3, nnN; cbn [x3 y3 z3]; lra.
Defined.

(** ** Refraction *)

Lemma refracted_norm (d n : float3 R) (e m : R) :
  Rdot3 (Rsub3 (Rscale3 d e) (Rscale3 n m))
        (Rsub3 (Rscale3 d e) (Rscale3 n m))
  = (e * e * Rdot3 d d - 2 * e * m * Rdot3 n d + m * m * Rdot3 n n)%R.
Proof. unfold Rdot3, Rsub3, Rscale3; cbn [x3 y3 z3]. ring. Qed.

Lemma refracted_normal_component (d n : float3 R) (e m : R) :
  Rdot3 n (Rsub3 (Rscale3 d e) (Rscale3 n m))
  = (e * Rdot3 n d - m * Rdot3 n n)%R.
Proof. unfold Rdot3, Rsub3, Rscale3; cbn [x3 y3 z3]. ring. Qed.

(** X16. In the exact model, for a unit ray direction, a unit normal and no
    total internal reflection (k = 1 - eta^2 (1 - dot(normal, rayDir)^2) >=
    0), refractWithTIR succeeds and the refracted direction r is a unit
    vector, points to the side opposite to the normal (dot(normal, r) =
    -sqrt(k)), and obeys Snell's law: its component perpendicular to the
    normal is eta times that of the ray direction. *)
Theorem refractWithTIR_snell (rayDir normal : float3 R) (eta : R) :
  Rdot3 rayDir rayDir = 1%R -> Rdot3 normal normal = 1%R ->
  let c := Rdot3 normal rayDir in
  let k := (1 - eta * eta * (1 - c * c))%R in
  (0 <= k)%R ->
  exists r : float3 R,
    refractWithTIR (fin3 rayDir) (fin3 normal) (fin eta) = (true, fin3 r)
    /\ Rdot3 r r = 1%R
    /\ Rdot3 normal r = (- sqrt k)%R
    /\ Rsub3 r (Rlscale3 (Rdot3 normal r) normal)
       = Rlscale3 eta (Rsub3 rayDir (Rlscale3 c normal)).
Proof.
  intros Hd Hn c k Hk.
  exists (Rsub3 (Rscale3 rayDir eta) (Rscale3 normal (eta * c + sqrt k))).
  assert (Hs : (sqrt k * sqrt k = k)%R) by (apply sqrt_sqrt; exact Hk).
  assert (Hnr : Rdot3 normal
                  (Rsub3 (Rscale3 rayDir eta)
                         (Rscale3 normal (eta * c + sqrt k)))
                = (- sqrt k)%R).
  { rewrite refracted_normal_component, Hn. fold c. ring. }
  split; [| split; [| split]].
  - unfold refractWithTIR. fin_simpl. rewrite Q2R_1, Q2R_0. fold c. fold k.
    rewrite ltb_fin_false by exact Hk.
    rewrite fsqrt_fin by exact Hk. fin_simpl. reflexivity.
  - rewrite refracted_norm, Hd, Hn. fold c.
    replace (eta * eta * 1 - 2 * eta * (eta * c + sqrt k) * c
             + (eta * c + sqrt k) * (eta * c + sqrt k) * 1)%R
      with (eta * eta * (1 - c * c) + sqrt k * sqrt k)%R by ring.
    rewrite Hs. unfold k. ring.
  - exact Hnr.
  - rewrite Hnr. set (s := sqrt k).
    apply float3_eq; unfold Rsub3, Rlscale3, Rscale3; cbn [x3 y3 z3]; ring.
Qed.

Lemma refractWithTIR_snell_witness :
  exists r : float3 R,
    refractWithTIR (fin3 (mkFloat3 (3 / 5) 0 (-4 / 5))%R)
      (fin3 (mkFloat3 0 0 1)%R) (fin (1 / 2))
    = (true, fin3 r)
    /\ Rdot3 r r = 1%R.
Proof.
  destruct (refractWithTIR_snell (mkFloat3 (3 / 5) 0 (-4 / 5))%R
              (mkFloat3 0 0 1)%R (1 / 2)%R)
    as [r [Heq [Hunit _]]].
  - unfold Rdot3; cbn [x3 y3 z3]; lra.
  - unfold Rdot3; cbn [x3 y3 z3]; lra.
  - unfold Rdot3; cbn [x3 y3 z3]; lra.
  - exists r. split; assumption.
Defined.

(** X17. In the exact model, for finite ray direction, normal and eta,
    refractWithTIR (used for ray cones) and refractRayDifferential return the
    same refracted direction, also on total internal reflection, where both
    return the zero vector. *)
Theorem refracted_directions_agree (rayDiff : RayDiff xreal)
    (nnN : float3 xreal) (dBarydx dBarydy : float2 xreal)
    (normalsW : array3 (float3 xreal)) (rayDir normal : float3 R) (eta : R) :
  snd (refractWithTIR (fin3 rayDir) (fin3 normal) (fin eta))
  = snd (refractRayDifferential rayDiff (fin3 rayDir) nnN (fin3 normal)
           dBarydx dBarydy normalsW (fin eta)).
Proof.
  unfold refractWithTIR, refractRayDifferential. fin_simpl.
  rewrite Q2R_1, Q2R_0.
  set (c := Rdot3 normal rayDir).
  destruct (Rlt_dec 1 (eta * eta * (1 - c * c))) as [Htir | Hok].
  - rewrite (ltb_fin_true 1) by exact Htir.
    rewrite ltb_fin_true by lra. reflexivity.
  - rewrite (ltb_fin_false 1 (eta * eta * (1 - c * c))) by lra.
    rewrite ltb_fin_false by lra. cbn [snd].
    rewrite fsqrt_fin by lra. fin_simpl.
    apply fin3_eq; unfold Rsub3, Rscale3, Rlscale3; cbn [x3 y3 z3]; ring.
Qed.

(** X18. In the exact model: when there is no total internal reflection
    (eta^2 (1 - dot(N, rayDir)^2) <= 1), the computeRayDifferentialRefraction
    overload that takes only the refracted direction returns the ray
    differential of refractRayDifferential, whatever refractedDir is passed;
    on total internal reflection, which it does not test, it keeps the origin
    differentials and returns direction differentials that are invalid in
    every component. *)
Theorem computeRayDifferentialRefraction_unchecked (rayDiff : RayDiff xreal)
    (rayDir N : float3 R) (nnN : float3 xreal) (dBarydx dBarydy : float2 xreal)
    (normalsW : array3 (float3 xreal)) (eta : R) (refractedDir : float3 xreal) :
  let c := Rdot3 N rayDir in
  let refracted :=
    computeRayDifferentialRefraction_refractedDir rayDiff (fin3 rayDir) nnN
      (fin3 N) dBarydx dBarydy normalsW (fin eta) refractedDir in
  ((eta * eta * (1 - c * c) <= 1)%R ->
   refracted
   = snd (fst (refractRayDifferential rayDiff (fin3 rayDir) nnN (fin3 N)
                 dBarydx dBarydy normalsW (fin eta))))
  /\ ((1 < eta * eta * (1 - c * c))%R ->
      dOdx refracted = dOdx rayDiff /\ dOdy refracted = dOdy rayDiff
      /\ dDdx refracted = nan3 /\ dDdy refracted = nan3).
Proof.
  intros c refracted. split.
  - intros Hok. unfold refracted, refractRayDifferential,
      computeRayDifferentialRefraction_refractedDir.
    fin_simpl. rewrite Q2R_1. fold c.
    rewrite ltb_fin_false by exact Hok. reflexivity.
  - intros Htir.
    assert (Hsqrt : fsqrt (sub (lit 1)
                             (mul (mul (fin eta) (fin eta))
                                (sub (lit 1)
                                   (mul (dot3 (fin3 N) (fin3 rayDir))
                                      (dot3 (fin3 N) (fin3 rayDir))))))
                    = None).
    { fin_simpl. rewrite Q2R_1. fold c. unfold fin. xred. unfold xsqrt.
      destruct (Rlt_dec (1 - eta * eta * (1 - c * c)) 0) as [_ | Hge];
        [reflexivity | exfalso; lra]. }
    assert (Hsub : forall (a : float3 xreal) (v w : float3 xreal) (u m : xreal),
              sub3 a (add3 (lscale3 (add u (None : xreal)) v)
                           (lscale3 m w)) = nan3).
    { intros [[a1 |] [a2 |] [a3 |]] [v1 v2 v3] w [u |] m; reflexivity. }
    unfold refracted, computeRayDifferentialRefraction_refractedDir,
      computeRayDifferentialRefraction, computeNormalDifferentials,
      interpolateDifferentials, RayDiff_make.
    cbv beta iota zeta. cbn [dOdx dOdy dDdx dDdy].
    rewrite Hsqrt. rewrite !Hsub. repeat split.
Qed.

Lemma computeRayDifferentialRefraction_unchecked_witness :
  let rd := finRayDiff (mkFloat3 1 0 0)%R (mkFloat3 0 1 0)%R
              (mkFloat3 1 2 3)%R (mkFloat3 0 1 (-1))%R in
  let ns := finArray3 (mkArray3 (mkFloat3 0 0 1)%R (mkFloat3 0 0 1)%R
                                (mkFloat3 0 0 1)%R) in
  dDdx (computeRayDifferentialRefraction_refractedDir rd
          (fin3 (mkFloat3 1 0 0)%R) (fin3 (mkFloat3 0 0 1)%R)
          (fin3 (mkFloat3 0 0 1)%R) (fin2 (mkFloat2 1 0)%R)
          (fin2 (mkFloat2 0 1)%R) ns (fin 2) (fin3 zeroR3))
  = nan3.
Proof.
  intros rd ns.
  destruct (computeRayDifferentialRefraction_unchecked rd
              (mkFloat3 1 0 0)%R (mkFloat3 0 0 1)%R (fin3 (mkFloat3 0 0 1)%R)
              (fin2 (mkFloat2 1 0)%R) (fin2 (mkFloat2 0 1)%R) ns 2
              (fin3 zeroR3)) as [_ Htir].
  destruct Htir as [_ [_ [Hx _]]].
  - unfold Rdot3; cbn [x3 y3 z3]; lra.
  - exact Hx.
Defined.

(** ** Preparation of the vertex data *)

Lemma float3x3_of_float4x4_fin (m : float4x4 R) :
  float3x3_of_float4x4 (finMat4 m) = finMat3 (Rfloat3x3_of_float4x4 m).
Proof. reflexivity. Qed.

Lemma blend3_neg (normals : array3 (float3 R)) (barycentrics : float3 R) :
  blend3 (negArray3 normals) barycentrics
  = Rneg3 (blend3 normals barycentrics).
Proof.
  apply float3_eq;
    unfold blend3, negArray3, Rneg3, Radd3, Rscale3;
    cbn [elt0 elt1 elt2 x3 y3 z3]; ring.
Qed.

Lemma prepareVerticesForRayDiffs_fin (rayDir barycentrics : float3 R)
    (vertices : array3 (StaticVertexData R)) (worldMat : float4x4 R)
    (worldInvTransposeMat : float3x3 R) :
  let pv :=
    prepareVerticesForRayDiffs (fin3 rayDir) (finVertices vertices)
      (finMat4 worldMat) (finMat3 worldInvTransposeMat) (fin3 barycentrics) in
  let ns := worldNormals vertices worldInvTransposeMat in
  pv_edge01 pv = fin3 (worldEdge01 vertices worldMat)
  /\ pv_edge02 pv = fin3 (worldEdge02 vertices worldMat)
  /\ pv_txcoords pv = finArray2 (texCoords vertices)
  /\ ((0 < Rdot3 (blend3 ns barycentrics) rayDir)%R ->
      pv_normals pv = finArray3 (negArray3 ns)
      /\ pv_unnormalizedN pv = fin3 (Rneg3 (blend3 ns barycentrics)))
  /\ ((Rdot3 (blend3 ns barycentrics) rayDir <= 0)%R ->
      pv_normals pv = finArray3 ns
      /\ pv_unnormalizedN pv = fin3 (blend3 ns barycentrics)).
Proof.
  intros pv ns. subst pv.
  unfold prepareVerticesForRayDiffs, finVertices, finVertex, index3.
  cbn [elt0 elt1 elt2 position normal texCrd].
  rewrite float3x3_of_float4x4_fin, !sub3_fin, !mul_v3_m33_fin.
  change (x3 (fin3 barycentrics)) with (fin (x3 barycentrics)).
  change (y3 (fin3 barycentrics)) with (fin (y3 barycentrics)).
  change (z3 (fin3 barycentrics)) with (fin (z3 barycentrics)).
  rewrite !scale3_fin, !add3_fin, dot3_fin, lit_fin, Q2R_0.
  fold (worldEdge01 vertices worldMat). fold (worldEdge02 vertices worldMat).
  change (Radd3 _ _) with (blend3 ns barycentrics).
  destruct (Rlt_dec 0 (Rdot3 (blend3 ns barycentrics) rayDir)) as [Hpos | Hneg].
  - rewrite ltb_fin_true by exact Hpos.
    cbn [pv_edge01 pv_edge02 pv_txcoords pv_normals pv_unnormalizedN].
    repeat split; try reflexivity; intros; exfalso; lra.
  - rewrite ltb_fin_false by lra.
    cbn [pv_edge01 pv_edge02 pv_txcoords pv_normals pv_unnormalizedN].
    repeat split; try reflexivity; intros; exfalso; lra.
Qed.

(** X19. In the exact model, for finite inputs, prepareVerticesForRayDiffs
    returns finite vertex normals ns and a finite interpolated normal n such
    that n is the barycentric blend of ns, n does not point along the ray
    (dot(n, rayDir) <= 0), and ns are the transformed vertex normals or, all
    three together, their negations. *)
Theorem prepareVerticesForRayDiffs_orientation (rayDir barycentrics : float3 R)
    (vertices : array3 (StaticVertexData R)) (worldMat : float4x4 R)
    (worldInvTransposeMat : float3x3 R) :
  let pv :=
    prepareVerticesForRayDiffs (fin3 rayDir) (finVertices vertices)
      (finMat4 worldMat) (finMat3 worldInvTransposeMat) (fin3 barycentrics) in
  exists ns : array3 (float3 R),
    pv_normals pv = finArray3 ns
    /\ pv_unnormalizedN pv = fin3 (blend3 ns barycentrics)
    /\ (Rdot3 (blend3 ns barycentrics) rayDir <= 0)%R
    /\ (ns = worldNormals vertices worldInvTransposeMat
        \/ ns = negArray3 (worldNormals vertices worldInvTransposeMat)).
Proof.
  intros pv.
  destruct (prepareVerticesForRayDiffs_fin rayDir barycentrics vertices
              worldMat worldInvTransposeMat)
    as [_ [_ [_ [Hflip Hkeep]]]].
  fold pv in Hflip, Hkeep.
  set (ns := worldNormals vertices worldInvTransposeMat) in *.
  destruct (Rlt_dec 0 (Rdot3 (blend3 ns barycentrics) rayDir)) as [Hpos | Hneg].
  - destruct (Hflip Hpos) as [Hn Hu]. exists (negArray3 ns).
    rewrite blend3_neg. repeat split; try assumption.
    + replace (Rdot3 (Rneg3 (blend3 ns barycentrics)) rayDir)
        with (- Rdot3 (blend3 ns barycentrics) rayDir)%R
        by (unfold Rdot3, Rneg3; cbn [x3 y3 z3]; ring).
      lra.
    + right. reflexivity.
  - assert (Hle : (Rdot3 (blend3 ns barycentrics) rayDir <= 0)%R) by lra.
    destruct (Hkeep Hle) as [Hn Hu]. exists ns.
    repeat split; try assumption. left. reflexivity.
Qed.

(** X20. In the exact model, for finite inputs and a face normal that is
    linearly independent of the two world-space edges, when the origin
    differentials are a * edge01 + b * edge02 + c * faceNormalW (one triple
    of coefficients for x and one for y), prepareRayDiffAtHitPoint returns the
    barycentric differentials (a, b) and the texture coordinate differentials
    a * (uv1 - uv0) + b * (uv2 - uv0). *)
Theorem prepareRayDiffAtHitPoint_texture_differentials
    (rayDir barycentrics : float3 R) (vertices : array3 (StaticVertexData R))
    (worldMat : float4x4 R) (worldInvTransposeMat : float3x3 R)
    (faceN shadingN dX dY : float3 R) (ax bx cx ay by_ cy : R) :
  let e01 := worldEdge01 vertices worldMat in
  let e02 := worldEdge02 vertices worldMat in
  Rdot3 faceN (Rcross e01 e02) <> 0%R ->
  let pr :=
    prepareRayDiffAtHitPoint (mkVertexData (fin3 faceN) (fin3 shadingN))
      (finVertices vertices) (fin3 barycentrics) (fin3 rayDir)
      (finMat4 worldMat) (finMat3 worldInvTransposeMat)
      (finRayDiff (combination3 ax bx cx e01 e02 faceN)
                  (combination3 ay by_ cy e01 e02 faceN) dX dY) in
  pr_dBarydx pr = fin2 (mkFloat2 ax bx)
  /\ pr_dBarydy pr = fin2 (mkFloat2 ay by_)
  /\ pr_dUVdx pr
     = fin2 (interpolatedDelta2R (mkFloat2 ax bx) (texCoords vertices))
  /\ pr_dUVdy pr
     = fin2 (interpolatedDelta2R (mkFloat2 ay by_) (texCoords vertices)).
Proof.
  intros e01 e02 Htau pr. subst pr.
  destruct (prepareVerticesForRayDiffs_fin rayDir barycentrics vertices
              worldMat worldInvTransposeMat)
    as [He01 [He02 [Htx _]]].
  unfold prepareRayDiffAtHitPoint. cbn [faceNormalW].
  rewrite He01, He02, Htx. fold e01 e02.
  rewrite computeBarycentricDifferentials_fin by exact Htau. cbv zeta.
  destruct (barycentric_plane_equation e01 e02 faceN ax bx cx Htau) as [-> ->].
  destruct (barycentric_plane_equation e01 e02 faceN ay by_ cy Htau)
    as [-> ->].
  cbv beta iota.
  unfold interpolateDifferentials_float2, finArray2.
  cbn [elt0 elt1 elt2 x2 y2 fin2 pr_dBarydx pr_dBarydy pr_dUVdx pr_dUVdy].
  repeat split.
Qed.

Lemma prepareRayDiffAtHitPoint_texture_differentials_witness :
  let vs :=
    mkArray3
      (mkStaticVertexData (mkFloat3 0 0 0)%R (mkFloat3 0 0 1)%R
         (mkFloat2 0 0)%R)
      (mkStaticVertexData (mkFloat3 1 0 0)%R (mkFloat3 0 0 1)%R
         (mkFloat2 4 0)%R)
      (mkStaticVertexData (mkFloat3 0 1 0)%R (mkFloat3 0 0 1)%R
         (mkFloat2 0 8)%R) in
  let m4 :=
    mkFloat4x4 (mkFloat4 1 0 0 0)%R (mkFloat4 0 1 0 0)%R (mkFloat4 0 0 1 0)%R
               (mkFloat4 0 0 0 1)%R in
  let m3 :=
    mkFloat3x3 (mkFloat3 1 0 0)%R (mkFloat3 0 1 0)%R (mkFloat3 0 0 1)%R in
  let n := (mkFloat3 0 0 1)%R in
  pr_dUVdx
    (prepareRayDiffAtHitPoint (mkVertexData (fin3 n) (fin3 n))
       (finVertices vs) (fin3 (mkFloat3 (1 / 3) (1 / 3) (1 / 3))%R)
       (fin3 (mkFloat3 0 0 (-1))%R) (finMat4 m4) (finMat3 m3)
       (finRayDiff
          (combination3 (1 / 2) (1 / 4) 0 (worldEdge01 vs m4)
             (worldEdge02 vs m4) n)
          (combination3 0 1 0 (worldEdge01 vs m4) (worldEdge02 vs m4) n)
          zeroR3 zeroR3))
  = fin2 (interpolatedDelta2R (mkFloat2 (1 / 2) (1 / 4))%R (texCoords vs)).
Proof.
  intros vs m4 m3 n.
  apply (prepareRayDiffAtHitPoint_texture_differentials
           (mkFloat3 0 0 (-1))%R (mkFloat3 (1 / 3) (1 / 3) (1 / 3))%R vs m4 m3
           n n zeroR3 zeroR3 (1 / 2) (1 / 4) 0 0 1 0).
  unfold Rdot3, Rcross, worldEdge01, worldEdge02, Rmul_v3_m33, Rsub3,
    Rfloat3x3_of_float4x4, vs, m4, n.
  cbn [elt0 elt1 elt2 position x3 y3 z3 x4 y4 z4 m3row0 m3row1 m3row2
       m4row0 m4row1 m4row2].
  lra.
Defined.

(** * Further properties of the curvature estimators *)

Lemma Rmin3_spec (a b c : R) :
  let m := Rmin a (Rmin b c) in
  (m <= a /\ m <= b /\ m <= c)%R /\ (m = a \/ m = b \/ m = c).
Proof.
  cbv zeta. unfold Rmin.
  destruct (Rle_dec b c); destruct (Rle_dec a _); repeat split; auto; lra.
Qed.

Lemma Rmax3_spec (a b c : R) :
  let m := Rmax a (Rmax b c) in
  (a <= m /\ b <= m /\ c <= m)%R /\ (m = a \/ m = b \/ m = c).
Proof.
  cbv zeta. unfold Rmax.
  destruct (Rle_dec b c); destruct (Rle_dec a _); repeat split; auto; lra.
Qed.

Lemma Rabs_le_between (x lo hi r : R) :
  (lo <= x <= hi)%R -> (Rabs lo <= Rabs r)%R -> (Rabs hi <= Rabs r)%R ->
  (Rabs x <= Rabs r)%R.
Proof.
  intros [Hlo Hhi]. unfold Rabs.
  destruct (Rcase_abs lo), (Rcase_abs hi), (Rcase_abs x), (Rcase_abs r); lra.
Qed.

(** X21. In the exact model, for finite edge curvatures the Max estimator
    returns one of the three curvatures, and none of the three has a larger
    magnitude than the returned one. *)
Theorem TriangleCurvature_Max_largest_magnitude (self : TriangleCurvature_Max)
    (edge01 edge02 edge12 : float3 xreal) (c01 c02 c12 : R) :
  exists r : R,
    eval self edge01 edge02 edge12 (fin c01) (fin c02) (fin c12) = fin r
    /\ (r = c01 \/ r = c02 \/ r = c12)
    /\ (Rabs c01 <= Rabs r)%R /\ (Rabs c02 <= Rabs r)%R
    /\ (Rabs c12 <= Rabs r)%R.
Proof.
  cbn [eval Max_estimator]. unfold TriangleCurvature_Max_eval.
  rewrite !fmin_fin, !fmax_fin, fabs_fin.
  destruct (Rmin3_spec c01 c02 c12) as [[Hl1 [Hl2 Hl3]] Hlo].
  destruct (Rmax3_spec c01 c02 c12) as [[Hh1 [Hh2 Hh3]] Hhi].
  set (lo := Rmin c01 (Rmin c02 c12)) in *.
  set (hi := Rmax c01 (Rmax c02 c12)) in *.
  destruct (ltb_fin_cases (Rabs lo) hi) as [[-> Hcmp] | [-> Hcmp]].
  - exists hi. split; [reflexivity |]. split; [exact Hhi |].
    assert (Hhi' : (Rabs lo <= Rabs hi)%R).
    { pose proof (Rle_abs hi). lra. }
    repeat split; apply Rabs_le_between with lo hi; lra.
  - exists lo. split; [reflexivity |]. split; [exact Hlo |].
    assert (Hlo' : (Rabs hi <= Rabs lo)%R).
    { revert Hcmp. unfold Rabs.
      destruct (Rcase_abs lo), (Rcase_abs hi); lra. }
    repeat split; apply Rabs_le_between with lo hi; lra.
Qed.

Lemma TriangleCurvature_Max_largest_magnitude_witness :
  exists r : R,
    eval Build_TriangleCurvature_Max (fin3 zeroR3) (fin3 zeroR3) (fin3 zeroR3)
      (fin 1) (fin (-3)) (fin 2) = fin r
    /\ (r = 1 \/ r = -3 \/ r = 2)%R
    /\ (Rabs 1 <= Rabs r)%R /\ (Rabs (-3) <= Rabs r)%R
    /\ (Rabs 2 <= Rabs r)%R.
Proof.
  apply (TriangleCurvature_Max_largest_magnitude Build_TriangleCurvature_Max).
Defined.

Lemma weighted_mean_fin (ca cb wa wb s lo hi : R) :
  (lo <= ca <= hi)%R -> (lo <= cb <= hi)%R -> (0 <= wa)%R -> (0 <= wb)%R ->
  (0 < s)%R -> s = (wa + wb)%R ->
  exists r : R,
    div (add (mul (fin ca) (fin wa)) (mul (fin cb) (fin wb))) (fin s) = fin r
    /\ (lo <= r <= hi)%R.
Proof.
  intros [Ha1 Ha2] [Hb1 Hb2] Hwa Hwb Hs Hsum.
  exists ((ca * wa + cb * wb) / s)%R.
  split; [rewrite !mul_fin, add_fin, div_fin by lra; reflexivity |].
  pose proof (Rmult_le_compat_r wa lo ca Hwa Ha1) as P1.
  pose proof (Rmult_le_compat_r wa ca hi Hwa Ha2) as P2.
  pose proof (Rmult_le_compat_r wb lo cb Hwb Hb1) as P3.
  pose proof (Rmult_le_compat_r wb cb hi Hwb Hb2) as P4.
  assert (Hinv : (0 < / s)%R) by (apply Rinv_0_lt_compat; exact Hs).
  split.
  - apply Rmult_le_reg_r with s; [exact Hs |].
    unfold Rdiv. rewrite Rmult_assoc, Rinv_l by lra. rewrite Hsum. lra.
  - apply Rmult_le_reg_r with s; [exact Hs |].
    unfold Rdiv. rewrite Rmult_assoc, Rinv_l by lra. rewrite Hsum. lra.
Qed.

(** X22. In the exact model, for finite edge curvatures, the value returned
    by the Average estimator, by the DirClosestDP estimator (non-zero edges,
    ray direction not perpendicular to all three) and by the Directional
    estimator (unit ray direction, non-zero edges, ray direction parallel to
    at most one edge) is finite and lies between the smallest and the largest
    of the three curvatures. *)
Theorem interpolating_estimators_in_range (c01 c02 c12 : R) :
  let lo := Rmin c01 (Rmin c02 c12) in
  let hi := Rmax c01 (Rmax c02 c12) in
  (forall (self : TriangleCurvature_Average)
          (edge01 edge02 edge12 : float3 xreal),
     exists r : R,
       eval self edge01 edge02 edge12 (fin c01) (fin c02) (fin c12) = fin r
       /\ (lo <= r <= hi)%R)
  /\ (forall rayDir edge01 edge02 edge12 : float3 R,
        Rdot3 edge01 edge01 <> 0%R -> Rdot3 edge02 edge02 <> 0%R ->
        Rdot3 edge12 edge12 <> 0%R ->
        Rdot3 rayDir edge01 <> 0%R \/ Rdot3 rayDir edge02 <> 0%R
          \/ Rdot3 rayDir edge12 <> 0%R ->
        exists r : R,
          eval {| DirClosestDP_rayDir := fin3 rayDir |}
            (fin3 edge01) (fin3 edge02) (fin3 edge12)
            (fin c01) (fin c02) (fin c12) = fin r
          /\ (lo <= r <= hi)%R)
  /\ (forall rayDir edge01 edge02 edge12 : float3 R,
        Rdot3 rayDir rayDir = 1%R ->
        Rdot3 edge01 edge01 <> 0%R -> Rdot3 edge02 edge02 <> 0%R ->
        Rdot3 edge12 edge12 <> 0%R ->
        (Rcross rayDir edge01 <> zeroR3 \/ Rcross rayDir edge02 <> zeroR3) ->
        (Rcross rayDir edge01 <> zeroR3 \/ Rcross rayDir edge12 <> zeroR3) ->
        (Rcross rayDir edge02 <> zeroR3 \/ Rcross rayDir edge12 <> zeroR3) ->
        exists r : R,
          eval {| Directional_rayDir := fin3 rayDir |}
            (fin3 edge01) (fin3 edge02) (fin3 edge12)
            (fin c01) (fin c02) (fin c12) = fin r
          /\ (lo <= r <= hi)%R).
Proof.
  intros lo hi.
  destruct (Rmin3_spec c01 c02 c12) as [[Hl1 [Hl2 Hl3]] _].
  destruct (Rmax3_spec c01 c02 c12) as [[Hh1 [Hh2 Hh3]] _].
  fold lo in Hl1, Hl2, Hl3. fold hi in Hh1, Hh2, Hh3.
  clearbody lo hi.
  split; [| split].
  - intros self edge01 edge02 edge12.
    cbn [eval Average_estimator]. unfold TriangleCurvature_Average_eval.
    rewrite !add_fin, lit_fin, Q2R_3, div_fin by lra.
    eexists. split; [reflexivity |]. lra.
  - intros rayDir edge01 edge02 edge12 H01 H02 H12 Hperp.
    cbn [eval DirClosestDP_estimator].
    unfold TriangleCurvature_DirClosestDP_eval. cbn [DirClosestDP_rayDir].
    rewrite !edgeCosine_fin by assumption.
    pose proof (edgeCosine_nonneg rayDir edge01) as P01.
    pose proof (edgeCosine_nonneg rayDir edge02) as P02.
    pose proof (edgeCosine_nonneg rayDir edge12) as P12.
    pose proof (edgeCosine_zero rayDir edge01 H01) as Z01.
    pose proof (edgeCosine_zero rayDir edge02 H02) as Z02.
    pose proof (edgeCosine_zero rayDir edge12 H12) as Z12.
    set (d01 := edgeCosine rayDir edge01) in *.
    set (d02 := edgeCosine rayDir edge02) in *.
    set (d12 := edgeCosine rayDir edge12) in *.
    assert (Hsome : (0 < d01 \/ 0 < d02 \/ 0 < d12)%R).
    { destruct Hperp as [Hp | [Hp | Hp]].
      - left. destruct P01 as [Hlt | Heq]; [exact Hlt |].
        exfalso. apply Hp, Z01. symmetry. exact Heq.
      - right. left. destruct P02 as [Hlt | Heq]; [exact Hlt |].
        exfalso. apply Hp, Z02. symmetry. exact Heq.
      - right. right. destruct P12 as [Hlt | Heq]; [exact Hlt |].
        exfalso. apply Hp, Z12. symmetry. exact Heq. }
    clear Z01 Z02 Z12 Hperp.
    rewrite !add_fin.
    destruct (ltb_fin_cases d01 d02) as [[-> L1] | [-> L1]];
      [destruct (ltb_fin_cases d01 d12) as [[-> L2] | [-> L2]]
      | destruct (ltb_fin_cases d02 d12) as [[-> L2] | [-> L2]]];
      apply weighted_mean_fin; try split; try assumption; try reflexivity;
      lra.
  - intros rayDir edge01 edge02 edge12 Hd H01 H02 H12 Hp12 Hp13 Hp23.
    cbn [eval Directional_estimator].
    unfold TriangleCurvature_Directional_eval. cbn [Directional_rayDir].
    destruct (edgeAngle_fin rayDir edge01 Hd H01) as (-> & P01 & Z01).
    destruct (edgeAngle_fin rayDir edge02 Hd H02) as (-> & P02 & Z02).
    destruct (edgeAngle_fin rayDir edge12 Hd H12) as (-> & P12 & Z12).
    set (a01 := acos (edgeCosine rayDir edge01)) in *.
    set (a02 := acos (edgeCosine rayDir edge02)) in *.
    set (a12 := acos (edgeCosine rayDir edge12)) in *.
    assert (Q12 : (0 < a01 \/ 0 < a02)%R) by (destruct Hp12; auto).
    assert (Q13 : (0 < a01 \/ 0 < a12)%R) by (destruct Hp13; auto).
    assert (Q23 : (0 < a02 \/ 0 < a12)%R) by (destruct Hp23; auto).
    clear Z01 Z02 Z12 Hp12 Hp13 Hp23.
    rewrite !add_fin.
    destruct (ltb_fin_cases a02 a01) as [[-> L1] | [-> L1]];
      [destruct (ltb_fin_cases a12 a01) as [[-> L2] | [-> L2]]
      | destruct (ltb_fin_cases a12 a02) as [[-> L2] | [-> L2]]];
      apply weighted_mean_fin; try split; try assumption; try reflexivity;
      lra.
Qed.

Lemma interpolating_estimators_in_range_witness :
  exists r : R,
    eval {| DirClosestDP_rayDir := fin3 (mkFloat3 0 0 (-1))%R |}
      (fin3 (mkFloat3 1 0 1)%R) (fin3 (mkFloat3 0 1 0)%R)
      (fin3 (mkFloat3 (-1) 1 (-1))%R) (fin 1) (fin 2) (fin 4) = fin r
    /\ (Rmin 1 (Rmin 2 4) <= r <= Rmax 1 (Rmax 2 4))%R.
Proof.
  destruct (interpolating_estimators_in_range 1 2 4) as [_ [Hdp _]].
  apply Hdp.
  - unfold Rdot3; cbn [x3 y3 z3]; lra.
  - unfold Rdot3; cbn [x3 y3 z3]; lra.
  - unfold Rdot3; cbn [x3 y3 z3]; lra.
  - left. unfold Rdot3; cbn [x3 y3 z3]; lra.
Defined.

(** * Further properties of the spread angle and of the 2D helpers *)

Lemma clampedDnR_magnitude (rayDir normal : float3 R) :
  Rdot3 rayDir normal <> 0%R ->
  (1 / 100000 <= Rabs (clampedDnR rayDir normal))%R.
Proof.
  intros Hdot. unfold clampedDnR.
  destruct (Rlt_dec _ _) as [Hsmall | Hlarge]; [| lra].
  destruct (Rlt_dec 0 (- Rdot3 rayDir normal)) as [Hp | Hn].
  - rewrite Rsign_pos by exact Hp. rewrite Rabs_right; lra.
  - rewrite Rsign_neg by lra. rewrite Rabs_left; lra.
Qed.

(** X23. In the exact model, when the ray is not perpendicular to the normal,
    the spread angle that computeSpreadAngleFromCurvatureIso returns is finite
    and its magnitude is at most 100000 times that of curvature *
    rayConeWidth: the clamp of the denominator bounds the amplification. *)
Theorem computeSpreadAngleFromCurvatureIso_bounded (curvature rayConeWidth : R)
    (rayDir normal : float3 R) :
  Rdot3 rayDir normal <> 0%R ->
  exists phi : R,
    computeSpreadAngleFromCurvatureIso (fin curvature) (fin rayConeWidth)
      (fin3 rayDir) (fin3 normal) = fin phi
    /\ (Rabs phi <= 100000 * Rabs (curvature * rayConeWidth))%R.
Proof.
  intros Hdot.
  pose proof (clampedDnR_nonzero rayDir normal Hdot) as Hnz.
  pose proof (clampedDnR_magnitude rayDir normal Hdot) as Hmag.
  exists (curvature * rayConeWidth / clampedDnR rayDir normal)%R.
  split.
  - unfold computeSpreadAngleFromCurvatureIso. cbv zeta.
    rewrite clampedDn_fin, mul_fin, div_fin by exact Hnz. reflexivity.
  - unfold Rdiv. rewrite Rabs_mult, Rabs_inv.
    set (D := Rabs (clampedDnR rayDir normal)) in *.
    pose proof (Rabs_pos (curvature * rayConeWidth)) as Hcw.
    set (cw := Rabs (curvature * rayConeWidth)) in *.
    assert (HD : (0 < D)%R) by lra.
    assert (Hinv : (/ D <= 100000)%R).
    { replace 100000%R with (/ (1 / 100000))%R by field.
      apply Rinv_le_contravar; lra. }
    rewrite Rmult_comm. apply Rmult_le_compat_r; assumption.
Qed.

Lemma computeSpreadAngleFromCurvatureIso_bounded_witness :
  exists phi : R,
    computeSpreadAngleFromCurvatureIso (fin 2) (fin (1 / 100))
      (fin3 (mkFloat3 1 0 (-1 / 1000000))%R) (fin3 (mkFloat3 0 0 1)%R)
    = fin phi
    /\ (Rabs phi <= 100000 * Rabs (2 * (1 / 100)))%R.
Proof.
  apply computeSpreadAngleFromCurvatureIso_bounded.
  unfold Rdot3; cbn [x3 y3 z3]; lra.
Defined.

(** X24. In the exact model, for a finite vector and a finite angle,
    rotate2DPlusMinus returns two finite vectors of the length of the input;
    rotating the first one back (the second output for the same angle) and
    the second one forth (the first output) gives the input again; and the
    first output for the angle pi / 2 is orthogonal(vec). *)
Theorem rotate2DPlusMinus_rotation (vec : float2 R) (angle : R) :
  exists plus minus : float2 R,
    rotate2DPlusMinus (fin2 vec) (fin angle) = (fin2 plus, fin2 minus)
    /\ (x2 plus * x2 plus + y2 plus * y2 plus
        = x2 vec * x2 vec + y2 vec * y2 vec)%R
    /\ (x2 minus * x2 minus + y2 minus * y2 minus
        = x2 vec * x2 vec + y2 vec * y2 vec)%R
    /\ snd (rotate2DPlusMinus (fin2 plus) (fin angle)) = fin2 vec
    /\ fst (rotate2DPlusMinus (fin2 minus) (fin angle)) = fin2 vec
    /\ fst (rotate2DPlusMinus (fin2 vec) (fin (PI / 2)))
       = orthogonal (fin2 vec).
Proof.
  destruct vec as [x y]. pose proof (sin2_cos2 angle) as Hsc.
  unfold Rsqr in Hsc.
  set (c := cos angle) in *. set (s := sin angle) in *.
  exists (mkFloat2 (c * x - s * y) (s * x + c * y))%R,
         (mkFloat2 (c * x + s * y) (- (s * x) + c * y))%R.
  unfold fin2. cbn [x2 y2]. rewrite !rotate2DPlusMinus_fin.
  fold c s. cbn [fst snd].
  split; [reflexivity |].
  assert (Hc2 : (c * c = 1 - s * s)%R) by lra.
  split; [| split; [| split; [| split]]].
  - replace ((c * x - s * y) * (c * x - s * y)
             + (s * x + c * y) * (s * x + c * y))%R
      with ((s * s + c * c) * (x * x + y * y))%R by ring.
    rewrite Hsc. ring.
  - replace ((c * x + s * y) * (c * x + s * y)
             + (- (s * x) + c * y) * (- (s * x) + c * y))%R
      with ((s * s + c * c) * (x * x + y * y))%R by ring.
    rewrite Hsc. ring.
  - unfold fin. f_equal; f_equal.
    + replace (c * (c * x - s * y) + s * (s * x + c * y))%R
        with ((s * s + c * c) * x)%R by ring.
      rewrite Hsc. ring.
    + replace (- (s * (c * x - s * y)) + c * (s * x + c * y))%R
        with ((s * s + c * c) * y)%R by ring.
      rewrite Hsc. ring.
  - unfold fin. f_equal; f_equal.
    + replace (c * (c * x + s * y) - s * (- (s * x) + c * y))%R
        with ((s * s + c * c) * x)%R by ring.
      rewrite Hsc. ring.
    + replace (s * (c * x + s * y) + c * (- (s * x) + c * y))%R
        with ((s * s + c * c) * y)%R by ring.
      rewrite Hsc. ring.
  - rewrite cos_PI2, sin_PI2. unfold orthogonal, fin. cbn [x2 y2].
    xred. f_equal; f_equal; ring.
Qed.

(** * Properties of the color utilities *)

Lemma xyYtoXYZ_fin (x y Y : R) :
  y <> 0%R ->
  xyYtoXYZ (fin x) (fin y) (fin Y)
  = fin3 (mkFloat3 (x * Y / y) Y ((1 - x - y) * Y / y))%R.
Proof.
  intros Hy. unfold xyYtoXYZ.
  rewrite lit_fin, Q2R_1, !sub_fin, !mul_fin, !div_fin by exact Hy.
  reflexivity.
Qed.

Lemma xyYtoXYZ_chromaticity_aux (x y Y : R) :
  y <> 0%R -> Y <> 0%R ->
  exists X Z : R,
    xyYtoXYZ (fin x) (fin y) (fin Y) = fin3 (mkFloat3 X Y Z)
    /\ (X + Y + Z)%R <> 0%R
    /\ (X / (X + Y + Z))%R = x /\ (Y / (X + Y + Z))%R = y.
Proof.
  intros Hy HY.
  exists (x * Y / y)%R, ((1 - x - y) * Y / y)%R.
  split; [apply xyYtoXYZ_fin; exact Hy |].
  assert (Hsum : (x * Y / y + Y + (1 - x - y) * Y / y)%R = (Y / y)%R)
    by (field; exact Hy).
  rewrite Hsum.
  split; [| split].
  - unfold Rdiv. apply Rmult_integral_contrapositive_currified;
      [exact HY | apply Rinv_neq_0_compat; exact Hy].
  - field. split; assumption.
  - field. split; assumption.
Qed.

(** X25. In the exact model, for chromaticities (x, y) with y <> 0 and a
    luminance Y <> 0, xyYtoXYZ returns a finite color (X, Y, Z) whose
    chromaticities are the given ones: X / (X + Y + Z) = x and
    Y / (X + Y + Z) = y. *)
Theorem xyYtoXYZ_chromaticity (x y Y : R) :
  y <> 0%R -> Y <> 0%R ->
  exists X Z : R,
    xyYtoXYZ (fin x) (fin y) (fin Y) = fin3 (mkFloat3 X Y Z)
    /\ (X + Y + Z)%R <> 0%R
    /\ (X / (X + Y + Z))%R = x /\ (Y / (X + Y + Z))%R = y.
Proof. apply xyYtoXYZ_chromaticity_aux. Qed.

Lemma xyYtoXYZ_chromaticity_witness :
  exists X Z : R,
    xyYtoXYZ (fin (3 / 10)) (fin (3 / 10)) (fin 1) = fin3 (mkFloat3 X 1 Z)%R
    /\ (X + 1 + Z)%R <> 0%R
    /\ (X / (X + 1 + Z))%R = (3 / 10)%R /\ (1 / (X + 1 + Z))%R = (3 / 10)%R.
Proof.
  apply (xyYtoXYZ_chromaticity (3 / 10) (3 / 10) 1); lra.
Defined.

Lemma Q2R_int (z : Z) : Q2R (inject_Z z) = IZR z.
Proof. unfold Q2R; simpl. field. Qed.

Lemma colorTemperatureToXYZ_fin (T Y : R) :
  (1667 <= T <= 25000)%R ->
  colorTemperatureToXYZ (fun x : xreal => x) (fun x : xreal => x)
    (fin T) (fin Y)
  = xyYtoXYZ (fin (chromaticityX T)) (fin (chromaticityY T)) (fin Y).
Proof.
  intros [Hlo Hhi].
  assert (HT : T <> 0%R) by lra.
  assert (HT2 : (T * T)%R <> 0%R) by nra.
  assert (HT3 : (T * T * T)%R <> 0%R).
  { apply Rmult_integral_contrapositive_currified; assumption. }
  unfold colorTemperatureToXYZ.
  rewrite !(lit_fin 1667), !(lit_fin 25000), !(lit_fin 4000), !(lit_fin 2222).
  change (Q2R 1667) with (Q2R (inject_Z 1667)).
  change (Q2R 25000) with (Q2R (inject_Z 25000)).
  change (Q2R 4000) with (Q2R (inject_Z 4000)).
  change (Q2R 2222) with (Q2R (inject_Z 2222)).
  rewrite !Q2R_int.
  rewrite (ltb_fin_false T 1667) by exact Hlo.
  rewrite (ltb_fin_false 25000 T) by exact Hhi.
  cbn [orb]. cbv zeta.
  assert (Hx : (if ltb (fin T) (fin 4000)
                then add (add (sub (div (neg (lit 0.2661239e9))
                                      (mul (mul (fin T) (fin T)) (fin T)))
                                 (div (lit 0.2343580e6) (mul (fin T) (fin T))))
                            (div (lit 0.8776956e3) (fin T)))
                       (lit 0.179910)
                else add (add (add (div (neg (lit 3.0258469e9))
                                      (mul (mul (fin T) (fin T)) (fin T)))
                                 (div (lit 2.1070379e6) (mul (fin T) (fin T))))
                            (div (lit 0.2226347e3) (fin T)))
                       (lit 0.240390))
               = fin (chromaticityX T)).
  { unfold chromaticityX. rewrite !lit_fin, !mul_fin, !neg_fin.
    rewrite !div_fin by assumption. fin_simpl.
    destruct (Rlt_dec T 4000) as [Hlt | Hge].
    - rewrite ltb_fin_true by exact Hlt. reflexivity.
    - rewrite ltb_fin_false by lra. reflexivity. }
  rewrite Hx. unfold chromaticityY.
  set (x := chromaticityX T).
  rewrite !lit_fin, !mul_fin, !neg_fin. fin_simpl.
  destruct (Rlt_dec T 2222) as [H1 | H1].
  - rewrite (ltb_fin_true T 2222) by exact H1. reflexivity.
  - rewrite (ltb_fin_false T 2222) by lra.
    destruct (Rlt_dec T 4000) as [H2 | H2].
    + rewrite (ltb_fin_true T 4000) by exact H2. reflexivity.
    + rewrite (ltb_fin_false T 4000) by lra. reflexivity.
Qed.

(** X26. In the exact model, colorTemperatureToXYZ returns the zero color for
    every finite temperature below 1667 or above 25000; for a temperature in
    the supported range whose computed chromaticity y is not 0, and a
    luminance Y <> 0, it returns a finite color with luminance Y and with
    the computed chromaticities, which is therefore not the zero color. *)
Theorem colorTemperatureToXYZ_range (T Y : R) :
  let color :=
    colorTemperatureToXYZ (fun x : xreal => x) (fun x : xreal => x)
      (fin T) (fin Y) in
  ((T < 1667 \/ 25000 < T)%R -> color = fin3 zeroR3)
  /\ ((1667 <= T <= 25000)%R -> chromaticityY T <> 0%R -> Y <> 0%R ->
      exists X Z : R,
        color = fin3 (mkFloat3 X Y Z)
        /\ (X + Y + Z)%R <> 0%R
        /\ (X / (X + Y + Z))%R = chromaticityX T
        /\ (Y / (X + Y + Z))%R = chromaticityY T).
Proof.
  intros color. subst color. split.
  - intros Hout. unfold colorTemperatureToXYZ.
    rewrite !(lit_fin 1667), !(lit_fin 25000), lit_fin, Q2R_0.
    change (Q2R 1667) with (Q2R (inject_Z 1667)).
    change (Q2R 25000) with (Q2R (inject_Z 25000)).
    rewrite !Q2R_int.
    destruct Hout as [Hlow | Hhigh].
    + rewrite (ltb_fin_true T 1667) by exact Hlow. reflexivity.
    + rewrite (ltb_fin_true 25000 T) by exact Hhigh.
      rewrite orb_true_r. reflexivity.
  - intros Hin Hy HY. rewrite colorTemperatureToXYZ_fin by exact Hin.
    destruct (xyYtoXYZ_chromaticity_aux (chromaticityX T) (chromaticityY T) Y
                Hy HY) as [X [Z H]].
    exists X, Z. exact H.
Qed.

Lemma chromaticityY_5000 : (0 < chromaticityY 5000)%R.
Proof.
  unfold chromaticityY.
  destruct (Rlt_dec 5000 2222) as [H | _]; [exfalso; lra |].
  destruct (Rlt_dec 5000 4000) as [H | _]; [exfalso; lra |].
  assert (Hx : (34 / 100 < chromaticityX 5000 < 35 / 100)%R).
  { unfold chromaticityX.
    destruct (Rlt_dec 5000 4000) as [H | _]; [exfalso; lra |].
    unfold Q2R. simpl.
    replace (5000 * 5000 * 5000)%R with 125000000000%R by lra.
    replace (5000 * 5000)%R with 25000000%R by lra.
    lra. }
  set (x := chromaticityX 5000) in *.
  unfold Q2R. simpl. nra.
Qed.

Lemma colorTemperatureToXYZ_range_witness :
  colorTemperatureToXYZ (fun x : xreal => x) (fun x : xreal => x)
    (fin 1000) (fin 1) = fin3 zeroR3
  /\ exists X Z : R,
       colorTemperatureToXYZ (fun x : xreal => x) (fun x : xreal => x)
         (fin 5000) (fin 1) = fin3 (mkFloat3 X 1 Z)%R
       /\ (X + 1 + Z)%R <> 0%R
       /\ (X / (X + 1 + Z))%R = chromaticityX 5000
       /\ (1 / (X + 1 + Z))%R = chromaticityY 5000.
Proof.
  split.
  - apply (colorTemperatureToXYZ_range 1000 1). left. lra.
  - apply (colorTemperatureToXYZ_range 5000 1).
    + lra.
    + apply Rgt_not_eq, chromaticityY_5000.
    + lra.
Defined.
(** * Differentials of vertex attributes *)

(** X27. In the exact model, for a triangle with vertices p0, p1, p2 whose
    edges are linearly independent of the face normal, and a scalar vertex
    attribute that is affine in the position (value g . p + k at vertex p),
    feeding the barycentric differentials of an origin differential
    a * edge01 + b * edge02 + c * faceNormalW to the float overload of
    interpolateDifferentials gives g . (a * edge01 + b * edge02): the exact
    change of the attribute along the in-plane part of the differential. *)
Theorem interpolateDifferentials_affine (rayDir : float3 xreal)
    (p : array3 (float3 R)) (n g dX dY : float3 R)
    (k ax bx cx ay by_ cy : R) :
  let e01 := Rsub3 (elt1 p) (elt0 p) in
  let e02 := Rsub3 (elt2 p) (elt0 p) in
  Rdot3 n (Rcross e01 e02) <> 0%R ->
  let dBary :=
    computeBarycentricDifferentials
      (finRayDiff (combination3 ax bx cx e01 e02 n)
                  (combination3 ay by_ cy e01 e02 n) dX dY)
      rayDir (fin3 e01) (fin3 e02) (fin3 n) in
  interpolateDifferentials_float (fst dBary) (snd dBary) (affineValues g k p)
  = (fin (Rdot3 g (combination3 ax bx 0 e01 e02 n)),
     fin (Rdot3 g (combination3 ay by_ 0 e01 e02 n))).
Proof.
  intros e01 e02 Htau dBary. subst dBary.
  rewrite computeBarycentricDifferentials_fin by exact Htau. cbv zeta.
  destruct (barycentric_plane_equation e01 e02 n ax bx cx Htau) as [-> ->].
  destruct (barycentric_plane_equation e01 e02 n ay by_ cy Htau) as [-> ->].
  unfold interpolateDifferentials_float, affineValues, fin2.
  cbn [fst snd elt0 elt1 elt2 x2 y2].
  rewrite !sub_fin, !mul_fin, !add_fin.
  unfold fin. f_equal; f_equal;
    unfold combination3, e01, e02, Rdot3, Radd3, Rlscale3, Rsub3;
    cbn [x3 y3 z3]; ring.
Qed.

Lemma interpolateDifferentials_affine_witness :
  let p := mkArray3 (mkFloat3 0 0 0)%R (mkFloat3 1 0 0)%R (mkFloat3 0 1 0)%R in
  let n := (mkFloat3 0 0 1)%R in
  let g := (mkFloat3 2 3 5)%R in
  let e01 := Rsub3 (elt1 p) (elt0 p) in
  let e02 := Rsub3 (elt2 p) (elt0 p) in
  let dBary :=
    computeBarycentricDifferentials
      (finRayDiff (combination3 1 2 3 e01 e02 n) (combination3 0 1 0 e01 e02 n)
                  zeroR3 zeroR3)
      (fin3 zeroR3) (fin3 e01) (fin3 e02) (fin3 n) in
  interpolateDifferentials_float (fst dBary) (snd dBary) (affineValues g 7 p)
  = (fin (Rdot3 g (combination3 1 2 0 e01 e02 n)),
     fin (Rdot3 g (combination3 0 1 0 e01 e02 n))).
Proof.
  intros p n g e01 e02.
  apply (interpolateDifferentials_affine (fin3 zeroR3) p n g zeroR3 zeroR3
           7 1 2 3 0 1 0).
  unfold Rdot3, Rcross, Rsub3, p, n; cbn [elt0 elt1 elt2 x3 y3 z3]; lra.
Defined.

(** * Orientation of the vertex normals *)

Lemma worldNormals_neg (vertices : array3 (StaticVertexData R))
    (worldInvTransposeMat : float3x3 R) :
  worldNormals (negNormals vertices) worldInvTransposeMat
  = negArray3 (worldNormals vertices worldInvTransposeMat).
Proof.
  unfold worldNormals, negNormals, negNormal, negArray3.
  cbn [elt0 elt1 elt2 normal].
  f_equal; apply float3_eq; unfold Rmul_v3_m33, Rneg3; cbn [x3 y3 z3]; ring.
Qed.

Lemma negArray3_involutive (a : array3 (float3 R)) :
  negArray3 (negArray3 a) = a.
Proof.
  destruct a as [a0 a1 a2]. unfold negArray3. cbn [elt0 elt1 elt2].
  f_equal; apply float3_eq; unfold Rneg3; cbn [x3 y3 z3]; ring.
Qed.

Lemma Rneg3_involutive (a : float3 R) : Rneg3 (Rneg3 a) = a.
Proof. apply float3_eq; unfold Rneg3; cbn [x3 y3 z3]; ring. Qed.

Lemma Rdot3_neg3_l (a b : float3 R) : Rdot3 (Rneg3 a) b = (- Rdot3 a b)%R.
Proof. unfold Rdot3, Rneg3; cbn [x3 y3 z3]. ring. Qed.

Lemma PreparedVertices_eq (a b : PreparedVertices xreal) :
  pv_edge01 a = pv_edge01 b -> pv_edge02 a = pv_edge02 b ->
  pv_normals a = pv_normals b -> pv_unnormalizedN a = pv_unnormalizedN b ->
  pv_txcoords a = pv_txcoords b -> a = b.
Proof.
  destruct a as [a1 a2 a3 a4 a5], b as [b1 b2 b3 b4 b5].
  cbn [pv_edge01 pv_edge02 pv_normals pv_unnormalizedN pv_txcoords].
  intros -> -> -> -> ->. reflexivity.
Qed.

Lemma prepareVerticesForRayDiffs_canonical (rayDir barycentrics : float3 R)
    (vertices : array3 (StaticVertexData R)) (worldMat : float4x4 R)
    (worldInvTransposeMat : float3x3 R) :
  Rdot3 (blend3 (worldNormals vertices worldInvTransposeMat) barycentrics)
        rayDir <> 0%R ->
  prepareVerticesForRayDiffs (fin3 rayDir) (finVertices (negNormals vertices))
    (finMat4 worldMat) (finMat3 worldInvTransposeMat) (fin3 barycentrics)
  = prepareVerticesForRayDiffs (fin3 rayDir) (finVertices vertices)
      (finMat4 worldMat) (finMat3 worldInvTransposeMat) (fin3 barycentrics).
Proof.
  intros Hdot.
  destruct (prepareVerticesForRayDiffs_fin rayDir barycentrics vertices
              worldMat worldInvTransposeMat)
    as [E1 [E2 [TX [Hflip Hkeep]]]].
  destruct (prepareVerticesForRayDiffs_fin rayDir barycentrics
              (negNormals vertices) worldMat worldInvTransposeMat)
    as [E1' [E2' [TX' [Hflip' Hkeep']]]].
  rewrite worldNormals_neg, blend3_neg, Rdot3_neg3_l in Hflip', Hkeep'.
  set (ns := worldNormals vertices worldInvTransposeMat) in *.
  set (s := Rdot3 (blend3 ns barycentrics) rayDir) in *.
  apply PreparedVertices_eq.
  - rewrite E1, E1'. reflexivity.
  - rewrite E2, E2'. reflexivity.
  - destruct (Rlt_dec 0 s) as [Hpos | Hneg].
    + destruct (Hflip Hpos) as [-> _].
      destruct Hkeep' as [-> _]; [lra | reflexivity].
    + destruct Hkeep as [-> _]; [lra |].
      destruct Hflip' as [-> _]; [lra |].
      rewrite negArray3_involutive. reflexivity.
  - destruct (Rlt_dec 0 s) as [Hpos | Hneg].
    + destruct (Hflip Hpos) as [_ ->].
      destruct Hkeep' as [_ ->]; [lra | reflexivity].
    + destruct Hkeep as [_ ->]; [lra |].
      destruct Hflip' as [_ ->]; [lra |].
      rewrite Rneg3_involutive. reflexivity.
  - rewrite TX, TX'. reflexivity.
Qed.

(** X28. In the exact model, for finite vertex data whose interpolated
    world-space normal is not perpendicular to the ray,
    prepareVerticesForRayDiffs returns the same edges, normals, interpolated
    normal and texture coordinates for a triangle and for the triangle with
    its three vertex normals negated; hence refractRayDiffUsingVertexData and
    reflectRayDiffUsingVertexData, called with the same remaining arguments,
    do not depend on the orientation of the vertex normals. *)
Theorem vertex_normal_orientation_irrelevant
    (rayDir barycentrics : float3 R) (vertices : array3 (StaticVertexData R))
    (worldMat : float4x4 R) (worldInvTransposeMat : float3x3 R)
    (v : VertexData xreal) (rayDiff : RayDiff xreal)
    (refractedDir : float3 xreal) (eta : xreal) :
  Rdot3 (blend3 (worldNormals vertices worldInvTransposeMat) barycentrics)
        rayDir <> 0%R ->
  prepareVerticesForRayDiffs (fin3 rayDir) (finVertices (negNormals vertices))
    (finMat4 worldMat) (finMat3 worldInvTransposeMat) (fin3 barycentrics)
  = prepareVerticesForRayDiffs (fin3 rayDir) (finVertices vertices)
      (finMat4 worldMat) (finMat3 worldInvTransposeMat) (fin3 barycentrics)
  /\ refractRayDiffUsingVertexData v (finVertices (negNormals vertices))
       (fin3 barycentrics) (fin3 rayDir) refractedDir eta (finMat4 worldMat)
       (finMat3 worldInvTransposeMat) rayDiff
     = refractRayDiffUsingVertexData v (finVertices vertices)
         (fin3 barycentrics) (fin3 rayDir) refractedDir eta (finMat4 worldMat)
         (finMat3 worldInvTransposeMat) rayDiff
  /\ reflectRayDiffUsingVertexData v (finVertices (negNormals vertices))
       (fin3 barycentrics) (fin3 rayDir) (finMat4 worldMat)
       (finMat3 worldInvTransposeMat) rayDiff
     = reflectRayDiffUsingVertexData v (finVertices vertices)
         (fin3 barycentrics) (fin3 rayDir) (finMat4 worldMat)
         (finMat3 worldInvTransposeMat) rayDiff.
Proof.
  intros Hdot.
  pose proof (prepareVerticesForRayDiffs_canonical rayDir barycentrics
                vertices worldMat worldInvTransposeMat Hdot) as Hpv.
  split; [exact Hpv |].
  unfold refractRayDiffUsingVertexData, reflectRayDiffUsingVertexData,
    prepareRayDiffAtHitPoint.
  rewrite Hpv. split; reflexivity.
Qed.

Lemma vertex_normal_orientation_irrelevant_witness :
  let vs :=
    mkArray3
      (mkStaticVertexData (mkFloat3 0 0 0)%R (mkFloat3 0 0 1)%R
         (mkFloat2 0 0)%R)
      (mkStaticVertexData (mkFloat3 1 0 0)%R (mkFloat3 1 0 1)%R
         (mkFloat2 1 0)%R)
      (mkStaticVertexData (mkFloat3 0 1 0)%R (mkFloat3 0 1 1)%R
         (mkFloat2 0 1)%R) in
  let m4 :=
    mkFloat4x4 (mkFloat4 1 0 0 0)%R (mkFloat4 0 1 0 0)%R (mkFloat4 0 0 1 0)%R
               (mkFloat4 0 0 0 1)%R in
  let m3 :=
    mkFloat3x3 (mkFloat3 1 0 0)%R (mkFloat3 0 1 0)%R (mkFloat3 0 0 1)%R in
  let d := (mkFloat3 0 0 (-1))%R in
  let b := (mkFloat3 (1 / 2) (1 / 4) (1 / 4))%R in
  prepareVerticesForRayDiffs (fin3 d) (finVertices (negNormals vs))
    (finMat4 m4) (finMat3 m3) (fin3 b)
  = prepareVerticesForRayDiffs (fin3 d) (finVertices vs)
      (finMat4 m4) (finMat3 m3) (fin3 b).
Proof.
  intros vs m4 m3 d b.
  apply (vertex_normal_orientation_irrelevant d b vs m4 m3
           (mkVertexData (fin3 (mkFloat3 0 0 1)%R) (fin3 (mkFloat3 0 0 1)%R))
           (finRayDiff zeroR3 zeroR3 zeroR3 zeroR3) (fin3 zeroR3) (fin 1)).
  unfold Rdot3, blend3, worldNormals, Rmul_v3_m33, Radd3, Rscale3, vs, m3, d, b.
  cbn [elt0 elt1 elt2 normal x3 y3 z3 m3row0 m3row1 m3row2].
  lra.
Defined.

(** * Edge cases *)

(** X29. In the exact model, at exactly the critical angle
    (eta^2 (1 - dot(N, rayDir)^2) = 1) refractRayDifferential reports
    success, but the division by dot(N, refractedDir) = 0 makes both direction
    differentials it returns invalid in every component; the origin
    differentials are kept. *)
Theorem refractRayDifferential_critical_angle (rayDiff : RayDiff xreal)
    (rayDir N : float3 R) (nnN : float3 xreal) (dBarydx dBarydy : float2 xreal)
    (normalsW : array3 (float3 xreal)) (eta : R) :
  (eta * eta * (1 - Rdot3 N rayDir * Rdot3 N rayDir))%R = 1%R ->
  let result :=
    refractRayDifferential rayDiff (fin3 rayDir) nnN (fin3 N) dBarydx dBarydy
      normalsW (fin eta) in
  fst (fst result) = true
  /\ dOdx (snd (fst result)) = dOdx rayDiff
  /\ dOdy (snd (fst result)) = dOdy rayDiff
  /\ dDdx (snd (fst result)) = nan3
  /\ dDdy (snd (fst result)) = nan3.
Proof.
  intros Hk result. subst result.
  unfold refractRayDifferential. fin_simpl. rewrite Q2R_1.
  set (c := Rdot3 N rayDir) in *. rewrite Hk.
  rewrite ltb_fin_false by lra.
  replace (1 - 1)%R with 0%R by ring.
  rewrite fsqrt_fin by lra. rewrite sqrt_0. fin_simpl.
  cbn [fst snd].
  assert (Hdiv : div (fin (eta * c)) (fin 0) = None) by apply xdiv_zero.
  assert (Hmu : forall g : xreal,
            mul (mul (fin eta) (add (fin 1) (None : xreal))) g = None)
    by reflexivity.
  assert (Hsub : forall (a v w : float3 xreal) (m : xreal),
            sub3 a (add3 (lscale3 m v) (lscale3 (None : xreal) w)) = nan3).
  { intros [[a1 |] [a2 |] [a3 |]] [[v1 |] [v2 |] [v3 |]] w [m |];
      reflexivity. }
  unfold computeRayDifferentialRefraction, computeNormalDifferentials,
    interpolateDifferentials, RayDiff_make.
  cbv beta iota zeta. cbn [dOdx dOdy dDdx dDdy].
  fin_simpl. rewrite ?Q2R_1, Hdiv, !Hmu, !Hsub. repeat split.
Qed.

Lemma refractRayDifferential_critical_angle_witness :
  let rd := finRayDiff (mkFloat3 1 0 0)%R (mkFloat3 0 1 0)%R
              (mkFloat3 1 2 3)%R (mkFloat3 0 1 (-1))%R in
  let ns := finArray3 (mkArray3 (mkFloat3 0 0 1)%R (mkFloat3 0 0 1)%R
                                (mkFloat3 0 0 1)%R) in
  let result :=
    refractRayDifferential rd (fin3 (mkFloat3 (4 / 5) 0 (-3 / 5))%R)
      (fin3 (mkFloat3 0 0 1)%R) (fin3 (mkFloat3 0 0 1)%R)
      (fin2 (mkFloat2 1 0)%R) (fin2 (mkFloat2 0 1)%R) ns (fin (5 / 4)) in
  fst (fst result) = true /\ dDdx (snd (fst result)) = nan3.
Proof.
  intros rd ns.
  destruct (refractRayDifferential_critical_angle rd
              (mkFloat3 (4 / 5) 0 (-3 / 5))%R (mkFloat3 0 0 1)%R
              (fin3 (mkFloat3 0 0 1)%R) (fin2 (mkFloat2 1 0)%R)
              (fin2 (mkFloat2 0 1)%R) ns (5 / 4)%R)
    as [Hflag [_ [_ [Hx _]]]].
  - unfold Rdot3; cbn [x3 y3 z3]; field.
  - split; assumption.
Defined.

(** X30. In the exact model, the triangle LOD value is invalid when the
    triangle has zero area in world space (a division by zero) or zero area
    in texture space (the logarithm of zero). *)
Theorem computeRayConeTriangleLODValue_degenerate
    (vertices : array3 (float3 R)) (txcoords : array3 (float2 R))
    (worldMat : float3x3 R) :
  worldArea2 vertices worldMat = 0%R \/ texArea2 txcoords = 0%R ->
  computeRayConeTriangleLODValue (finArray3 vertices) (finArray2 txcoords)
    (finMat3 worldMat) = None.
Proof.
  intros Hdeg. rewrite computeRayConeTriangleLODValue_fin.
  destruct (Req_dec (worldArea2 vertices worldMat) 0) as [HPa | HPa].
  - rewrite HPa. unfold fin. xred. rewrite xdiv_zero. reflexivity.
  - destruct Hdeg as [HP | HTa]; [contradiction |].
    rewrite HTa, div_fin by exact HPa.
    replace (0 / worldArea2 vertices worldMat)%R with 0%R
      by (field; exact HPa).
    unfold fin. xred. unfold xlog2.
    destruct (Rlt_dec 0 0) as [Hlt | _]; [exfalso; lra | reflexivity].
Qed.

Lemma computeRayConeTriangleLODValue_degenerate_witness :
  computeRayConeTriangleLODValue
    (finArray3 (mkArray3 (mkFloat3 0 0 0)%R (mkFloat3 1 0 0)%R
                         (mkFloat3 2 0 0)%R))
    (finArray2 (mkArray3 (mkFloat2 0 0)%R (mkFloat2 1 0)%R (mkFloat2 0 1)%R))
    (finMat3 (mkFloat3x3 (mkFloat3 1 0 0)%R (mkFloat3 0 1 0)%R
                         (mkFloat3 0 0 1)%R))
  = None.
Proof.
  apply computeRayConeTriangleLODValue_degenerate. left.
  unfold worldArea2, Rlength3, Rdot3, Rcross, Rmul_v3_m33, Rsub3.
  cbn [elt0 elt1 elt2 x3 y3 z3 m3row0 m3row1 m3row2].
  transitivity (sqrt 0); [f_equal; ring | apply sqrt_0].
Defined.
